(** * kdx-pi-signage: playlist, reconciler and orchestrator

    A shallow embedding of the playback orchestration core of the signage
    system ([config.py], [playlist_manager.py], [video_scanner.py] and the
    control parts of [main.py]) together with the properties stated about
    it.

    Conventions of the embedding:
    - Python objects mutated in place become records that every operation
      takes and returns (explicit state passing).
    - Whatever an operation reads from the outside world (directory
      listings, file metadata, the clock, the media engine's verdict, the
      random generator) is an explicit argument.
    - Strings are sequences of 8-bit characters; [str.lower] is the ASCII
      lower-casing and string comparison is lexicographic on character
      codes, as Python's is on code points.
    - [Playlist.current_index] is a natural number: the field is declared
      [ge=0] and every assignment in the code stores a non-negative value.
    - Threads are not modelled: every operation runs atomically. *)

From Stdlib Require Import ZArith String Ascii Sorting.Sorted OrderedTypeEx.
From stdpp Require Import gmap strings list.

Local Open Scope string_scope.
Local Open Scope list_scope.

(** ** Strings *)

(** [c.lower()] for one character. *)
Definition lower_char (c : ascii) : ascii :=
  let n := nat_of_ascii c in
  if Nat.leb 65 n && Nat.leb n 90 then ascii_of_nat (n + 32) else c.

(** [s.lower()] *)
Fixpoint lower (s : string) : string :=
  match s with
  | EmptyString => EmptyString
  | String c r => String (lower_char c) (lower r)
  end.

(** Python's [<=] on [str]. *)
Definition str_le (a b : string) : Prop := String.leb a b = true.

(** ** Sorting

    [list.sort(key=...)] is a stable sort.  A stable sort has one possible
    result, so it is modelled by the stable insertion sort. *)

Section Sort.
Context {A : Type} (key : A -> string).

Fixpoint insert_sorted (x : A) (l : list A) : list A :=
  match l with
  | [] => [x]
  | h :: t =>
      if String.leb (key x) (key h) then x :: h :: t
      else h :: insert_sorted x t
  end.

Definition sort_by (l : list A) : list A := foldr insert_sorted [] l.

Definition sorted_by (l : list A) : Prop :=
  Sorted (fun a b => str_le (key a) (key b)) l.
End Sort.

(** No two neighbours of the list are equal. *)
Definition no_adjacent_repeat {A} (l : list A) : Prop :=
  forall i a b, l !! i = Some a -> l !! S i = Some b -> a <> b.

(** ** The outside world *)

(** What [os.stat] reports for a file (the float [st_mtime] is kept as an
    opaque integer stamp). *)
Record Stat := { st_size : Z; st_mtime : Z }.

(** One child of a directory as [pathlib] presents it: [str(p)], [p.name],
    [p.suffix], [p.is_file()] and [p.stat()] ([None] when [stat] raises
    [OSError]). *)
Record FileEntry := {
  fe_path : string;
  fe_name : string;
  fe_suffix : string;
  fe_is_file : bool;
  fe_stat : option Stat
}.

(** What a path used as a directory turns out to be. [DirUnreadable] is a
    directory whose [iterdir()] raises. *)
Inductive DirState :=
| DirMissing
| DirNotADirectory
| DirUnreadable
| DirListing (children : list FileEntry).

(** The file system and clock at the moment of a call. [fs_file p] is
    [None] when [Path(p).exists()] is false. *)
Record World := {
  fs_dir : string -> DirState;
  fs_file : string -> option FileEntry;
  clock : Z
}.

(** ** config.py *)

Record SystemConfig := {
  video_dir : string;
  log_dir : string;
  supported_formats : list string;
  refresh_interval : Z;
  max_retries : Z;
  retry_delay : Z
}.

(** The constraints pydantic enforces when a [SystemConfig] is built. *)
Definition valid_config (c : SystemConfig) : Prop :=
  Forall (fun fmt => String.prefix "." fmt = true) (supported_formats c) /\
  (5 <= refresh_interval c <= 300)%Z /\
  (1 <= max_retries c <= 10)%Z /\
  (1 <= retry_delay c <= 60)%Z.

Definition DEFAULT_SYSTEM_CONFIG : SystemConfig := {|
  video_dir := "/home/pi/kdx-pi-signage/videos";
  log_dir := "/home/pi/kdx-pi-signage/logs";
  supported_formats := [".mp4"; ".avi"; ".mkv"; ".mov"; ".wmv"];
  refresh_interval := 30;
  max_retries := 3;
  retry_delay := 5
|}.

Record VideoInfo := {
  file_path : string;
  filename : string;
  file_size : Z;
  format_extension : string;
  is_valid : bool;
  last_modified : option Z
}.

(** [VideoInfo(file_path=p, ...)]: the [pre=True, always=True] validators
    recompute every derived field from the path, whatever the caller
    passed; a failing [stat] degrades to size 0 and no timestamp. *)
Definition video_info_of (f : FileEntry) : VideoInfo := {|
  file_path := fe_path f;
  filename := fe_name f;
  file_size := match fe_stat f with Some s => st_size s | None => 0%Z end;
  format_extension := lower (fe_suffix f);
  is_valid := true;
  last_modified := st_mtime <$> fe_stat f
|}.

(** A call of the constructor [VideoInfo(file_path=p, ...)] on the file
    [p] points at; [None] stands for a raised [ValidationError]. *)
Definition Construction := FileEntry -> option VideoInfo.

(** The keyword arguments of such a call besides [file_path]:
    [filename], [file_size] and [format_extension] are declared without
    a default, so they are required. *)
Record VideoInfoArgs := {
  arg_filename : option string;
  arg_file_size : option Z;
  arg_format_extension : option string
}.

(** A call that leaves a required field out is rejected for the missing
    field; the validators give a value to the fields that were passed,
    not to one that was not. A call that passes them all gives the entry
    the validators derive from the path. *)
Definition new_video_info (args : VideoInfoArgs) : Construction := fun f =>
  match arg_filename args, arg_file_size args, arg_format_extension args with
  | Some _, Some _, Some _ => Some (video_info_of f)
  | _, _, _ => None
  end.

(** [VideoInfo(file_path=video_file)], the call [add_video] makes. *)
Definition path_alone : VideoInfoArgs := {|
  arg_filename := None; arg_file_size := None; arg_format_extension := None
|}.

Record Playlist := {
  videos : list VideoInfo;
  current_index : nat;
  shuffle_enabled : bool;
  loop_enabled : bool
}.

Module PlaylistOps.
(** [Playlist()] *)
Definition empty : Playlist := {|
  videos := []; current_index := 0;
  shuffle_enabled := false; loop_enabled := true
|}.

Definition set_current_index (p : Playlist) (i : nat) : Playlist := {|
  videos := videos p; current_index := i;
  shuffle_enabled := shuffle_enabled p; loop_enabled := loop_enabled p
|}.

Definition set_videos (p : Playlist) (vs : list VideoInfo) : Playlist := {|
  videos := vs; current_index := current_index p;
  shuffle_enabled := shuffle_enabled p; loop_enabled := loop_enabled p
|}.

Definition set_shuffle_enabled (p : Playlist) (b : bool) : Playlist := {|
  videos := videos p; current_index := current_index p;
  shuffle_enabled := b; loop_enabled := loop_enabled p
|}.

Definition set_loop_enabled (p : Playlist) (b : bool) : Playlist := {|
  videos := videos p; current_index := current_index p;
  shuffle_enabled := shuffle_enabled p; loop_enabled := b
|}.

(** [p] differs from [p0] in the cursor at most. *)
Definition same_list (p0 p : Playlist) : Prop :=
  videos p = videos p0 /\ loop_enabled p = loop_enabled p0.

Definition get_current_video (p : Playlist) : option VideoInfo :=
  match videos p with
  | [] => None
  | _ =>
      if Nat.ltb (current_index p) (length (videos p))
      then videos p !! current_index p
      else None
  end.

Definition is_empty (p : Playlist) : bool :=
  Nat.eqb (length (videos p)) 0.
End PlaylistOps.

(** ** playlist_manager.py: the two strategies *)

Module SequentialStrategy.
Import PlaylistOps.

Definition get_next_video (p : Playlist) : Playlist * option VideoInfo :=
  match videos p with
  | [] => (p, None)
  | _ =>
      if Nat.leb (length (videos p) - 1) (current_index p)
         && negb (loop_enabled p)
      then (p, None)
      else
        let p' :=
          set_current_index p
            ((current_index p + 1) mod length (videos p)) in
        (p', videos p' !! current_index p')
  end.

Definition reset (p : Playlist) : Playlist := set_current_index p 0.

(** [n] successive calls: the playlist after them and what each
    returned. *)
Fixpoint calls (n : nat) (p : Playlist)
  : Playlist * list (option VideoInfo) :=
  match n with
  | O => (p, [])
  | S k =>
      let '(p1, r) := get_next_video p in
      let '(p2, rs) := calls k p1 in
      (p2, r :: rs)
  end.

(** The cursor after each of [n] successive calls. *)
Fixpoint cursors (n : nat) (p : Playlist) : list nat :=
  match n with
  | O => []
  | S k =>
      let p1 := fst (get_next_video p) in
      current_index p1 :: cursors k p1
  end.
End SequentialStrategy.

Module ShuffleStrategy.
Import PlaylistOps.

(** The strategy object's fields [_played_indices] and [_last_index]. *)
Record t := {
  played_indices : list nat;
  last_index : option nat
}.

(** [ShuffleStrategy()] *)
Definition init : t := {| played_indices := []; last_index := None |}.

(** [[i for i in range(n) if i not in played]] *)
Definition available_indices (n : nat) (played : list nat) : list nat :=
  filter (fun i => i ∉ played) (seq 0 n).

(** [l.remove(x)]: drops the first occurrence. *)
Fixpoint remove (x : nat) (l : list nat) : list nat :=
  match l with
  | [] => []
  | h :: t => if Nat.eqb h x then t else h :: remove x t
  end.

(** The pool the pick is drawn from: the last pick is taken out of the
    unplayed indices when it is among them and is not the only one. *)
Definition candidates (last : option nat) (avail : list nat) : list nat :=
  match last with
  | Some l =>
      if bool_decide (l ∈ avail) && Nat.ltb 1 (length avail)
      then remove l avail
      else avail
  | None => avail
  end.

(** [random.choice(l)] on a non-empty list, the generator's draw being
    the number [r]: any element can come out. The default [d] is never
    returned for a non-empty [l]. *)
Definition random_choice (r : nat) (d : nat) (l : list nat) : nat :=
  nth (r mod length l) l d.

(** One call; [r] is the draw of the random generator. *)
Definition get_next_video (r : nat) (st : t) (p : Playlist)
  : t * Playlist * option VideoInfo :=
  match videos p with
  | [] => (st, p, None)
  | [v] => (st, set_current_index p 0, Some v)
  | _ =>
      let n := length (videos p) in
      let full := Nat.leb n (length (played_indices st)) in
      if full && negb (loop_enabled p) then (st, p, None)
      else
        let played := if full then [] else played_indices st in
        let pool := candidates (last_index st) (available_indices n played) in
        match pool with
        | [] =>
            ({| played_indices := played; last_index := last_index st |},
             p, None)
        | d :: _ =>
            let selected_index := random_choice r d pool in
            ({| played_indices := played ++ [selected_index];
                last_index := Some selected_index |},
             set_current_index p selected_index,
             videos p !! selected_index)
        end
  end.

Definition reset (st : t) (p : Playlist) : t * Playlist :=
  (init, set_current_index p 0).

(** The played indices a call on [n] videos works with: a list that is
    full is cleared first. *)
Definition effective_played (n : nat) (st : t) : list nat :=
  if Nat.leb n (length (played_indices st)) then [] else played_indices st.

(** The last pick, when there is one, is among the indices played in
    the current pass unless a new pass is about to begin. *)
Definition last_is_played (n : nat) (st : t) : Prop :=
  forall l, last_index st = Some l ->
    effective_played n st = [] \/ l ∈ effective_played n st.

(** Successive calls, one per draw in [rs]: for each call the cursor it
    left and the value it returned. *)
Fixpoint calls (rs : list nat) (st : t) (p : Playlist)
  : list (nat * option VideoInfo) :=
  match rs with
  | [] => []
  | r :: rs' =>
      let '(st1, p1, out) := get_next_video r st p in
      (current_index p1, out) :: calls rs' st1 p1
  end.

(** The strategy state after the calls of [rs]. *)
Fixpoint state_after (rs : list nat) (st : t) (p : Playlist) : t * Playlist :=
  match rs with
  | [] => (st, p)
  | r :: rs' =>
      let '(st1, p1, _) := get_next_video r st p in
      state_after rs' st1 p1
  end.
End ShuffleStrategy.

(** ** playlist_manager.py: the manager *)

Module PlaylistManager.
Import PlaylistOps.

(** Which of the two strategy objects [_current_strategy] refers to. *)
Inductive Strategy := Sequential | Shuffle.

(** The sequential strategy object has no fields, so only the shuffle
    strategy's state is carried. *)
Record t := {
  config : SystemConfig;
  playlist : Playlist;
  shuffle_strategy : ShuffleStrategy.t;
  current_strategy : Strategy
}.

(** [PlaylistManager(config)] *)
Definition init (c : SystemConfig) : t := {|
  config := c;
  playlist := PlaylistOps.empty;
  shuffle_strategy := ShuffleStrategy.init;
  current_strategy := Sequential
|}.

Definition with_playlist (m : t) (p : Playlist) : t := {|
  config := config m; playlist := p;
  shuffle_strategy := shuffle_strategy m;
  current_strategy := current_strategy m
|}.

(** [self._current_strategy.reset(self._playlist)] *)
Definition reset_current_strategy (m : t) : t :=
  match current_strategy m with
  | Sequential => with_playlist m (SequentialStrategy.reset (playlist m))
  | Shuffle =>
      let '(st, p) := ShuffleStrategy.reset (shuffle_strategy m) (playlist m) in
      {| config := config m; playlist := p;
         shuffle_strategy := st; current_strategy := Shuffle |}
  end.

(** The test of the loader's loop: a regular file whose lower-cased
    suffix is a supported format. *)
Definition is_supported_file (c : SystemConfig) (f : FileEntry) : bool :=
  fe_is_file f && bool_decide (lower (fe_suffix f) ∈ supported_formats c).

(** The loop over [iterdir()]: a file passing the test is appended
    unless reading its size raises, in which case it is skipped. *)
Fixpoint collect_videos (c : SystemConfig) (files : list FileEntry)
  : list VideoInfo :=
  match files with
  | [] => []
  | f :: rest =>
      if is_supported_file c f then
        match fe_stat f with
        | Some _ => video_info_of f :: collect_videos c rest
        | None => collect_videos c rest
        end
      else collect_videos c rest
  end.

(** [directory_path] is [None] for the configured directory. Returns the
    manager and the number of videos loaded. A directory that is missing,
    or whose listing raises, leaves the manager as it was. *)
Definition load_videos_from_directory (w : World) (m : t)
    (directory_path : option string) : t * nat :=
  let dir := default (video_dir (config m)) directory_path in
  match fs_dir w dir with
  | DirMissing => (m, 0)
  | DirNotADirectory | DirUnreadable => (m, 0)
  | DirListing files =>
      let vs := sort_by (fun v => lower (filename v)) (collect_videos (config m) files) in
      let p := set_current_index (set_videos (playlist m) vs) 0 in
      (reset_current_strategy (with_playlist m p), length vs)
  end.

Definition get_current_video (m : t) : option VideoInfo :=
  PlaylistOps.get_current_video (playlist m).

(** [r] is the random generator's draw, used in shuffle mode only. *)
Definition get_next_video (r : nat) (m : t) : t * option VideoInfo :=
  match current_strategy m with
  | Sequential =>
      let '(p, out) := SequentialStrategy.get_next_video (playlist m) in
      (with_playlist m p, out)
  | Shuffle =>
      let '(st, p, out) :=
        ShuffleStrategy.get_next_video r (shuffle_strategy m) (playlist m) in
      ({| config := config m; playlist := p;
          shuffle_strategy := st; current_strategy := Shuffle |}, out)
  end.

Definition set_shuffle_mode (m : t) (enabled : bool) : t :=
  reset_current_strategy {|
    config := config m;
    playlist := set_shuffle_enabled (playlist m) enabled;
    shuffle_strategy := shuffle_strategy m;
    current_strategy := if enabled then Shuffle else Sequential
  |}.

Definition set_loop_mode (m : t) (enabled : bool) : t :=
  with_playlist m (set_loop_enabled (playlist m) enabled).

Definition reset_playlist (m : t) : t := reset_current_strategy m.

(** A path that does not exist, or whose suffix is not supported, is
    refused, and so is one whose entry cannot be built (the exception is
    caught); otherwise the new entry goes to the end of the list. *)
Definition add_video (w : World) (build : Construction) (m : t)
    (video_path : string) : t * bool :=
  match fs_file w video_path with
  | None => (m, false)
  | Some f =>
      if bool_decide (lower (fe_suffix f) ∈ supported_formats (config m))
      then
        match build f with
        | Some video_info =>
            (with_playlist m
               (set_videos (playlist m) (videos (playlist m) ++ [video_info])),
             true)
        | None => (m, false)
        end
      else (m, false)
  end.

(** The loop of [remove_video] from position [i] on: the first entry
    with the given path is popped and the cursor adjusted. *)
Fixpoint remove_from (path : string) (i : nat) (rest : list VideoInfo)
    (p : Playlist) : Playlist * bool :=
  match rest with
  | [] => (p, false)
  | v :: rest' =>
      if String.eqb (file_path v) path then
        let c :=
          if Nat.ltb i (current_index p) then current_index p - 1
          else if Nat.eqb i (current_index p) then 0
          else current_index p in
        (set_videos (set_current_index p c) (delete i (videos p)), true)
      else remove_from path (S i) rest' p
  end.

Definition remove_video (m : t) (video_path : string) : t * bool :=
  let '(p, ok) := remove_from video_path 0 (videos (playlist m)) (playlist m) in
  (with_playlist m p, ok).

Definition clear_playlist (m : t) : t :=
  reset_current_strategy
    (with_playlist m (set_current_index (set_videos (playlist m) []) 0)).

Definition is_empty (m : t) : bool := PlaylistOps.is_empty (playlist m).

Definition get_video_count (m : t) : nat := length (videos (playlist m)).

(** The operations that change a manager, with what each one reads from
    outside. *)
Inductive Op :=
| OpLoad (w : World) (directory_path : option string)
| OpNext (r : nat)
| OpSetShuffle (enabled : bool)
| OpSetLoop (enabled : bool)
| OpReset
| OpAdd (w : World) (build : Construction) (video_path : string)
| OpRemove (video_path : string)
| OpClear.

Definition apply (m : t) (o : Op) : t :=
  match o with
  | OpLoad w d => fst (load_videos_from_directory w m d)
  | OpNext r => fst (get_next_video r m)
  | OpSetShuffle b => set_shuffle_mode m b
  | OpSetLoop b => set_loop_mode m b
  | OpReset => reset_playlist m
  | OpAdd w build path => fst (add_video w build m path)
  | OpRemove path => fst (remove_video m path)
  | OpClear => clear_playlist m
  end.

Definition is_add (o : Op) : bool :=
  match o with OpAdd _ _ _ => true | _ => false end.

(** An operation as the manager performs it: [add_video] builds its
    entry from the path alone. *)
Definition as_written (o : Op) : Prop :=
  match o with
  | OpAdd _ build _ => forall f, build f = new_video_info path_alone f
  | _ => True
  end.

(** The video list is in case-insensitive filename order. *)
Definition sorted (m : t) : Prop :=
  sorted_by (fun v => lower (filename v)) (videos (playlist m)).

(** The managers obtained from a new one by a sequence of operations. *)
Definition run (c : SystemConfig) (ops : list Op) : t :=
  foldl apply (init c) ops.
End PlaylistManager.

(** ** video_scanner.py *)

(** The kinds of event the file handler reports. *)
Inductive EventType := Created | Deleted | Moved.

(** The dictionary handed to the change callback. [added] and [removed]
    are built with [list(...)] from sets, in no particular order, and are
    kept as sets here. *)
Record ChangeInfo := {
  event_type : EventType;
  added : gset string;
  removed : gset string;
  total_videos : nat
}.

Module VideoScanner.
(** [on_change_callback] tells whether a change callback is registered;
    the calls made to it are returned by the operations as the list of
    dictionaries it received. *)
Record t := {
  config : SystemConfig;
  observer : bool;
  is_monitoring : bool;
  last_scan_time : option Z;
  cached_videos : gset string;
  on_change_callback : bool
}.

(** [VideoScanner(config)] *)
Definition init (c : SystemConfig) : t := {|
  config := c; observer := false; is_monitoring := false;
  last_scan_time := None; cached_videos := ∅;
  on_change_callback := false
|}.

(** The loop over [iterdir()] of [scan_videos]: a regular file with a
    supported suffix is kept when its size can be read and is positive. *)
Fixpoint collect_paths (c : SystemConfig) (files : list FileEntry)
  : list string :=
  match files with
  | [] => []
  | f :: rest =>
      if fe_is_file f && bool_decide (lower (fe_suffix f) ∈ supported_formats c)
      then
        match fe_stat f with
        | Some s =>
            if Z.ltb 0 (st_size s) then fe_path f :: collect_paths c rest
            else collect_paths c rest
        | None => collect_paths c rest
        end
      else collect_paths c rest
  end.

(** A completed scan stores its result in the cache and stamps the
    time; a directory that is missing, is not a directory or cannot be
    listed gives the empty list and touches nothing. *)
Definition scan_videos (w : World) (sc : t) (directory_path : option string)
  : t * list string :=
  let dir := default (video_dir (config sc)) directory_path in
  match fs_dir w dir with
  | DirMissing => (sc, [])
  | DirNotADirectory => (sc, [])
  | DirUnreadable => (sc, [])
  | DirListing files =>
      let video_files := sort_by id (collect_paths (config sc) files) in
      ({| config := config sc; observer := observer sc;
          is_monitoring := is_monitoring sc;
          last_scan_time := Some (clock w);
          cached_videos := list_to_set video_files;
          on_change_callback := on_change_callback sc |},
       video_files)
  end.

(** [start_monitoring(callback)]; [observer_ok] tells whether the file
    system observer could be created and started. *)
Definition start_monitoring (w : World) (observer_ok : bool) (sc : t)
    (callback : bool) : t * bool :=
  if is_monitoring sc then (sc, true)
  else
    match fs_dir w (video_dir (config sc)) with
    | DirMissing => (sc, false)
    | _ =>
        let cb := if callback then true else on_change_callback sc in
        if observer_ok then
          ({| config := config sc; observer := true; is_monitoring := true;
              last_scan_time := last_scan_time sc;
              cached_videos := cached_videos sc;
              on_change_callback := cb |}, true)
        else
          ({| config := config sc; observer := observer sc;
              is_monitoring := false;
              last_scan_time := last_scan_time sc;
              cached_videos := cached_videos sc;
              on_change_callback := cb |}, false)
    end.

(** [stop_monitoring()]; [stop_ok] tells whether the observer's [stop]
    and [join] return. When one of them raises, the handler returns False
    and the scanner is left as it was, still monitoring. *)
Definition stop_monitoring (stop_ok : bool) (sc : t) : t * bool :=
  if negb (is_monitoring sc) then (sc, true)
  else if observer sc && negb stop_ok then (sc, false)
  else
    ({| config := config sc; observer := false; is_monitoring := false;
        last_scan_time := last_scan_time sc;
        cached_videos := cached_videos sc;
        on_change_callback := on_change_callback sc |}, true).

(** [_handle_file_change(event_type, ...)] after its settle delay:
    rescan, compare with the cache as the scan left it, call the
    callback when there is a difference, store the scan in the cache.
    Returns the scanner and the dictionaries passed to the callback. *)
Definition _handle_file_change (w : World) (sc : t) (ev : EventType)
  : t * list ChangeInfo :=
  let '(sc1, scanned) := scan_videos w sc None in
  let current_videos : gset string := list_to_set scanned in
  let added_videos := current_videos ∖ cached_videos sc1 in
  let removed_videos := cached_videos sc1 ∖ current_videos in
  let calls :=
    if on_change_callback sc1
       && (negb (bool_decide (added_videos = ∅))
           || negb (bool_decide (removed_videos = ∅)))
    then [ {| event_type := ev; added := added_videos;
              removed := removed_videos;
              total_videos := size current_videos |} ]
    else [] in
  ({| config := config sc1; observer := observer sc1;
      is_monitoring := is_monitoring sc1;
      last_scan_time := last_scan_time sc1;
      cached_videos := current_videos;
      on_change_callback := on_change_callback sc1 |},
   calls).

Definition validate_directory (w : World) (sc : t) : bool :=
  match fs_dir w (video_dir (config sc)) with
  | DirListing _ => true
  | _ => false
  end.

(** [cleanup()]: the result of [stop_monitoring] is not looked at, and
    the cache is cleared whether or not the observer stopped. *)
Definition cleanup (stop_ok : bool) (sc : t) : t :=
  let sc1 := fst (stop_monitoring stop_ok sc) in
  {| config := config sc1; observer := observer sc1;
     is_monitoring := is_monitoring sc1;
     last_scan_time := last_scan_time sc1;
     cached_videos := ∅;
     on_change_callback := on_change_callback sc1 |}.
End VideoScanner.

(** ** main.py *)

(** What the orchestrator does to its surroundings, in order. *)
Inductive Effect :=
| RefreshPlaylist          (* a call of [_refresh_playlist] *)
| Wait (seconds : Z)       (* a call of [_wait_or_shutdown] *)
| StartThread              (* the main-loop thread is started *)
| Play (path : string).    (* a call of [play_video] *)

(** What the orchestrator meets outside itself during one operation. *)
Record Host := {
  world : World;
  mkdir_ok : bool;               (* [video_dir.mkdir] does not raise *)
  player_ok : bool;              (* [VideoPlayer()] does not raise *)
  observer_ok : bool;            (* the directory observer starts *)
  observer_stop_ok : bool;       (* the observer's [stop] and [join] return *)
  thread_ok : bool;              (* the main-loop thread starts *)
  play_ok : string -> bool       (* the verdict of [play_video] *)
}.

(** The file system after [d.mkdir(parents=True, exist_ok=True)] on a
    missing directory. *)
Definition mkdir (w : World) (d : string) : World := {|
  fs_dir := fun p => if String.eqb p d then DirListing [] else fs_dir w p;
  fs_file := fs_file w;
  clock := clock w
|}.

Module SignageSystem.
(** The part of the player adapter the orchestrator reads. *)
Record VideoPlayer := {
  current_video_path : option string;
  is_playing : bool
}.

Record t := {
  config : SystemConfig;
  video_player : option VideoPlayer;
  playlist_manager : option PlaylistManager.t;
  video_scanner : option VideoScanner.t;
  running : bool;
  main_thread : bool;
  shutdown_event : bool;
  error_count : Z;
  consecutive_errors : Z
}.

(** [SignageSystem(config)] *)
Definition init (c : SystemConfig) : t := {|
  config := c; video_player := None; playlist_manager := None;
  video_scanner := None; running := false; main_thread := false;
  shutdown_event := false; error_count := 0; consecutive_errors := 0
|}.

Definition with_components (s : t) (pl : option VideoPlayer)
    (pm : option PlaylistManager.t) (sc : option VideoScanner.t) : t := {|
  config := config s; video_player := pl; playlist_manager := pm;
  video_scanner := sc; running := running s; main_thread := main_thread s;
  shutdown_event := shutdown_event s; error_count := error_count s;
  consecutive_errors := consecutive_errors s
|}.

Definition with_counters (s : t) (total consecutive : Z) : t := {|
  config := config s; video_player := video_player s;
  playlist_manager := playlist_manager s; video_scanner := video_scanner s;
  running := running s; main_thread := main_thread s;
  shutdown_event := shutdown_event s; error_count := total;
  consecutive_errors := consecutive
|}.

Definition with_run_state (s : t) (run thread shutdown : bool) : t := {|
  config := config s; video_player := video_player s;
  playlist_manager := playlist_manager s; video_scanner := video_scanner s;
  running := run; main_thread := thread; shutdown_event := shutdown;
  error_count := error_count s; consecutive_errors := consecutive_errors s
|}.

(** Every exception is caught and turns into the result [false]; the
    components assigned before it stay assigned. *)
Definition initialize (h : Host) (s : t) : t * bool :=
  let dir := video_dir (config s) in
  let missing :=
    match fs_dir (world h) dir with DirMissing => true | _ => false end in
  if missing && negb (mkdir_ok h) then (s, false)
  else
    let w := if missing then mkdir (world h) dir else world h in
    let sc := VideoScanner.init (config s) in
    if negb (VideoScanner.validate_directory w sc)
    then (with_components s (video_player s) (playlist_manager s) (Some sc), false)
    else
      let pm :=
        fst (PlaylistManager.load_videos_from_directory w
               (PlaylistManager.init (config s)) None) in
      if negb (player_ok h)
      then (with_components s (video_player s) (Some pm) (Some sc), false)
      else
        let pl := {| current_video_path := None; is_playing := false |} in
        let sc' := fst (VideoScanner.start_monitoring w (observer_ok h) sc true) in
        (with_components s (Some pl) (Some pm) (Some sc'), true).

Definition start (h : Host) (s : t) : t * bool * list Effect :=
  if running s then (s, true, [])
  else
    let '(s1, ok) := initialize h s in
    if negb ok then (s1, false, [])
    else if thread_ok h
    then (with_run_state s1 true true false, true, [StartThread])
    else (with_run_state s1 false true false, false, []).

Definition _cleanup (h : Host) (s : t) : t :=
  with_components s
    ((fun _ => {| current_video_path := None; is_playing := false |})
       <$> video_player s)
    (playlist_manager s)
    (VideoScanner.cleanup (observer_stop_ok h) <$> video_scanner s).

Definition stop (h : Host) (s : t) : t :=
  if negb (running s) then s
  else _cleanup h (with_run_state s false (main_thread s) true).

(** A missing playlist manager makes the reload raise; the exception is
    caught and nothing changes. *)
Definition _refresh_playlist (h : Host) (s : t) : t * list Effect :=
  match playlist_manager s with
  | None => (s, [RefreshPlaylist])
  | Some pm =>
      (with_components s (video_player s)
         (Some (fst (PlaylistManager.load_videos_from_directory (world h) pm None)))
         (video_scanner s),
       [RefreshPlaylist])
  end.

Definition _handle_playback_error (h : Host) (s : t) : t * list Effect :=
  let s1 := with_counters s (error_count s + 1) (consecutive_errors s + 1) in
  let '(s2, tr) :=
    if Z.leb (max_retries (config s1)) (consecutive_errors s1) then
      let '(s', tr) := _refresh_playlist h s1 in
      (with_counters s' (error_count s') 0, tr)
    else (s1, []) in
  (s2, tr ++ [Wait (retry_delay (config s2))]).

Definition _on_video_error (h : Host) (s : t) : t * list Effect :=
  _handle_playback_error h s.

(** The refresh the change callback schedules, run to completion. *)
Definition _on_directory_change (h : Host) (s : t) : t * list Effect :=
  _refresh_playlist h s.

(** One pass through the body of the loop of [_main_loop]; [r] is the
    random generator's draw. A playback that starts is followed until
    the engine reports its end. Using a component that is not there
    raises, and the loop's handler treats that as a playback error. *)
Definition main_loop_body (h : Host) (r : nat) (s : t) : t * list Effect :=
  match playlist_manager s, video_player s with
  | None, _ => _handle_playback_error h s
  | Some pm, pl =>
      if PlaylistManager.is_empty pm then (s, [Wait 5])
      else
        match PlaylistManager.get_current_video pm with
        | None => (s, [Wait 2])
        | Some current_video =>
            match pl with
            | None => _handle_playback_error h s
            | Some _ =>
                let path := file_path current_video in
                if play_ok h path then
                  let s1 := with_counters s (error_count s) 0 in
                  let pl' := {| current_video_path := Some path;
                                is_playing := false |} in
                  let '(pm', next_video) := PlaylistManager.get_next_video r pm in
                  let s2 := with_components s1 (Some pl') (Some pm') (video_scanner s1) in
                  match next_video with
                  | None =>
                      if negb (loop_enabled (PlaylistManager.playlist pm'))
                      then
                        let '(s3, tr) := _refresh_playlist h s2 in
                        (s3, Play path :: tr)
                      else (s2, [Play path])
                  | Some _ => (s2, [Play path])
                  end
                else
                  let '(s1, tr) := _handle_playback_error h s in
                  (s1, Play path :: tr)
            end
        end
  end.

(** What can happen to a system, each with what it meets outside. *)
Inductive Action :=
| DoStart (h : Host)
| DoStop (h : Host)
| DoLoop (h : Host) (r : nat)
| DoVideoError (h : Host)
| DoDirectoryChange (h : Host).

Definition step (s : t) (a : Action) : t :=
  match a with
  | DoStart h => fst (fst (start h s))
  | DoStop h => stop h s
  | DoLoop h r =>
      if running s && negb (shutdown_event s)
      then fst (main_loop_body h r s) else s
  | DoVideoError h => fst (_on_video_error h s)
  | DoDirectoryChange h => fst (_on_directory_change h s)
  end.

(** The states a system built from [c] can be in. *)
Definition reachable (c : SystemConfig) (s : t) : Prop :=
  exists actions : list Action, s = foldl step (init c) actions.

(** The counters of a system built from [c] stay within these bounds. *)
Definition counters_in_range (c : SystemConfig) (s : t) : Prop :=
  config s = c
  /\ (0 <= consecutive_errors s < max_retries c)%Z
  /\ (0 <= error_count s)%Z.

(** How the counters of [s'] can differ from those of [s] after one
    operation. *)
Definition counters_moved (s s' : t) : Prop :=
  config s' = config s
  /\ (error_count s <= error_count s')%Z
  /\ (consecutive_errors s' = 0%Z
      \/ consecutive_errors s' = consecutive_errors s
      \/ (consecutive_errors s' = consecutive_errors s + 1
          /\ consecutive_errors s + 1 < max_retries (config s))%Z).

(** [n] playback failures in a row, each met with its own host. *)
Fixpoint failures (hs : list Host) (s : t) : t * list Effect :=
  match hs with
  | [] => (s, [])
  | h :: hs' =>
      let '(s1, tr1) := _handle_playback_error h s in
      let '(s2, tr2) := failures hs' s1 in
      (s2, tr1 ++ tr2)
  end.
End SignageSystem.

(** ** config.py: the playlist's own methods *)

Module PlaylistNav.
Import PlaylistOps.

(** [Playlist(videos=..., current_index=..., ...)]: the validator of
    [current_index] puts an index at or beyond the end of a non-empty
    list back to 0. *)
Definition make (vs : list VideoInfo) (index : nat) (shuffle loop : bool)
  : Playlist := {|
  videos := vs;
  current_index :=
    match vs with
    | [] => index
    | _ => if Nat.leb (length vs) index then 0 else index
    end;
  shuffle_enabled := shuffle;
  loop_enabled := loop
|}.

(** [Playlist.get_next_video] *)
Definition get_next_video (p : Playlist) : Playlist * option VideoInfo :=
  match videos p with
  | [] => (p, None)
  | _ =>
      let next_index := (current_index p + 1) mod length (videos p) in
      if Nat.eqb next_index 0 && negb (loop_enabled p) then (p, None)
      else
        let p' := set_current_index p next_index in
        (p', videos p' !! current_index p')
  end.

(** [Playlist.reset_playlist] *)
Definition reset_playlist (p : Playlist) : Playlist := set_current_index p 0.

(** The cursor points into the list, or the list is empty and the cursor
    is 0. *)
Definition cursor_in_range (p : Playlist) : Prop :=
  current_index p < length (videos p)
  \/ (videos p = [] /\ current_index p = 0).
End PlaylistNav.

(** ** config.py: the options of the media engine *)

Record VLCConfig := {
  interface : string;
  fullscreen : bool;
  show_video_title : bool;
  show_osd : bool;
  enable_subtitles : bool;
  enable_audio : bool;
  quiet_mode : bool;
  video_output : string;
  codec : string
}.

Definition DEFAULT_VLC_CONFIG : VLCConfig := {|
  interface := "dummy";
  fullscreen := true;
  show_video_title := false;
  show_osd := false;
  enable_subtitles := false;
  enable_audio := false;
  quiet_mode := true;
  video_output := "mmal_vout";
  codec := "mmal"
|}.

(** [VLCConfig.to_vlc_args] *)
Definition to_vlc_args (c : VLCConfig) : list string :=
  ["--intf"; interface c]
  ++ (if show_video_title c then [] else ["--no-video-title-show"])
  ++ (if fullscreen c then ["--fullscreen"] else [])
  ++ (if show_osd c then [] else ["--no-osd"])
  ++ (if enable_subtitles c then [] else ["--no-spu"])
  ++ (if enable_audio c then [] else ["--no-audio"])
  ++ (if quiet_mode c then ["--quiet"] else [])
  ++ ["--vout"; video_output c]
  ++ ["--codec"; codec c].

(** ** playlist_manager.py: the manager's reports *)

Module PlaylistReport.

(** The dictionary of [get_playlist_info]. *)
Record Info := {
  info_total_videos : nat;
  info_current_index : nat;
  info_shuffle_enabled : bool;
  info_loop_enabled : bool;
  info_is_empty : bool;
  info_current_video : option string
}.

Definition get_playlist_info (m : PlaylistManager.t) : Info :=
  let p := PlaylistManager.playlist m in {|
  info_total_videos := length (videos p);
  info_current_index := current_index p;
  info_shuffle_enabled := shuffle_enabled p;
  info_loop_enabled := loop_enabled p;
  info_is_empty := PlaylistOps.is_empty p;
  info_current_video := filename <$> PlaylistOps.get_current_video p
|}.

Definition get_video_list (m : PlaylistManager.t) : list string :=
  filename <$> videos (PlaylistManager.playlist m).

(** The flag of the playlist and the strategy in use say the same. *)
Definition mode_consistent (m : PlaylistManager.t) : Prop :=
  shuffle_enabled (PlaylistManager.playlist m) = true
  <-> PlaylistManager.current_strategy m = PlaylistManager.Shuffle.
End PlaylistReport.

(** ** video_scanner.py: the event handler *)

(** A path carried by a file system event, with the suffix [pathlib]
    finds in it. *)
Record WatchedPath := { wp_path : string; wp_suffix : string }.

(** The events the observer delivers. [dest] is [None] for a move event
    without a [dest_path] attribute. *)
Inductive FsEvent :=
| EvCreated (is_directory : bool) (src : WatchedPath)
| EvDeleted (is_directory : bool) (src : WatchedPath)
| EvMoved (is_directory : bool) (src : WatchedPath) (dest : option WatchedPath).

(** A call of the handler's callback: the kind and the path arguments. *)
Record HandlerCall := {
  call_kind : EventType;
  call_args : list string
}.

(** The paths an event carries. *)
Definition event_paths (ev : FsEvent) : list WatchedPath :=
  match ev with
  | EvCreated _ src | EvDeleted _ src => [src]
  | EvMoved _ src None => []
  | EvMoved _ src (Some dest) => [src; dest]
  end.

Definition event_is_directory (ev : FsEvent) : bool :=
  match ev with
  | EvCreated d _ | EvDeleted d _ | EvMoved d _ _ => d
  end.

Module VideoFileHandler.

Record t := {
  supported_formats : list string;
  callback : bool
}.

(** [VideoFileHandler(supported_formats, callback)]: the formats are
    stored lower-cased. *)
Definition init (formats : list string) (cb : bool) : t := {|
  supported_formats := lower <$> formats;
  callback := cb
|}.

Definition _is_video_file (h : t) (p : WatchedPath) : bool :=
  bool_decide (lower (wp_suffix p) ∈ supported_formats h).

(** The callback is called only when there is one. *)
Definition notify (h : t) (kind : EventType) (args : list string)
  : list HandlerCall :=
  if callback h then [ {| call_kind := kind; call_args := args |} ] else [].

Definition on_created (h : t) (is_directory : bool) (src : WatchedPath)
  : list HandlerCall :=
  if negb is_directory && _is_video_file h src
  then notify h Created [wp_path src] else [].

Definition on_deleted (h : t) (is_directory : bool) (src : WatchedPath)
  : list HandlerCall :=
  if negb is_directory && _is_video_file h src
  then notify h Deleted [wp_path src] else [].

Definition on_moved (h : t) (is_directory : bool) (src : WatchedPath)
    (dest : option WatchedPath) : list HandlerCall :=
  match dest with
  | None => []
  | Some d =>
      if negb is_directory then
        let src_is_video := _is_video_file h src in
        let dest_is_video := _is_video_file h d in
        if src_is_video && dest_is_video
        then notify h Moved [wp_path src; wp_path d]
        else if src_is_video && negb dest_is_video
        then notify h Deleted [wp_path src]
        else if negb src_is_video && dest_is_video
        then notify h Created [wp_path d]
        else []
      else []
  end.

(** The observer's dispatch of an event to the handler's method. *)
Definition dispatch (h : t) (ev : FsEvent) : list HandlerCall :=
  match ev with
  | EvCreated is_dir src => on_created h is_dir src
  | EvDeleted is_dir src => on_deleted h is_dir src
  | EvMoved is_dir src dest => on_moved h is_dir src dest
  end.
End VideoFileHandler.

(** ** video_scanner.py: the remaining operations and the wiring *)

Module Monitoring.

(** [get_video_count]: the length of a scan. *)
Definition get_video_count (w : World) (sc : VideoScanner.t)
    (directory_path : option string) : VideoScanner.t * nat :=
  let '(sc', video_files) := VideoScanner.scan_videos w sc directory_path in
  (sc', length video_files).

(** [refresh_playlist]: a scan of the configured directory. *)
Definition refresh_playlist (w : World) (sc : VideoScanner.t)
  : VideoScanner.t * list string :=
  VideoScanner.scan_videos w sc None.

(** The handler [start_monitoring] installs: the scanner's formats and
    its own [_handle_file_change] as callback. *)
Definition handler_of (sc : VideoScanner.t) : VideoFileHandler.t :=
  VideoFileHandler.init (supported_formats (VideoScanner.config sc)) true.

(** The handler's calls, each run through [_handle_file_change]. *)
Fixpoint run_calls (w : World) (sc : VideoScanner.t) (calls : list HandlerCall)
  : VideoScanner.t * list ChangeInfo :=
  match calls with
  | [] => (sc, [])
  | call :: rest =>
      let '(sc1, out1) := VideoScanner._handle_file_change w sc (call_kind call) in
      let '(sc2, out2) := run_calls w sc1 rest in
      (sc2, out1 ++ out2)
  end.

(** What one event of the observer does to a monitoring scanner. *)
Definition on_event (w : World) (sc : VideoScanner.t) (ev : FsEvent)
  : VideoScanner.t * list ChangeInfo :=
  run_calls w sc (VideoFileHandler.dispatch (handler_of sc) ev).
End Monitoring.

(** ** main.py: runs of the loop and what its states have in common *)

Module Orchestration.

(** Successive passes through the loop body, each with its host and
    random draw. *)
Fixpoint loops (steps : list (Host * nat)) (s : SignageSystem.t)
  : SignageSystem.t * list Effect :=
  match steps with
  | [] => (s, [])
  | (h, r) :: rest =>
      let '(s1, tr1) := SignageSystem.main_loop_body h r s in
      let '(s2, tr2) := loops rest s1 in
      (s2, tr1 ++ tr2)
  end.

(** The video directory can be used by [initialize]: it can be listed,
    or it is missing and can be created. *)
Definition dir_usable (h : Host) (c : SystemConfig) : bool :=
  match fs_dir (world h) (video_dir c) with
  | DirListing _ => true
  | DirMissing => mkdir_ok h
  | _ => false
  end.

(** What every playlist manager of an orchestrator has in common. *)
Definition manager_plain (c : SystemConfig) (pm : PlaylistManager.t) : Prop :=
  PlaylistManager.config pm = c
  /\ PlaylistManager.current_strategy pm = PlaylistManager.Sequential
  /\ PlaylistManager.shuffle_strategy pm = ShuffleStrategy.init
  /\ loop_enabled (PlaylistManager.playlist pm) = true
  /\ shuffle_enabled (PlaylistManager.playlist pm) = false
  /\ PlaylistManager.sorted pm
  /\ PlaylistNav.cursor_in_range (PlaylistManager.playlist pm).

(** What every state of an orchestrator has in common. *)
Definition well_formed (c : SystemConfig) (s : SignageSystem.t) : Prop :=
  SignageSystem.config s = c
  /\ (SignageSystem.running s = true ->
      is_Some (SignageSystem.video_player s)
      /\ is_Some (SignageSystem.playlist_manager s)
      /\ is_Some (SignageSystem.video_scanner s)
      /\ SignageSystem.shutdown_event s = false
      /\ SignageSystem.main_thread s = true)
  /\ (forall pm, SignageSystem.playlist_manager s = Some pm -> manager_plain c pm).

(** The fields an operation of the running system leaves alone: the
    configuration, the run flags and the scanner stay, and a component
    that is there stays there. *)
Definition same_run_state (s s' : SignageSystem.t) : Prop :=
  SignageSystem.config s' = SignageSystem.config s
  /\ SignageSystem.running s' = SignageSystem.running s
  /\ SignageSystem.shutdown_event s' = SignageSystem.shutdown_event s
  /\ SignageSystem.main_thread s' = SignageSystem.main_thread s
  /\ SignageSystem.video_scanner s' = SignageSystem.video_scanner s
  /\ (is_Some (SignageSystem.video_player s) ->
      is_Some (SignageSystem.video_player s'))
  /\ (is_Some (SignageSystem.playlist_manager s) ->
      is_Some (SignageSystem.playlist_manager s')).
End Orchestration.

(** ** Sample data for the examples *)

Definition sample_config : SystemConfig := {|
  video_dir := "/videos";
  log_dir := "/logs";
  supported_formats := [".mp4"; ".avi"; ".mkv"; ".mov"; ".wmv"];
  refresh_interval := 30;
  max_retries := 2;
  retry_delay := 1
|}.

(** A regular file of the sample directory. *)
Definition sample_file (name suffix : string) (size : Z) : FileEntry := {|
  fe_path := String.append "/videos/" name;
  fe_name := name;
  fe_suffix := suffix;
  fe_is_file := true;
  fe_stat := Some {| st_size := size; st_mtime := 0 |}
|}.

(** A world whose only directory is the sample directory. *)
Definition sample_world (files : list FileEntry) : World := {|
  fs_dir := fun d => if String.eqb d "/videos" then DirListing files else DirMissing;
  fs_file := fun path => find (fun f => String.eqb (fe_path f) path) files;
  clock := 0
|}.

(** A host in which everything works and every file plays. *)
Definition sample_host (files : list FileEntry) : Host := {|
  world := sample_world files;
  mkdir_ok := true; player_ok := true; observer_ok := true;
  observer_stop_ok := true; thread_ok := true;
  play_ok := fun _ => true
|}.

(** The same host with a media engine that rejects every file. *)
Definition failing_host (files : list FileEntry) : Host := {|
  world := sample_world files;
  mkdir_ok := true; player_ok := true; observer_ok := true;
  observer_stop_ok := true; thread_ok := true;
  play_ok := fun _ => false
|}.


(** * Properties *)

(** ** Sequential strategy *)

Section Sequential.
Import PlaylistOps.

Lemma seq_next_loop (p : Playlist) :
  videos p <> [] -> loop_enabled p = true ->
  SequentialStrategy.get_next_video p =
    (set_current_index p ((current_index p + 1) mod length (videos p)),
     videos p !! ((current_index p + 1) mod length (videos p))).
Proof.
  intros Hne Hloop. unfold SequentialStrategy.get_next_video.
  destruct (videos p) eqn:E; [done|].
  rewrite Hloop, andb_false_r. by rewrite <- E.
Qed.

Lemma seq_cursors_spec (m : nat) : forall p,
  videos p <> [] -> loop_enabled p = true ->
  SequentialStrategy.cursors m p =
    (fun j => (current_index p + 1 + j) mod length (videos p)) <$> seq 0 m.
Proof.
  induction m as [|m IH]; intros p Hne Hloop; [done|].
  cbn [SequentialStrategy.cursors]. rewrite seq_next_loop by done.
  cbn [fst]. rewrite IH by done. cbn.
  f_equal.
  - by rewrite Nat.add_0_r.
  - rewrite <- seq_shift, <- list_fmap_compose.
    apply list_fmap_ext. intros _ j _. cbn.
    by rewrite <- Nat.add_assoc, Nat.Div0.add_mod_idemp_l.
Qed.

Lemma seq_calls_spec (m : nat) : forall p,
  videos p <> [] -> loop_enabled p = true ->
  snd (SequentialStrategy.calls m p) =
    (fun i => videos p !! i) <$> SequentialStrategy.cursors m p.
Proof.
  induction m as [|m IH]; intros p Hne Hloop; [done|].
  cbn [SequentialStrategy.calls SequentialStrategy.cursors].
  rewrite seq_next_loop by done. cbn [fst].
  specialize (IH (set_current_index p
    ((current_index p + 1) mod length (videos p))) Hne Hloop).
  destruct (SequentialStrategy.calls m _) as [p2 rs]. cbn in *.
  by rewrite IH.
Qed.

Lemma mod_window_inj (n s j1 j2 k : nat) :
  k <= j1 < k + n -> k <= j2 < k + n ->
  (s + j1) mod n = (s + j2) mod n -> j1 = j2.
Proof.
  intros H1 H2 E.
  assert (n <> 0) by lia.
  pose proof (Nat.div_mod_eq (s + j1) n).
  pose proof (Nat.div_mod_eq (s + j2) n).
  rewrite E in *.
  set (q1 := (s + j1) / n) in *. set (q2 := (s + j2) / n) in *.
  destruct (Nat.lt_trichotomy q1 q2) as [Hq|[Hq|Hq]].
  - assert (n * q1 + n <= n * q2) by nia. lia.
  - rewrite Hq in *. lia.
  - assert (n * q2 + n <= n * q1) by nia. lia.
Qed.

Lemma mod_window_perm (n s k : nat) :
  n <> 0 -> ((fun j => (s + j) mod n) <$> seq k n) ≡ₚ seq 0 n.
Proof.
  intros Hn. apply NoDup_Permutation_bis.
  - apply NoDup_ListNoDup, NoDup_fmap_2_strong; [|apply NoDup_seq].
    intros x y Hx Hy. rewrite !elem_of_seq in *.
    apply mod_window_inj with (k := k); lia.
  - by rewrite length_fmap, !length_seq.
  - intros x Hx. apply list_elem_of_In in Hx. apply list_elem_of_In.
    apply list_elem_of_fmap in Hx as [j [-> _]].
    apply elem_of_seq. pose proof (Nat.mod_upper_bound (s + j) n Hn). lia.
Qed.
End Sequential.

(** C4. On a non-empty playlist with looping enabled a call of the
    sequential strategy's [get_next_video] moves the cursor to
    [(cursor + 1) mod len] and returns the entry found there. Hence, in
    any run of [m] successive calls, each cursor is the successor of the
    one before (with [len - 1] followed by [0]), any [len] consecutive
    calls visit every index exactly once, and the run is periodic with
    period [len]. *)
Theorem sequential_next_cycles_in_order (p : Playlist) (m : nat) :
  videos p <> [] -> loop_enabled p = true ->
  let n := length (videos p) in
  let cs := SequentialStrategy.cursors m p in
  SequentialStrategy.get_next_video p =
    (PlaylistOps.set_current_index p ((current_index p + 1) mod n),
     videos p !! ((current_index p + 1) mod n))
  /\ is_Some (videos p !! ((current_index p + 1) mod n))
  /\ snd (SequentialStrategy.calls m p) = (fun i => videos p !! i) <$> cs
  /\ Forall (fun i => i < n) cs
  /\ (forall i a b, cs !! i = Some a -> cs !! S i = Some b ->
        b = (a + 1) mod n /\ (b = a + 1 \/ (a = n - 1 /\ b = 0)))
  /\ (forall k, k + n <= m -> take n (drop k cs) ≡ₚ seq 0 n)
  /\ (forall i, i + n < m -> cs !! (i + n) = cs !! i).
Proof.
  intros Hne Hloop n cs.
  assert (Hn : n <> 0) by (subst n; destruct (videos p); cbn; done).
  assert (Hcs : cs = (fun j => (current_index p + 1 + j) mod n) <$> seq 0 m)
    by (apply seq_cursors_spec; done).
  split; [by apply seq_next_loop|].
  split; [apply lookup_lt_is_Some, Nat.mod_upper_bound, Hn|].
  split; [by apply seq_calls_spec|].
  split.
  { rewrite Hcs. apply Forall_fmap, Forall_forall. intros j _. cbn.
    apply Nat.mod_upper_bound, Hn. }
  split.
  { intros i a b. rewrite Hcs, !list_lookup_fmap.
    intros Ha Hb.
    apply fmap_Some in Ha as [j [Hj ->]]. apply fmap_Some in Hb as [j' [Hj' ->]].
    apply lookup_seq in Hj as [-> _]. apply lookup_seq in Hj' as [-> _].
    cbn.
    assert (E : (current_index p + 1 + S i) mod n
                = ((current_index p + 1 + i) mod n + 1) mod n).
    { rewrite Nat.Div0.add_mod_idemp_l. f_equal. lia. }
    split; [done|]. rewrite E.
    pose proof (Nat.mod_upper_bound (current_index p + 1 + i) n Hn) as Hlt.
    set (a := (current_index p + 1 + i) mod n) in *.
    destruct (decide (a + 1 < n)) as [Hs|Hs].
    - left. by apply Nat.mod_small.
    - right. assert (a + 1 = n) as -> by lia.
      split; [lia|]. apply Nat.Div0.mod_same. }
  split.
  { intros k Hk. rewrite Hcs, <- fmap_drop, <- fmap_take.
    rewrite drop_seq, take_seq.
    replace (n `min` (m - k)) with n by lia. cbn.
    apply (mod_window_perm n (current_index p + 1) k Hn). }
  intros i Hi. rewrite Hcs, !list_lookup_fmap.
  rewrite !lookup_seq_lt by lia. cbn. f_equal.
  replace (current_index p + 1 + (i + n)) with (current_index p + 1 + i + 1 * n) by lia.
  apply Nat.Div0.mod_add.
Qed.

(** One playlist of three entries on which the statements are run. *)
Lemma sequential_next_cycles_in_order_witness :
  let v (name : string) := {| file_path := name; filename := name;
    file_size := 1; format_extension := ".mp4"; is_valid := true;
    last_modified := None |} in
  let p := {| videos := [v "1.mp4"; v "2.mp4"; v "3.mp4"];
              current_index := 0; shuffle_enabled := false;
              loop_enabled := true |} in
  SequentialStrategy.cursors 7 p = [1; 2; 0; 1; 2; 0; 1]
  /\ take 3 (drop 2 (SequentialStrategy.cursors 7 p)) ≡ₚ seq 0 3.
Proof.
  intros v p. split; [reflexivity|].
  apply (sequential_next_cycles_in_order p 7); [done|reflexivity|cbn; lia].
Defined.

(** C5. On a non-empty playlist with looping disabled and the cursor on
    the last index, the sequential strategy's [get_next_video] returns
    nothing and hands back the very same playlist. *)
Theorem sequential_next_stops_at_end (p : Playlist) :
  videos p <> [] -> loop_enabled p = false ->
  current_index p = length (videos p) - 1 ->
  SequentialStrategy.get_next_video p = (p, None).
Proof.
  intros Hne Hloop Hc. unfold SequentialStrategy.get_next_video.
  destruct (videos p) eqn:E; [done|].
  rewrite Hc, Hloop, Nat.leb_refl. reflexivity.
Qed.

Lemma sequential_next_stops_at_end_witness :
  let v (name : string) := {| file_path := name; filename := name;
    file_size := 1; format_extension := ".mp4"; is_valid := true;
    last_modified := None |} in
  let p := {| videos := [v "1.mp4"; v "2.mp4"; v "3.mp4"];
              current_index := 2; shuffle_enabled := false;
              loop_enabled := false |} in
  SequentialStrategy.get_next_video p = (p, None).
Proof.
  intros v p. apply (sequential_next_stops_at_end p); [done|reflexivity|reflexivity].
Defined.

(** ** Shuffle strategy *)

Section Shuffle.
Import PlaylistOps.

Lemma elem_of_available (n : nat) (played : list nat) (x : nat) :
  x ∈ ShuffleStrategy.available_indices n played <-> x < n /\ x ∉ played.
Proof.
  unfold ShuffleStrategy.available_indices.
  rewrite list_elem_of_filter, elem_of_seq. intuition lia.
Qed.

Lemma NoDup_available (n : nat) (played : list nat) :
  NoDup (ShuffleStrategy.available_indices n played).
Proof. apply NoDup_filter, NoDup_seq. Qed.

Lemma available_nonempty (n : nat) (played : list nat) :
  length played < n -> ShuffleStrategy.available_indices n played <> [].
Proof.
  intros Hlt Hnil.
  assert (Hsub : seq 0 n ⊆+ played).
  { apply NoDup_submseteq; [apply NoDup_seq|].
    intros x Hx. destruct (decide (x ∈ played)) as [|Hnot]; [done|].
    assert (x ∈ ShuffleStrategy.available_indices n played) as Hin
      by (apply elem_of_available; apply elem_of_seq in Hx; split; [lia|done]).
    rewrite Hnil in Hin. by apply elem_of_nil in Hin. }
  apply submseteq_length in Hsub. rewrite length_seq in Hsub. lia.
Qed.

Lemma available_nil (n : nat) :
  ShuffleStrategy.available_indices n [] = seq 0 n.
Proof.
  unfold ShuffleStrategy.available_indices.
  induction (seq 0 n) as [|x l IH]; [done|].
  rewrite filter_cons_True by apply not_elem_of_nil. by rewrite IH.
Qed.

Lemma elem_of_remove (x y : nat) (l : list nat) :
  y ∈ ShuffleStrategy.remove x l -> y ∈ l.
Proof.
  induction l as [|h t IH]; cbn; [done|].
  destruct (Nat.eqb h x); intros Hy.
  - by right.
  - apply elem_of_cons in Hy as [->|Hy]; [left|right; auto].
Qed.

Lemma not_elem_of_remove (x : nat) (l : list nat) :
  NoDup l -> x ∉ ShuffleStrategy.remove x l.
Proof.
  induction 1 as [|h t Hh Ht IH]; cbn; [apply not_elem_of_nil|].
  destruct (Nat.eqb_spec h x) as [->|Hne]; [done|].
  intros Hx. apply elem_of_cons in Hx as [->|Hx]; [done|by apply IH].
Qed.

Lemma length_remove (x : nat) (l : list nat) :
  x ∈ l -> S (length (ShuffleStrategy.remove x l)) = length l.
Proof.
  induction l as [|h t IH]; cbn; intros Hx; [by apply elem_of_nil in Hx|].
  destruct (Nat.eqb_spec h x) as [->|Hne]; [done|].
  apply elem_of_cons in Hx as [->|Hx]; [done|]. cbn. by rewrite IH.
Qed.

Lemma candidates_sub (last : option nat) (avail : list nat) (x : nat) :
  x ∈ ShuffleStrategy.candidates last avail -> x ∈ avail.
Proof.
  unfold ShuffleStrategy.candidates. destruct last as [l|]; [|done].
  destruct (_ && _); [apply elem_of_remove|done].
Qed.

Lemma candidates_nonempty (last : option nat) (avail : list nat) :
  avail <> [] -> ShuffleStrategy.candidates last avail <> [].
Proof.
  unfold ShuffleStrategy.candidates. intros Hne.
  destruct last as [l|]; [|done].
  destruct (bool_decide (l ∈ avail)) eqn:Hin; cbn [andb]; [|done].
  destruct (Nat.ltb_spec 1 (length avail)) as [Hlen|]; [|done].
  apply bool_decide_eq_true in Hin. apply length_remove in Hin.
  intros Hnil. rewrite Hnil in Hin. cbn in Hin. lia.
Qed.

Lemma random_choice_elem (r d : nat) (l : list nat) :
  l <> [] -> ShuffleStrategy.random_choice r d l ∈ l.
Proof.
  intros Hne. unfold ShuffleStrategy.random_choice.
  apply list_elem_of_In, nth_In, Nat.mod_upper_bound.
  by destruct l.
Qed.

Lemma effective_played_length (n : nat) (st : ShuffleStrategy.t) :
  0 < n -> length (ShuffleStrategy.effective_played n st) < n.
Proof.
  intros Hn. unfold ShuffleStrategy.effective_played.
  destruct (Nat.leb_spec n (length (ShuffleStrategy.played_indices st)));
    cbn; lia.
Qed.

(** What one call does on a looping playlist of at least two entries. *)
Lemma shuffle_step (r : nat) (st : ShuffleStrategy.t) (p : Playlist) :
  1 < length (videos p) -> loop_enabled p = true ->
  exists i,
    ShuffleStrategy.get_next_video r st p =
      ({| ShuffleStrategy.played_indices :=
            ShuffleStrategy.effective_played (length (videos p)) st ++ [i];
          ShuffleStrategy.last_index := Some i |},
       set_current_index p i, videos p !! i)
    /\ i < length (videos p)
    /\ (i ∉ ShuffleStrategy.effective_played (length (videos p)) st)
    /\ i ∈ ShuffleStrategy.candidates (ShuffleStrategy.last_index st)
           (ShuffleStrategy.available_indices (length (videos p))
              (ShuffleStrategy.effective_played (length (videos p)) st)).
Proof.
  intros Hlen Hloop. unfold ShuffleStrategy.get_next_video.
  destruct (videos p) as [|v1 [|v2 vs]] eqn:E; [cbn in Hlen; lia..|].
  rewrite <- E in *. rewrite Hloop, andb_false_r.
  fold (ShuffleStrategy.effective_played (length (videos p)) st).
  set (P0 := ShuffleStrategy.effective_played (length (videos p)) st).
  set (avail := ShuffleStrategy.available_indices (length (videos p)) P0).
  set (pool := ShuffleStrategy.candidates (ShuffleStrategy.last_index st) avail).
  assert (Hpool : pool <> []).
  { apply candidates_nonempty, available_nonempty, effective_played_length. lia. }
  destruct pool as [|d pool'] eqn:Epool; [done|].
  exists (ShuffleStrategy.random_choice r d (d :: pool')).
  assert (Hin : ShuffleStrategy.random_choice r d (d :: pool') ∈ d :: pool')
    by (by apply random_choice_elem).
  assert (Hav : ShuffleStrategy.random_choice r d (d :: pool') ∈ avail)
    by (apply (candidates_sub (ShuffleStrategy.last_index st));
        fold pool; by rewrite Epool).
  apply elem_of_available in Hav as [Hlt Hnot].
  done.
Qed.
End Shuffle.

Section ShuffleRuns.
Import PlaylistOps.
Variable p0 : Playlist.
Let n := length (videos p0).
Hypothesis Hlen : 1 < n.
Hypothesis Hloop : loop_enabled p0 = true.

Lemma shuffle_step' (r : nat) (st : ShuffleStrategy.t) (p : Playlist) :
  same_list p0 p ->
  exists i,
    ShuffleStrategy.get_next_video r st p =
      ({| ShuffleStrategy.played_indices :=
            ShuffleStrategy.effective_played n st ++ [i];
          ShuffleStrategy.last_index := Some i |},
       set_current_index p i, videos p0 !! i)
    /\ i < n
    /\ (i ∉ ShuffleStrategy.effective_played n st)
    /\ (ShuffleStrategy.last_is_played n st ->
        ShuffleStrategy.last_index st <> Some i).
Proof.
  intros [Hv Hl].
  destruct (shuffle_step r st p) as (i & Heq & Hlt & Hnot & Hin).
  { rewrite Hv. exact Hlen. }
  { by rewrite Hl. }
  rewrite Hv in *. fold n in Heq, Hlt, Hnot, Hin.
  exists i. repeat split; try done.
  intros Hinv Hlast. specialize (Hinv i Hlast).
  rewrite Hlast in Hin. unfold ShuffleStrategy.candidates in Hin.
  set (avail := ShuffleStrategy.available_indices n
                  (ShuffleStrategy.effective_played n st)) in *.
  destruct (bool_decide (i ∈ avail)) eqn:Hmem; cbn [andb] in Hin.
  - apply bool_decide_eq_true in Hmem.
    destruct (Nat.ltb_spec 1 (length avail)) as [Hlong|Hshort].
    + revert Hin. apply not_elem_of_remove, NoDup_available.
    + destruct Hinv as [Hnil|Hplayed]; [|done].
      subst avail. rewrite Hnil, available_nil, length_seq in Hshort. lia.
  - apply bool_decide_eq_false in Hmem. done.
Qed.

Lemma same_list_set (p : Playlist) (i : nat) :
  same_list p0 p -> same_list p0 (set_current_index p i).
Proof. by intros [? ?]. Qed.

Lemma last_is_played_step (st : ShuffleStrategy.t) (i : nat) :
  ShuffleStrategy.last_is_played n
    {| ShuffleStrategy.played_indices :=
         ShuffleStrategy.effective_played n st ++ [i];
       ShuffleStrategy.last_index := Some i |}.
Proof.
  intros l [= <-]. unfold ShuffleStrategy.effective_played at 1 3. cbn.
  destruct (Nat.leb _ _); [by left|right].
  apply elem_of_app. right. by left.
Qed.

(** Every call returns the entry under the cursor it leaves. *)
Lemma shuffle_calls_wf (rs : list nat) : forall st p,
  same_list p0 p ->
  Forall (fun co => co.1 < n /\ co.2 = videos p0 !! co.1)
    (ShuffleStrategy.calls rs st p).
Proof.
  induction rs as [|r rs IH]; intros st p Hp; cbn; [done|].
  destruct (shuffle_step' r st p Hp) as (i & -> & Hlt & _).
  constructor; [done|]. apply IH, same_list_set, Hp.
Qed.

(** No call picks what the call before it picked. *)
Lemma shuffle_no_adjacent (rs : list nat) : forall st p,
  same_list p0 p -> ShuffleStrategy.last_is_played n st ->
  no_adjacent_repeat
    (option_list (ShuffleStrategy.last_index st)
     ++ (ShuffleStrategy.calls rs st p).*1).
Proof.
  induction rs as [|r rs IH]; intros st p Hp Hinv.
  - cbn. rewrite app_nil_r. intros i a b Ha Hb.
    destruct (ShuffleStrategy.last_index st); by destruct i.
  - cbn [ShuffleStrategy.calls].
    destruct (shuffle_step' r st p Hp) as (i & -> & Hlt & _ & Hfresh).
    specialize (IH _ _ (same_list_set p i Hp) (last_is_played_step st i)).
    cbn in IH. cbn [fmap list_fmap fst].
    destruct (ShuffleStrategy.last_index st) as [l|]; [|exact IH].
    cbn. intros [|k] a b Ha Hb.
    + cbn in Ha, Hb. injection Ha as <-. injection Hb as <-.
      intros ->. by apply Hfresh.
    + by apply (IH k).
Qed.

Lemma shuffle_calls_length (rs : list nat) : forall st p,
  length (ShuffleStrategy.calls rs st p) = length rs.
Proof.
  induction rs as [|r rs IH]; intros st p; cbn; [done|].
  destruct (ShuffleStrategy.get_next_video r st p) as [[st1 p1] out].
  cbn. by rewrite IH.
Qed.

Lemma shuffle_calls_app (rs1 rs2 : list nat) : forall st p,
  ShuffleStrategy.calls (rs1 ++ rs2) st p =
    ShuffleStrategy.calls rs1 st p
    ++ ShuffleStrategy.calls rs2
         (ShuffleStrategy.state_after rs1 st p).1
         (ShuffleStrategy.state_after rs1 st p).2.
Proof.
  induction rs1 as [|r rs1 IH]; intros st p; cbn; [done|].
  destruct (ShuffleStrategy.get_next_video r st p) as [[st1 p1] out].
  cbn. by rewrite IH.
Qed.

Lemma shuffle_state_after_same (rs : list nat) : forall st p,
  same_list p0 p -> same_list p0 (ShuffleStrategy.state_after rs st p).2.
Proof.
  induction rs as [|r rs IH]; intros st p Hp; cbn; [done|].
  destruct (shuffle_step' r st p Hp) as (i & -> & _).
  apply IH, same_list_set, Hp.
Qed.

(** Within a pass: as long as the played list has room for the calls,
    they pick pairwise different indices, none of them played before,
    and the played list records them in order. *)
Lemma shuffle_within_pass (rs : list nat) : forall st p,
  same_list p0 p ->
  NoDup (ShuffleStrategy.effective_played n st) ->
  length (ShuffleStrategy.effective_played n st) + length rs <= n ->
  NoDup (ShuffleStrategy.effective_played n st
         ++ (ShuffleStrategy.calls rs st p).*1)
  /\ (rs <> [] ->
      ShuffleStrategy.played_indices (ShuffleStrategy.state_after rs st p).1 =
        ShuffleStrategy.effective_played n st
        ++ (ShuffleStrategy.calls rs st p).*1).
Proof.
  induction rs as [|r rs IH]; intros st p Hp Hnd Hroom.
  - cbn. by rewrite app_nil_r.
  - cbn [ShuffleStrategy.calls ShuffleStrategy.state_after].
    destruct (shuffle_step' r st p Hp) as (i & -> & Hlt & Hnot & _).
    cbn [fmap list_fmap fst]. cbn in Hroom.
    set (P0 := ShuffleStrategy.effective_played n st) in *.
    set (st1 := {| ShuffleStrategy.played_indices := P0 ++ [i];
                   ShuffleStrategy.last_index := Some i |}).
    assert (Hnd1 : NoDup (P0 ++ [i])).
    { apply NoDup_app. split; [done|]. split; [|apply NoDup_singleton].
      intros x Hx Hx'. apply list_elem_of_singleton in Hx' as ->. done. }
    destruct rs as [|r' rs'].
    + cbn. split; [done|]. by intros _.
    + assert (Heff : ShuffleStrategy.effective_played n st1 = P0 ++ [i]).
      { unfold ShuffleStrategy.effective_played at 1. cbn.
        rewrite length_app. cbn in *.
        destruct (Nat.leb_spec n (length P0 + 1)); [lia|done]. }
      destruct (IH st1 (set_current_index p i)) as [IH1 IH2].
      { by apply same_list_set. }
      { by rewrite Heff. }
      { rewrite Heff, length_app. cbn in *. lia. }
      rewrite Heff in IH1, IH2. rewrite <- app_assoc in IH1, IH2.
      split; [exact IH1|]. intros _. by apply IH2.
Qed.

Lemma shuffle_calls_take (k : nat) : forall rs st p,
  take k (ShuffleStrategy.calls rs st p) =
    ShuffleStrategy.calls (take k rs) st p.
Proof.
  induction k as [|k IH]; intros [|r rs] st p; cbn; try done.
  destruct (ShuffleStrategy.get_next_video r st p) as [[st1 p1] out].
  cbn. by rewrite IH.
Qed.

Lemma shuffle_calls_drop (k : nat) : forall rs st p,
  drop k (ShuffleStrategy.calls rs st p) =
    ShuffleStrategy.calls (drop k rs)
      (ShuffleStrategy.state_after (take k rs) st p).1
      (ShuffleStrategy.state_after (take k rs) st p).2.
Proof.
  induction k as [|k IH]; intros [|r rs] st p; cbn; try done.
  destruct (ShuffleStrategy.get_next_video r st p) as [[st1 p1] out].
  cbn. by rewrite IH.
Qed.

(** Cut into passes of [n] calls from the start of a pass, a run never
    picks an index twice in one pass. *)
Lemma shuffle_passes (j : nat) : forall rs st p,
  same_list p0 p ->
  ShuffleStrategy.effective_played n st = [] ->
  NoDup (take n (drop (j * n) (ShuffleStrategy.calls rs st p).*1)).
Proof.
  induction j as [|j IH]; intros rs st p Hp Heff.
  - cbn [Nat.mul]. rewrite drop_0, <- fmap_take, shuffle_calls_take.
    destruct (shuffle_within_pass (take n rs) st p Hp) as [Hnd _].
    + rewrite Heff. constructor.
    + rewrite Heff, length_take. cbn. lia.
    + by rewrite Heff in Hnd.
  - replace (S j * n) with (n + j * n) by lia.
    rewrite <- drop_drop, <- fmap_drop, shuffle_calls_drop.
    destruct (decide (length rs < n)) as [Hshort|Hlong].
    + rewrite (drop_ge rs) by lia. cbn. rewrite drop_nil, take_nil. constructor.
    + apply IH; [by apply shuffle_state_after_same|].
      destruct (shuffle_within_pass (take n rs) st p Hp) as [_ Hpl].
      * rewrite Heff. constructor.
      * rewrite Heff, length_take. cbn. lia.
      * unfold ShuffleStrategy.effective_played. rewrite Hpl.
        -- rewrite Heff. cbn. rewrite length_fmap, shuffle_calls_length, length_take.
           destruct (Nat.leb_spec n (n `min` length rs)); [done|lia].
        -- intros Hnil. apply (f_equal length) in Hnil.
           rewrite length_take in Hnil. cbn in Hnil. lia.
Qed.
End ShuffleRuns.

(** The entries returned are those under the picked cursors. *)
Lemma shuffle_outs_of_picks (p : Playlist) (rs : list nat) (st : ShuffleStrategy.t) :
  1 < length (videos p) -> loop_enabled p = true ->
  (ShuffleStrategy.calls rs st p).*2 =
    (fun i => videos p !! i) <$> (ShuffleStrategy.calls rs st p).*1.
Proof.
  intros Hlen Hloop.
  pose proof (shuffle_calls_wf p Hlen Hloop rs st p (conj eq_refl eq_refl)) as Hwf.
  induction Hwf as [|[c o] l [_ Ho] _ IH]; [done|].
  cbn in *. by rewrite Ho, IH.
Qed.

(** C3. On a looping playlist of [N > 1] videos, whatever the random
    generator draws, successive calls of the shuffle strategy's
    [get_next_video] (from a fresh or reset strategy) each return the entry
    at the index they pick; inside every pass of [N] calls the picked
    indices are pairwise different; and no call picks the index of the
    call just before it. When the entries of the list are pairwise
    different the same holds of the returned entries. *)
Theorem shuffle_next_never_repeats (p : Playlist) (rs : list nat) :
  1 < length (videos p) -> loop_enabled p = true ->
  let n := length (videos p) in
  let trace := ShuffleStrategy.calls rs ShuffleStrategy.init p in
  Forall (fun co => co.1 < n /\ co.2 = videos p !! co.1 /\ is_Some co.2) trace
  /\ (forall j, NoDup (take n (drop (j * n) trace.*1)))
  /\ no_adjacent_repeat trace.*1
  /\ (NoDup (videos p) ->
      (forall j, NoDup (take n (drop (j * n) trace.*2)))
      /\ no_adjacent_repeat trace.*2).
Proof.
  intros Hlen Hloop n trace.
  assert (Hsame : PlaylistOps.same_list p p) by done.
  pose proof (shuffle_calls_wf p Hlen Hloop rs ShuffleStrategy.init p Hsame) as Hwf.
  assert (Hpass : forall j, NoDup (take n (drop (j * n) trace.*1))).
  { intros j. apply (shuffle_passes p Hlen Hloop); [done|].
    unfold ShuffleStrategy.effective_played. by destruct (Nat.leb _ _). }
  assert (Hadj : no_adjacent_repeat trace.*1).
  { apply (shuffle_no_adjacent p Hlen Hloop rs ShuffleStrategy.init p Hsame).
    intros l Hl. discriminate Hl. }
  assert (Hlt : Forall (fun i => i < n) trace.*1).
  { apply Forall_fmap. eapply Forall_impl; [exact Hwf|]. by intros co [? _]. }
  split.
  { eapply Forall_impl; [exact Hwf|]. intros [c o] [Hc Ho]. cbn in *.
    repeat split; try done. rewrite Ho. by apply lookup_lt_is_Some. }
  split; [exact Hpass|]. split; [exact Hadj|].
  intros Hnd.
  assert (Hinj : forall i k, i < n -> k < n ->
            videos p !! i = videos p !! k -> i = k).
  { intros i k Hi Hk E.
    destruct (lookup_lt_is_Some_2 (videos p) i Hi) as [x Hx].
    rewrite Hx in E. symmetry in E. by apply (NoDup_lookup (videos p) i k x). }
  unfold trace. rewrite shuffle_outs_of_picks by done. fold trace.
  split.
  - intros j. rewrite <- fmap_drop, <- fmap_take.
    apply NoDup_fmap_2_strong; [|apply Hpass].
    intros i k Hi Hk. apply Hinj.
    + apply subseteq_take, subseteq_drop in Hi.
      by apply (proj1 (Forall_forall _ _) Hlt).
    + apply subseteq_take, subseteq_drop in Hk.
      by apply (proj1 (Forall_forall _ _) Hlt).
  - intros i a b Ha Hb.
    apply list_lookup_fmap_Some in Ha as (x & -> & Hx).
    apply list_lookup_fmap_Some in Hb as (y & -> & Hy).
    intros E.
    apply (Hadj i x y Hx Hy). apply Hinj; [| |done].
    + apply (proj1 (Forall_forall _ _) Hlt). by eapply list_elem_of_lookup_2.
    + apply (proj1 (Forall_forall _ _) Hlt). by eapply list_elem_of_lookup_2.
Qed.

(** A run of seven draws on three videos. *)
Lemma shuffle_next_never_repeats_witness :
  let v (name : string) := {| file_path := name; filename := name;
    file_size := 1; format_extension := ".mp4"; is_valid := true;
    last_modified := None |} in
  let p := {| videos := [v "1.mp4"; v "2.mp4"; v "3.mp4"];
              current_index := 0; shuffle_enabled := true;
              loop_enabled := true |} in
  let rs := [4; 1; 0; 5; 3; 2; 7] in
  (ShuffleStrategy.calls rs ShuffleStrategy.init p).*1 = [1; 2; 0; 2; 1; 0; 2]
  /\ no_adjacent_repeat (ShuffleStrategy.calls rs ShuffleStrategy.init p).*1.
Proof.
  intros v p rs. split; [vm_compute; reflexivity|].
  apply (shuffle_next_never_repeats p rs); [cbn; lia|reflexivity].
Defined.

(** With a single entry every call returns it, so the repeat is
    immediate; with no entry nothing is returned. *)
Lemma shuffle_single_entry_repeats (r : nat) (st : ShuffleStrategy.t)
    (p : Playlist) (v : VideoInfo) :
  videos p = [v] ->
  ShuffleStrategy.get_next_video r st p =
    (st, PlaylistOps.set_current_index p 0, Some v).
Proof. intros E. unfold ShuffleStrategy.get_next_video. by rewrite E. Qed.

Lemma shuffle_empty_returns_nothing (r : nat) (st : ShuffleStrategy.t)
    (p : Playlist) :
  videos p = [] -> ShuffleStrategy.get_next_video r st p = (st, p, None).
Proof. intros E. unfold ShuffleStrategy.get_next_video. by rewrite E. Qed.

(** ** Removing one entry *)

Section Remove.
Import PlaylistOps.

(** The cursor [remove_video] leaves when it pops index [i]. *)
Lemma remove_from_found (path : string) (rest : list VideoInfo) :
  forall (k j : nat) (v : VideoInfo) (p : Playlist),
  rest !! j = Some v -> file_path v = path ->
  (forall j' w, j' < j -> rest !! j' = Some w -> file_path w <> path) ->
  PlaylistManager.remove_from path k rest p =
    (set_videos
       (set_current_index p
          (if Nat.ltb (k + j) (current_index p) then current_index p - 1
           else if Nat.eqb (k + j) (current_index p) then 0
           else current_index p))
       (delete (k + j) (videos p)),
     true).
Proof.
  induction rest as [|h t IH]; intros k j v p Hj Hv Hfirst; [done|].
  cbn [PlaylistManager.remove_from].
  destruct j as [|j].
  - cbn in Hj. injection Hj as ->.
    rewrite (proj2 (String.eqb_eq _ _) Hv), Nat.add_0_r. done.
  - destruct (String.eqb_spec (file_path h) path) as [Hh|Hh].
    + exfalso. apply (Hfirst 0 h); [lia|done|done].
    + replace (k + S j) with (S k + j) by lia.
      apply (IH (S k) j v p Hj Hv).
      intros j' w Hlt Hw. apply (Hfirst (S j') w); [lia|done].
Qed.

Lemma remove_from_absent (path : string) (rest : list VideoInfo) :
  forall (k : nat) (p : Playlist),
  (forall w, w ∈ rest -> file_path w <> path) ->
  PlaylistManager.remove_from path k rest p = (p, false).
Proof.
  induction rest as [|h t IH]; intros k p Hno; [done|].
  cbn [PlaylistManager.remove_from].
  destruct (String.eqb_spec (file_path h) path) as [Hh|Hh].
  - exfalso. apply (Hno h); [by left|done].
  - apply IH. intros w Hw. apply Hno. by right.
Qed.

(** The first entry with a given path, when there is one. *)
Lemma first_with_path (path : string) (l : list VideoInfo) :
  (exists v, v ∈ l /\ file_path v = path) ->
  exists i v, l !! i = Some v /\ file_path v = path
    /\ forall j w, j < i -> l !! j = Some w -> file_path w <> path.
Proof.
  induction l as [|h t IH]; intros (v & Hin & Hv).
  - by apply elem_of_nil in Hin.
  - destruct (decide (file_path h = path)) as [Hh|Hh].
    + exists 0, h. repeat split; try done. intros j w Hlt. lia.
    + apply elem_of_cons in Hin as [->|Hin]; [done|].
      destruct IH as (i & v' & Hi & Hv' & Hfirst); [by exists v|].
      exists (S i), v'. repeat split; try done.
      intros [|j] w Hlt Hw; cbn in Hw.
      * by injection Hw as <-.
      * apply (Hfirst j w); [lia|done].
Qed.
End Remove.

(** C9. When the entry [remove_video] removes (the first one with the
    given path) sits at index [i], the video list loses exactly that
    position, and the cursor goes down by one if [i] was below it, back to
    0 if [i] was the cursor, and stays if [i] was above it. The call
    reports success exactly when some entry has the given path, and a
    failed call changes nothing. *)
Theorem remove_video_adjusts_cursor (m : PlaylistManager.t) (path : string) :
  let p := PlaylistManager.playlist m in
  let c := current_index p in
  let m' := (PlaylistManager.remove_video m path).1 in
  let ok := (PlaylistManager.remove_video m path).2 in
  (forall i v,
     videos p !! i = Some v -> file_path v = path ->
     (forall j w, j < i -> videos p !! j = Some w -> file_path w <> path) ->
     ok = true
     /\ videos (PlaylistManager.playlist m') = delete i (videos p)
     /\ (i < c -> current_index (PlaylistManager.playlist m') = c - 1)
     /\ (i = c -> current_index (PlaylistManager.playlist m') = 0)
     /\ (c < i -> current_index (PlaylistManager.playlist m') = c)
     /\ shuffle_enabled (PlaylistManager.playlist m') = shuffle_enabled p
     /\ loop_enabled (PlaylistManager.playlist m') = loop_enabled p
     /\ PlaylistManager.shuffle_strategy m' = PlaylistManager.shuffle_strategy m
     /\ PlaylistManager.current_strategy m' = PlaylistManager.current_strategy m)
  /\ (ok = true <-> exists v, v ∈ videos p /\ file_path v = path)
  /\ (ok = false -> m' = m).
Proof.
  intros p c m' ok.
  assert (Hfound : forall i v,
    videos p !! i = Some v -> file_path v = path ->
    (forall j w, j < i -> videos p !! j = Some w -> file_path w <> path) ->
    PlaylistManager.remove_video m path =
      (PlaylistManager.with_playlist m
         (PlaylistOps.set_videos
            (PlaylistOps.set_current_index p
               (if Nat.ltb i c then c - 1 else if Nat.eqb i c then 0 else c))
            (delete i (videos p))), true)).
  { intros i v Hi Hv Hfirst. unfold PlaylistManager.remove_video. fold p.
    by rewrite (remove_from_found path (videos p) 0 i v p Hi Hv Hfirst). }
  assert (Habsent : (forall w, w ∈ videos p -> file_path w <> path) ->
    PlaylistManager.remove_video m path = (m, false)).
  { intros Hno. unfold PlaylistManager.remove_video. fold p.
    rewrite (remove_from_absent path (videos p) 0 p Hno). by destruct m. }
  split; [|split].
  - intros i v Hi Hv Hfirst. subst m' ok.
    rewrite (Hfound i v Hi Hv Hfirst).
    cbn [fst snd PlaylistManager.with_playlist PlaylistManager.playlist
         PlaylistManager.shuffle_strategy PlaylistManager.current_strategy
         PlaylistOps.set_videos PlaylistOps.set_current_index
         videos current_index shuffle_enabled loop_enabled].
    repeat split; try done.
    + intros Hlt. by rewrite (proj2 (Nat.ltb_lt _ _) Hlt).
    + intros ->. by rewrite Nat.ltb_irrefl, Nat.eqb_refl.
    + intros Hgt. destruct (Nat.ltb_spec i c); [lia|].
      destruct (Nat.eqb_spec i c); [lia|done].
  - split.
    + intros Hok.
      destruct (decide (Exists (fun w => file_path w = path) (videos p)))
        as [Hex|Hno].
      * apply Exists_exists in Hex. exact Hex.
      * subst ok. rewrite Habsent in Hok; [done|].
        intros w Hw Hpath. apply Hno, Exists_exists. by exists w.
    + intros Hex. apply first_with_path in Hex as (i & v & Hi & Hv & Hfirst).
      subst ok. by rewrite (Hfound i v Hi Hv Hfirst).
  - intros Hok.
    destruct (decide (Exists (fun w => file_path w = path) (videos p)))
      as [Hex|Hno].
    + apply Exists_exists, first_with_path in Hex as (i & v & Hi & Hv & Hfirst).
      subst ok. by rewrite (Hfound i v Hi Hv Hfirst) in Hok.
    + subst m'. rewrite Habsent; [done|].
      intros w Hw Hpath. apply Hno, Exists_exists. by exists w.
Qed.

(** ** Order on strings and sorting *)

Lemma str_le_iff (a b : string) : str_le a b <-> String_as_OT.lt a b \/ a = b.
Proof.
  unfold str_le, String.leb.
  destruct (String.compare a b) eqn:E.
  - apply String_as_OT.cmp_eq in E. split; [by right|done].
  - apply String_as_OT.cmp_lt in E. split; [by left|done].
  - split; [done|]. intros [Hlt| ->].
    + apply String_as_OT.cmp_lt in Hlt. unfold String_as_OT.cmp in Hlt. congruence.
    + assert (String_as_OT.cmp b b = Eq) as Hb by by apply String_as_OT.cmp_eq.
      unfold String_as_OT.cmp in Hb. congruence.
Qed.

Lemma str_le_trans (a b c : string) : str_le a b -> str_le b c -> str_le a c.
Proof.
  rewrite !str_le_iff. intros [Hab| ->] [Hbc| ->]; auto.
  left. by eapply String_as_OT.lt_trans.
Qed.

Lemma str_le_total (a b : string) : str_le a b \/ str_le b a.
Proof. apply String.leb_total. Qed.

Section SortFacts.
Context {A : Type} (key : A -> string).

Lemma insert_sorted_perm (x : A) (l : list A) :
  insert_sorted key x l ≡ₚ x :: l.
Proof.
  induction l as [|h t IH]; cbn; [done|].
  destruct (String.leb (key x) (key h)); [done|].
  rewrite IH. apply Permutation_swap.
Qed.

Lemma sort_by_perm (l : list A) : sort_by key l ≡ₚ l.
Proof.
  induction l as [|x l IH]; cbn; [done|].
  fold (sort_by key l). by rewrite insert_sorted_perm, IH.
Qed.

Lemma insert_sorted_sorted (x : A) (l : list A) :
  sorted_by key l -> sorted_by key (insert_sorted key x l).
Proof.
  unfold sorted_by. induction 1 as [|h t Ht IH Hhd]; cbn.
  - by repeat constructor.
  - destruct (String.leb (key x) (key h)) eqn:E.
    + by repeat constructor.
    + constructor; [exact IH|].
      assert (Hhx : str_le (key h) (key x)).
      { destruct (str_le_total (key x) (key h)) as [Hle|Hle]; [|done].
        unfold str_le in Hle. congruence. }
      destruct t as [|h' t']; cbn.
      * by constructor.
      * destruct (String.leb (key x) (key h')); constructor; [done|].
        by inversion Hhd.
Qed.

Lemma sort_by_sorted (l : list A) : sorted_by key (sort_by key l).
Proof.
  induction l as [|x l IH]; cbn; [constructor|].
  by apply insert_sorted_sorted.
Qed.

Lemma sorted_by_strongly (l : list A) :
  sorted_by key l <-> StronglySorted (fun a b => str_le (key a) (key b)) l.
Proof.
  split; [|apply StronglySorted_Sorted].
  apply Sorted_StronglySorted. intros a b c. apply str_le_trans.
Qed.

Lemma sorted_by_delete (i : nat) (l : list A) :
  sorted_by key l -> sorted_by key (delete i l).
Proof.
  rewrite !sorted_by_strongly. intros Hs. revert i.
  induction Hs as [|x l Hs IH Hall]; intros [|i]; cbn;
    try done; try constructor.
  - apply IH.
  - by apply Forall_delete.
Qed.
End SortFacts.

Lemma remove_video_adjusts_cursor_witness :
  let w := sample_world [sample_file "1.mp4" ".mp4" 10;
                         sample_file "2.mp4" ".mp4" 10;
                         sample_file "3.mp4" ".mp4" 10] in
  let m := PlaylistManager.run sample_config
             [PlaylistManager.OpLoad w None;
              PlaylistManager.OpNext 0; PlaylistManager.OpNext 0] in
  current_index (PlaylistManager.playlist m) = 2
  /\ current_index
       (PlaylistManager.playlist
          (PlaylistManager.remove_video m "/videos/2.mp4").1) = 2 - 1.
Proof.
  intros w m. split; [vm_compute; reflexivity|].
  refine (proj1 (proj2 (proj2
    (proj1 (remove_video_adjusts_cursor m "/videos/2.mp4") 1
       (video_info_of (sample_file "2.mp4" ".mp4" 10)) _ _ _))) _).
  - vm_compute. reflexivity.
  - reflexivity.
  - intros [|j] x Hlt Hx; [|lia].
    vm_compute in Hx. injection Hx as <-. discriminate.
  - vm_compute. lia.
Defined.

(** ** Reloading *)

Section Reload.
Import PlaylistOps.

Lemma reset_current_strategy_spec (m : PlaylistManager.t) :
  let m' := PlaylistManager.reset_current_strategy m in
  PlaylistManager.playlist m' = set_current_index (PlaylistManager.playlist m) 0
  /\ PlaylistManager.config m' = PlaylistManager.config m
  /\ PlaylistManager.current_strategy m' = PlaylistManager.current_strategy m
  /\ PlaylistManager.shuffle_strategy m' =
       match PlaylistManager.current_strategy m with
       | PlaylistManager.Shuffle => ShuffleStrategy.init
       | PlaylistManager.Sequential => PlaylistManager.shuffle_strategy m
       end.
Proof.
  unfold PlaylistManager.reset_current_strategy.
  destruct m as [c p st []]; cbn; done.
Qed.

Lemma load_listing (w : World) (m : PlaylistManager.t)
    (directory_path : option string) (files : list FileEntry) :
  fs_dir w (default (video_dir (PlaylistManager.config m)) directory_path)
    = DirListing files ->
  (PlaylistManager.load_videos_from_directory w m directory_path).1 =
    PlaylistManager.reset_current_strategy
      (PlaylistManager.with_playlist m
         (set_current_index
            (set_videos (PlaylistManager.playlist m)
               (sort_by (fun v => lower (filename v))
                  (PlaylistManager.collect_videos (PlaylistManager.config m) files)))
            0)).
Proof.
  intros Hdir. unfold PlaylistManager.load_videos_from_directory.
  by rewrite Hdir.
Qed.

Lemma load_listing_videos (w : World) (m : PlaylistManager.t)
    (directory_path : option string) (files : list FileEntry) :
  fs_dir w (default (video_dir (PlaylistManager.config m)) directory_path)
    = DirListing files ->
  videos (PlaylistManager.playlist
            (PlaylistManager.load_videos_from_directory w m directory_path).1)
  = sort_by (fun v => lower (filename v))
      (PlaylistManager.collect_videos (PlaylistManager.config m) files).
Proof.
  intros Hdir. rewrite (load_listing w m directory_path files Hdir).
  match goal with |- context [PlaylistManager.reset_current_strategy ?x] =>
    destruct (reset_current_strategy_spec x) as (-> & _) end.
  reflexivity.
Qed.

(** A reload that cannot list the directory changes nothing. *)
Lemma load_without_listing (w : World) (m : PlaylistManager.t)
    (directory_path : option string) :
  (forall files,
     fs_dir w (default (video_dir (PlaylistManager.config m)) directory_path)
       <> DirListing files) ->
  PlaylistManager.load_videos_from_directory w m directory_path = (m, 0).
Proof.
  intros Hdir. unfold PlaylistManager.load_videos_from_directory.
  destruct (fs_dir w _) as [| | |files]; try done. by destruct (Hdir files).
Qed.
End Reload.

Lemma shuffle_state_kept_by_operation (m : PlaylistManager.t)
    (o : PlaylistManager.Op) :
  PlaylistManager.current_strategy m = PlaylistManager.Sequential ->
  o <> PlaylistManager.OpSetShuffle true ->
  PlaylistManager.current_strategy (PlaylistManager.apply m o)
    = PlaylistManager.Sequential
  /\ PlaylistManager.shuffle_strategy (PlaylistManager.apply m o)
     = PlaylistManager.shuffle_strategy m.
Proof.
  intros Hseq Ho.
  destruct o as [w d|r|[]| | |w build path|path|]; cbn [PlaylistManager.apply].
  - unfold PlaylistManager.load_videos_from_directory.
    destruct (fs_dir w _); cbn [fst]; try done.
    match goal with |- context [PlaylistManager.reset_current_strategy ?x] =>
      destruct (reset_current_strategy_spec x) as (_ & _ & -> & ->) end.
    cbn. by rewrite Hseq.
  - unfold PlaylistManager.get_next_video. rewrite Hseq.
    by destruct (SequentialStrategy.get_next_video _).
  - done.
  - unfold PlaylistManager.set_shuffle_mode.
    match goal with |- context [PlaylistManager.reset_current_strategy ?x] =>
      destruct (reset_current_strategy_spec x) as (_ & _ & -> & ->) end.
    done.
  - done.
  - unfold PlaylistManager.reset_playlist.
    destruct (reset_current_strategy_spec m) as (_ & _ & -> & ->).
    by rewrite Hseq.
  - unfold PlaylistManager.add_video.
    destruct (fs_file w path); [|done].
    destruct (bool_decide _); [|done]. by destruct (build _).
  - unfold PlaylistManager.remove_video.
    by destruct (PlaylistManager.remove_from _ _ _ _).
  - unfold PlaylistManager.clear_playlist.
    match goal with |- context [PlaylistManager.reset_current_strategy ?x] =>
      destruct (reset_current_strategy_spec x) as (_ & _ & -> & ->) end.
    cbn. by rewrite Hseq.
Qed.

Lemma shuffle_state_kept_through_run (ops : list PlaylistManager.Op) :
  forall m : PlaylistManager.t,
  PlaylistManager.current_strategy m = PlaylistManager.Sequential ->
  Forall (fun o => o <> PlaylistManager.OpSetShuffle true) ops ->
  PlaylistManager.current_strategy (foldl PlaylistManager.apply m ops)
    = PlaylistManager.Sequential
  /\ PlaylistManager.shuffle_strategy (foldl PlaylistManager.apply m ops)
     = PlaylistManager.shuffle_strategy m.
Proof.
  induction ops as [|o ops IH]; intros m Hseq Hops; [done|].
  inversion Hops as [|? ? Ho Hrest]; subst.
  destruct (shuffle_state_kept_by_operation m o Hseq Ho) as [Hc Hs].
  cbn [foldl]. destruct (IH _ Hc Hrest) as [Hc' Hs'].
  by rewrite Hc', Hs', Hs.
Qed.

Lemma set_shuffle_mode_on_clears (m : PlaylistManager.t) :
  PlaylistManager.shuffle_strategy (PlaylistManager.set_shuffle_mode m true)
    = ShuffleStrategy.init
  /\ PlaylistManager.current_strategy (PlaylistManager.set_shuffle_mode m true)
     = PlaylistManager.Shuffle.
Proof.
  unfold PlaylistManager.set_shuffle_mode.
  match goal with |- context [PlaylistManager.reset_current_strategy ?x] =>
    destruct (reset_current_strategy_spec x) as (_ & _ & -> & ->) end.
  done.
Qed.

(** C6 (as the code has it). A reload that can list the directory puts
    the cursor on 0, installs the sorted scan and resets the strategy in
    use: in shuffle mode the played indices and the last pick are cleared;
    in sequential mode the shuffle strategy is not the one in use and its
    state is left as it was. That state then stays as it is through
    every operation that does not switch shuffle mode on, and switching
    shuffle mode on clears it. *)
Theorem reload_resets_cursor_and_active_strategy (w : World)
    (m : PlaylistManager.t) (directory_path : option string)
    (files : list FileEntry) :
  fs_dir w (default (video_dir (PlaylistManager.config m)) directory_path)
    = DirListing files ->
  let m' := (PlaylistManager.load_videos_from_directory w m directory_path).1 in
  current_index (PlaylistManager.playlist m') = 0
  /\ videos (PlaylistManager.playlist m') =
       sort_by (fun v => lower (filename v))
         (PlaylistManager.collect_videos (PlaylistManager.config m) files)
  /\ PlaylistManager.current_strategy m' = PlaylistManager.current_strategy m
  /\ (PlaylistManager.current_strategy m = PlaylistManager.Shuffle ->
      PlaylistManager.shuffle_strategy m' = ShuffleStrategy.init)
  /\ (PlaylistManager.current_strategy m = PlaylistManager.Sequential ->
      PlaylistManager.shuffle_strategy m' = PlaylistManager.shuffle_strategy m
      /\ forall ops : list PlaylistManager.Op,
           Forall (fun o => o <> PlaylistManager.OpSetShuffle true) ops ->
           let m'' := foldl PlaylistManager.apply m' ops in
           PlaylistManager.shuffle_strategy m''
             = PlaylistManager.shuffle_strategy m
           /\ PlaylistManager.shuffle_strategy
                (PlaylistManager.set_shuffle_mode m'' true)
              = ShuffleStrategy.init)
  /\ PlaylistManager.shuffle_strategy (PlaylistManager.set_shuffle_mode m' true)
     = ShuffleStrategy.init.
Proof.
  intros Hdir m'.
  assert (Hm' : current_index (PlaylistManager.playlist m') = 0
    /\ videos (PlaylistManager.playlist m') =
         sort_by (fun v => lower (filename v))
           (PlaylistManager.collect_videos (PlaylistManager.config m) files)
    /\ PlaylistManager.current_strategy m' = PlaylistManager.current_strategy m
    /\ PlaylistManager.shuffle_strategy m' =
         match PlaylistManager.current_strategy m with
         | PlaylistManager.Shuffle => ShuffleStrategy.init
         | PlaylistManager.Sequential => PlaylistManager.shuffle_strategy m
         end).
  { subst m'. rewrite (load_listing w m directory_path files Hdir).
    match goal with |- context [PlaylistManager.reset_current_strategy ?x] =>
      destruct (reset_current_strategy_spec x) as (Hp & _ & Hc & Hs) end.
    by rewrite Hp, Hc, Hs. }
  destruct Hm' as (Hi & Hv & Hc & Hs).
  split; [exact Hi|]. split; [exact Hv|]. split; [exact Hc|].
  split; [by intros Hm; rewrite Hs, Hm|].
  split; [|apply set_shuffle_mode_on_clears].
  intros Hm. rewrite Hm in Hs, Hc. split; [exact Hs|].
  intros ops Hops m''.
  destruct (shuffle_state_kept_through_run ops m' Hc Hops) as [_ Hk].
  split; [subst m''; by rewrite Hk, Hs|apply set_shuffle_mode_on_clears].
Qed.

Lemma reload_resets_cursor_and_active_strategy_witness :
  let w := sample_world [sample_file "b.mp4" ".mp4" 10;
                         sample_file "a.mp4" ".mp4" 10] in
  let m := PlaylistManager.run sample_config
             [PlaylistManager.OpLoad w None;
              PlaylistManager.OpSetShuffle true; PlaylistManager.OpNext 0] in
  PlaylistManager.shuffle_strategy m <> ShuffleStrategy.init
  /\ PlaylistManager.shuffle_strategy
       (PlaylistManager.load_videos_from_directory w m None).1
     = ShuffleStrategy.init.
Proof.
  intros w m. split; [vm_compute; discriminate|].
  apply (reload_resets_cursor_and_active_strategy w m None
           [sample_file "b.mp4" ".mp4" 10; sample_file "a.mp4" ".mp4" 10]);
    reflexivity.
Defined.

(** The sequential case at work: the pick made before the reload is
    still in the shuffle strategy after it and after a further pick, and
    is gone once shuffle mode is switched on again. *)
Example reload_then_shuffle_on_clears :
  let w := sample_world [sample_file "b.mp4" ".mp4" 10;
                         sample_file "a.mp4" ".mp4" 10] in
  let m := PlaylistManager.run sample_config
             [PlaylistManager.OpLoad w None;
              PlaylistManager.OpSetShuffle true; PlaylistManager.OpNext 0;
              PlaylistManager.OpSetShuffle false] in
  let m'' := foldl PlaylistManager.apply m
               [PlaylistManager.OpLoad w None; PlaylistManager.OpNext 0] in
  PlaylistManager.shuffle_strategy m'' = PlaylistManager.shuffle_strategy m
  /\ PlaylistManager.shuffle_strategy m'' <> ShuffleStrategy.init
  /\ PlaylistManager.shuffle_strategy (PlaylistManager.set_shuffle_mode m'' true)
     = ShuffleStrategy.init.
Proof. vm_compute. repeat split; discriminate. Qed.

(** C6 as stated fails: a manager back in sequential mode after a shuffle
    pick keeps that pick in the shuffle strategy through a reload. *)
Lemma reload_in_sequential_mode_keeps_shuffle_state :
  ~ (forall (c : SystemConfig) (ops : list PlaylistManager.Op) (w : World)
            (directory_path : option string) (files : list FileEntry),
       let m := PlaylistManager.run c ops in
       fs_dir w (default (video_dir (PlaylistManager.config m)) directory_path)
         = DirListing files ->
       let m' := (PlaylistManager.load_videos_from_directory w m directory_path).1 in
       current_index (PlaylistManager.playlist m') = 0
       /\ PlaylistManager.shuffle_strategy m' = ShuffleStrategy.init).
Proof.
  intros H.
  pose (files := [sample_file "b.mp4" ".mp4" 10; sample_file "a.mp4" ".mp4" 10]).
  specialize (H sample_config
    [PlaylistManager.OpLoad (sample_world files) None;
     PlaylistManager.OpSetShuffle true; PlaylistManager.OpNext 0;
     PlaylistManager.OpSetShuffle false]
    (sample_world files) None files eq_refl).
  destruct H as [_ H]. vm_compute in H. discriminate H.
Qed.

(** ** Order of the video list *)

Section Order.
Import PlaylistOps.

Lemma sequential_next_videos (p : Playlist) :
  videos (SequentialStrategy.get_next_video p).1 = videos p.
Proof.
  unfold SequentialStrategy.get_next_video.
  destruct (videos p) eqn:E; [exact E|].
  destruct (_ && _); exact E.
Qed.

Lemma shuffle_next_videos (r : nat) (st : ShuffleStrategy.t) (p : Playlist) :
  videos (ShuffleStrategy.get_next_video r st p).1.2 = videos p.
Proof.
  unfold ShuffleStrategy.get_next_video.
  destruct (videos p) as [|v1 [|v2 vs]] eqn:E; cbn [fst snd]; try exact E.
  destruct (_ && _); [exact E|].
  destruct (ShuffleStrategy.candidates _ _); exact E.
Qed.

Lemma remove_from_videos (path : string) (rest : list VideoInfo) :
  forall (k : nat) (p : Playlist),
  videos (PlaylistManager.remove_from path k rest p).1 = videos p
  \/ exists i, videos (PlaylistManager.remove_from path k rest p).1
               = delete i (videos p).
Proof.
  induction rest as [|h t IH]; intros k p; cbn; [by left|].
  destruct (String.eqb (file_path h) path); [right; by eexists|apply IH].
Qed.

(** What an operation other than [add_video] can do to the list. *)
Lemma apply_videos (m : PlaylistManager.t) (o : PlaylistManager.Op) :
  PlaylistManager.is_add o = false ->
  let vs := videos (PlaylistManager.playlist m) in
  let vs' := videos (PlaylistManager.playlist (PlaylistManager.apply m o)) in
  vs' = vs
  \/ (exists l, vs' = sort_by (fun v => lower (filename v)) l)
  \/ (exists i, vs' = delete i vs).
Proof.
  intros Hadd vs vs'. subst vs vs'.
  destruct o as [w d|r|b|b| |w build path|path| ]; cbn [PlaylistManager.apply];
    try discriminate Hadd.
  - unfold PlaylistManager.load_videos_from_directory.
    destruct (fs_dir w _); cbn [fst]; try by left.
    right; left. eexists.
    match goal with |- context [PlaylistManager.reset_current_strategy ?x] =>
      destruct (reset_current_strategy_spec x) as (-> & _) end.
    reflexivity.
  - left. unfold PlaylistManager.get_next_video.
    destruct (PlaylistManager.current_strategy m).
    + pose proof (sequential_next_videos (PlaylistManager.playlist m)) as H.
      destruct (SequentialStrategy.get_next_video _) as [p out]. exact H.
    + pose proof (shuffle_next_videos r (PlaylistManager.shuffle_strategy m)
                    (PlaylistManager.playlist m)) as H.
      destruct (ShuffleStrategy.get_next_video _ _ _) as [[st p] out]. exact H.
  - left. unfold PlaylistManager.set_shuffle_mode.
    match goal with |- context [PlaylistManager.reset_current_strategy ?x] =>
      destruct (reset_current_strategy_spec x) as (-> & _) end.
    reflexivity.
  - by left.
  - left. unfold PlaylistManager.reset_playlist.
    destruct (reset_current_strategy_spec m) as (-> & _). reflexivity.
  - unfold PlaylistManager.remove_video.
    pose proof (remove_from_videos path (videos (PlaylistManager.playlist m))
                  0 (PlaylistManager.playlist m)) as H.
    destruct (PlaylistManager.remove_from _ _ _ _) as [p ok].
    cbn in *. destruct H as [H|H]; [by left|by right; right].
  - right; left. exists []. unfold PlaylistManager.clear_playlist.
    match goal with |- context [PlaylistManager.reset_current_strategy ?x] =>
      destruct (reset_current_strategy_spec x) as (-> & _) end.
    reflexivity.
Qed.
End Order.

Lemma apply_sorted_without_add (m : PlaylistManager.t) (o : PlaylistManager.Op) :
  PlaylistManager.is_add o = false ->
  PlaylistManager.sorted m ->
  PlaylistManager.sorted (PlaylistManager.apply m o).
Proof.
  intros Hadd Hs. unfold PlaylistManager.sorted in *.
  destruct (apply_videos m o Hadd) as [->|[[l ->]|[i ->]]].
  - exact Hs.
  - apply sort_by_sorted.
  - by apply sorted_by_delete.
Qed.

Lemma add_video_refused (w : World) (build : Construction)
    (m : PlaylistManager.t) (video_path : string) :
  (forall f, build f = None) ->
  PlaylistManager.add_video w build m video_path = (m, false).
Proof.
  intros Hb. unfold PlaylistManager.add_video.
  destruct (fs_file w video_path) as [f|]; [|done].
  destruct (bool_decide _); [|done]. by rewrite Hb.
Qed.

(** C8. The video list is always in case-insensitive filename order:
    every directory load that can list the directory leaves it so, and
    every operation of the manager keeps a list in that order so, hence
    every manager obtained from a new one by any sequence of operations
    is in order. For [add_video] this holds because its constructor call
    passes the path alone and is rejected for the missing fields: the
    call returns False and the manager is as it was. *)
Theorem playlist_always_sorted :
  (forall (w : World) (m : PlaylistManager.t) (directory_path : option string)
          (files : list FileEntry),
     fs_dir w (default (video_dir (PlaylistManager.config m)) directory_path)
       = DirListing files ->
     PlaylistManager.sorted
       (PlaylistManager.load_videos_from_directory w m directory_path).1)
  /\ (forall (m : PlaylistManager.t) (o : PlaylistManager.Op),
        PlaylistManager.as_written o ->
        PlaylistManager.sorted m ->
        PlaylistManager.sorted (PlaylistManager.apply m o))
  /\ (forall (c : SystemConfig) (ops : list PlaylistManager.Op),
        Forall PlaylistManager.as_written ops ->
        PlaylistManager.sorted (PlaylistManager.run c ops))
  /\ (forall (w : World) (m : PlaylistManager.t) (video_path : string),
        PlaylistManager.add_video w (new_video_info path_alone) m video_path
        = (m, false)).
Proof.
  assert (Hstep : forall (m : PlaylistManager.t) (o : PlaylistManager.Op),
            PlaylistManager.as_written o ->
            PlaylistManager.sorted m ->
            PlaylistManager.sorted (PlaylistManager.apply m o)).
  { intros m o Hw Hs.
    destruct (PlaylistManager.is_add o) eqn:Hadd;
      [|by apply apply_sorted_without_add].
    destruct o as [| | | | |w build path| |]; try discriminate Hadd.
    cbn [PlaylistManager.apply].
    rewrite add_video_refused; [exact Hs|].
    intros f. by rewrite (Hw f). }
  split; [|split; [exact Hstep|split]].
  - intros w m dp files Hdir. unfold PlaylistManager.sorted.
    rewrite (load_listing_videos w m dp files Hdir).
    apply sort_by_sorted.
  - intros c ops Hops. unfold PlaylistManager.run.
    assert (Hinit : PlaylistManager.sorted (PlaylistManager.init c))
      by constructor.
    revert Hinit. generalize (PlaylistManager.init c).
    induction Hops as [|o ops Ho _ IH]; intros m Hm; [exact Hm|].
    cbn. apply IH. by apply Hstep.
  - intros w m path. by apply add_video_refused.
Qed.

Lemma playlist_always_sorted_witness :
  let w := sample_world [sample_file "b.mp4" ".mp4" 10;
                         sample_file "C.mp4" ".mp4" 10;
                         sample_file "a.mp4" ".mp4" 10] in
  let ops := [PlaylistManager.OpLoad w None; PlaylistManager.OpNext 0;
              PlaylistManager.OpRemove "/videos/b.mp4";
              PlaylistManager.OpAdd w (new_video_info path_alone)
                "/videos/b.mp4"] in
  filename <$> videos (PlaylistManager.playlist
                         (PlaylistManager.run sample_config ops))
    = ["a.mp4"; "C.mp4"]
  /\ PlaylistManager.sorted (PlaylistManager.run sample_config ops).
Proof.
  intros w ops. split; [vm_compute; reflexivity|].
  apply (proj1 (proj2 (proj2 playlist_always_sorted))).
  repeat constructor.
Defined.

(** ** Which files a scan keeps *)

Lemma exists_elem_of_cons {A} (P : A -> Prop) (h : A) (t : list A) :
  (exists g, g ∈ h :: t /\ P g) <-> P h \/ exists g, g ∈ t /\ P g.
Proof.
  split.
  - intros (g & Hg & HP). apply elem_of_cons in Hg as [->|Hg]; eauto.
  - intros [HP|(g & Hg & HP)]; [exists h|exists g];
      (split; [|done]); [by left|by right].
Qed.

(** A file the loop passes over: the head satisfies none of the tests. *)
Ltac skipped_file :=
  split; [by right|]; intros [H|H]; [exfalso|exact H].

Section Scans.
Variable c : SystemConfig.

Lemma elem_of_collect_videos (files : list FileEntry) (v : VideoInfo) :
  v ∈ PlaylistManager.collect_videos c files <->
  exists g, g ∈ files /\ v = video_info_of g
    /\ fe_is_file g = true
    /\ lower (fe_suffix g) ∈ supported_formats c
    /\ is_Some (fe_stat g).
Proof.
  induction files as [|h t IH]; cbn.
  - split; [intros H; by apply elem_of_nil in H|].
    intros (g & Hg & _). by apply elem_of_nil in Hg.
  - rewrite exists_elem_of_cons, <- IH. clear IH.
    unfold PlaylistManager.is_supported_file.
    destruct (fe_is_file h) eqn:Hf; cbn [andb].
    2: { skipped_file. destruct H as (_ & H & _). discriminate H. }
    destruct (bool_decide (lower (fe_suffix h) ∈ supported_formats c)) eqn:Hs;
      [apply bool_decide_eq_true in Hs|apply bool_decide_eq_false in Hs].
    2: { skipped_file. destruct H as (_ & _ & H & _). done. }
    destruct (fe_stat h) as [s|] eqn:Hst.
    2: { skipped_file. destruct H as (_ & _ & _ & [s H]). discriminate H. }
    rewrite elem_of_cons. split.
    + intros [->|H]; [left|by right]. repeat split; first [done|by exists s].
    + intros [(-> & _)|H]; [by left|by right].
Qed.

Lemma elem_of_collect_paths (files : list FileEntry) (x : string) :
  x ∈ VideoScanner.collect_paths c files <->
  exists g, g ∈ files /\ x = fe_path g
    /\ fe_is_file g = true
    /\ lower (fe_suffix g) ∈ supported_formats c
    /\ exists s, fe_stat g = Some s /\ (0 < st_size s)%Z.
Proof.
  induction files as [|h t IH]; cbn.
  - split; [intros H; by apply elem_of_nil in H|].
    intros (g & Hg & _). by apply elem_of_nil in Hg.
  - rewrite exists_elem_of_cons, <- IH. clear IH.
    destruct (fe_is_file h) eqn:Hf; cbn [andb].
    2: { skipped_file. destruct H as (_ & H & _). discriminate H. }
    destruct (bool_decide (lower (fe_suffix h) ∈ supported_formats c)) eqn:Hs;
      [apply bool_decide_eq_true in Hs|apply bool_decide_eq_false in Hs].
    2: { skipped_file. destruct H as (_ & _ & H & _). done. }
    destruct (fe_stat h) as [s|] eqn:Hst.
    2: { skipped_file. destruct H as (_ & _ & _ & s & H & _). discriminate H. }
    destruct (Z.ltb_spec 0 (st_size s)) as [Hpos|Hzero].
    2: { skipped_file. destruct H as (_ & _ & _ & s' & [= <-] & H). lia. }
    rewrite elem_of_cons. split.
    + intros [->|H]; [left|by right]. repeat split; first [done|by exists s].
    + intros [(-> & _)|H]; [by left|by right].
Qed.
End Scans.

Lemma same_path_same_file (files : list FileEntry) (f g : FileEntry) :
  NoDup (fe_path <$> files) -> f ∈ files -> g ∈ files ->
  fe_path f = fe_path g -> f = g.
Proof.
  intros Hnd Hf Hg E.
  apply list_elem_of_lookup in Hf as [i Hi].
  apply list_elem_of_lookup in Hg as [j Hj].
  assert (i = j) as ->.
  { apply (NoDup_lookup _ i j (fe_path f) Hnd).
    - by rewrite list_lookup_fmap, Hi.
    - by rewrite list_lookup_fmap, Hj, E. }
  congruence.
Qed.

(** C7 (as the code has it). When the directory can be listed, a regular
    file of it whose metadata can be read is in the playlist loader's
    result if and only if its lower-cased extension is a supported
    format, whatever its size; it is in the reconciler's scan (the list
    returned and the cache) if and only if its lower-cased extension is a
    supported format and its size is positive. *)
Theorem scans_keep_supported_files (w : World) (m : PlaylistManager.t)
    (sc : VideoScanner.t) (directory_path : option string)
    (files : list FileEntry) (f : FileEntry) (s : Stat) :
  fs_dir w (default (video_dir (PlaylistManager.config m)) directory_path)
    = DirListing files ->
  fs_dir w (default (video_dir (VideoScanner.config sc)) directory_path)
    = DirListing files ->
  NoDup (fe_path <$> files) ->
  f ∈ files -> fe_is_file f = true -> fe_stat f = Some s ->
  (video_info_of f ∈
     videos (PlaylistManager.playlist
               (PlaylistManager.load_videos_from_directory w m directory_path).1)
   <-> lower (fe_suffix f) ∈ supported_formats (PlaylistManager.config m))
  /\ (fe_path f ∈ (VideoScanner.scan_videos w sc directory_path).2
      <-> lower (fe_suffix f) ∈ supported_formats (VideoScanner.config sc)
          /\ (0 < st_size s)%Z)
  /\ (fe_path f ∈
        VideoScanner.cached_videos (VideoScanner.scan_videos w sc directory_path).1
      <-> lower (fe_suffix f) ∈ supported_formats (VideoScanner.config sc)
          /\ (0 < st_size s)%Z).
Proof.
  intros Hdm Hds Hnd Hf Hfile Hstat.
  assert (Hscan : forall l : list string,
    l ≡ₚ VideoScanner.collect_paths (VideoScanner.config sc) files ->
    fe_path f ∈ l
    <-> lower (fe_suffix f) ∈ supported_formats (VideoScanner.config sc)
        /\ (0 < st_size s)%Z).
  { intros l ->. rewrite elem_of_collect_paths. split.
    - intros (g & Hg & Hpath & _ & Hsuf & s' & Hs' & Hpos).
      assert (f = g) as <- by by apply (same_path_same_file files).
      rewrite Hstat in Hs'. injection Hs' as <-. done.
    - intros [Hsuf Hpos]. exists f. repeat split; try done. by exists s. }
  split; [|split].
  - rewrite (load_listing_videos w m directory_path files Hdm).
    rewrite sort_by_perm, elem_of_collect_videos. split.
    + intros (g & Hg & Hv & _ & Hsuf & _).
      assert (f = g) as <-; [|done].
      apply (same_path_same_file files); try done.
      by apply (f_equal file_path) in Hv.
    + intros Hsuf. exists f. repeat split; first [done|by rewrite Hstat].
  - unfold VideoScanner.scan_videos. rewrite Hds. cbn [snd].
    apply Hscan, sort_by_perm.
  - unfold VideoScanner.scan_videos. rewrite Hds. cbn [fst VideoScanner.cached_videos].
    rewrite elem_of_list_to_set. apply Hscan, sort_by_perm.
Qed.

Lemma scans_keep_supported_files_witness :
  let big := sample_file "clip.MP4" ".MP4" 10 in
  let files := [big; sample_file "empty.mp4" ".mp4" 0;
                sample_file "notes.txt" ".txt" 10] in
  let w := sample_world files in
  video_info_of big ∈
    videos (PlaylistManager.playlist
              (PlaylistManager.load_videos_from_directory w
                 (PlaylistManager.init sample_config) None).1)
  /\ fe_path big ∈
       (VideoScanner.scan_videos w (VideoScanner.init sample_config) None).2.
Proof.
  intros big files w.
  destruct (scans_keep_supported_files w (PlaylistManager.init sample_config)
              (VideoScanner.init sample_config) None files big
              {| st_size := 10; st_mtime := 0 |})
    as (Hload & Hscan & _); try reflexivity.
  - compute_done.
  - by left.
  - split; [apply Hload|apply Hscan]; cbn.
    + compute_done.
    + split; [compute_done|lia].
Defined.

(** C7 as stated fails for the reconciler's scan: an empty file with a
    supported extension is left out. *)
Lemma scan_videos_leaves_out_empty_files :
  ~ (forall (w : World) (sc : VideoScanner.t) (directory_path : option string)
            (files : list FileEntry) (f : FileEntry),
       fs_dir w (default (video_dir (VideoScanner.config sc)) directory_path)
         = DirListing files ->
       NoDup (fe_path <$> files) ->
       f ∈ files -> fe_is_file f = true -> is_Some (fe_stat f) ->
       (fe_path f ∈ (VideoScanner.scan_videos w sc directory_path).2
        <-> lower (fe_suffix f) ∈ supported_formats (VideoScanner.config sc))).
Proof.
  intros H.
  pose (f := sample_file "empty.mp4" ".mp4" 0).
  specialize (H (sample_world [f]) (VideoScanner.init sample_config) None [f] f
                eq_refl).
  destruct H as [_ H].
  - apply NoDup_singleton.
  - by left.
  - reflexivity.
  - by eexists.
  - assert (Hin : fe_path f ∈
      (VideoScanner.scan_videos (sample_world [f])
         (VideoScanner.init sample_config) None).2).
    { apply H. compute_done. }
    vm_compute in Hin. by apply elem_of_nil in Hin.
Qed.

(** ** The reconciler *)

(** After a scan that listed the directory, the cache is the scan just
    made, so the comparison finds nothing and the callback is not
    called. *)
Lemma handle_file_change_silent_after_listing (w : World)
    (sc : VideoScanner.t) (ev : EventType) (files : list FileEntry) :
  fs_dir w (video_dir (VideoScanner.config sc)) = DirListing files ->
  (VideoScanner._handle_file_change w sc ev).2 = []
  /\ VideoScanner.cached_videos (VideoScanner._handle_file_change w sc ev).1
     = list_to_set (sort_by id
         (VideoScanner.collect_paths (VideoScanner.config sc) files)).
Proof.
  intros Hdir. unfold VideoScanner._handle_file_change, VideoScanner.scan_videos.
  cbn [default]. rewrite Hdir.
  cbn [fst snd VideoScanner.cached_videos VideoScanner.on_change_callback].
  rewrite difference_diag_L.
  rewrite (bool_decide_eq_true_2 (∅ = ∅)) by reflexivity.
  by rewrite andb_false_r.
Qed.

(** When the directory cannot be listed the scan gives nothing and leaves
    the cache alone, so everything cached is reported as removed. *)
Lemma handle_file_change_reports_lost_directory (w : World)
    (sc : VideoScanner.t) (ev : EventType) :
  (forall files, fs_dir w (video_dir (VideoScanner.config sc)) <> DirListing files) ->
  VideoScanner.on_change_callback sc = true ->
  VideoScanner.cached_videos sc <> ∅ ->
  (VideoScanner._handle_file_change w sc ev).2 =
    [ {| event_type := ev; added := ∅;
         removed := VideoScanner.cached_videos sc; total_videos := 0 |} ].
Proof.
  intros Hdir Hcb Hne.
  unfold VideoScanner._handle_file_change, VideoScanner.scan_videos. cbn [default].
  destruct (fs_dir w (video_dir (VideoScanner.config sc))) as [| | |files];
    [| | |by destruct (Hdir files)];
    cbn [fst snd list_to_set]; rewrite Hcb;
    rewrite empty_difference_L, difference_empty_L;
    rewrite (bool_decide_eq_true_2 (∅ = ∅)) by reflexivity;
    rewrite (bool_decide_eq_false_2 _ Hne); reflexivity.
Qed.

(** C1 (the code at the scenario). The cache holds [a.mp4] and [b.mp4], a
    callback is registered, and the directory now holds [b.mp4] and
    [c.mp4]: the handler calls the callback not once but never. The scan
    it runs stores its result in the cache before the comparison is made,
    so both differences are empty. *)
Theorem handle_file_change_misses_replaced_file :
  let a := sample_file "a.mp4" ".mp4" 10 in
  let b := sample_file "b.mp4" ".mp4" 10 in
  let c := sample_file "c.mp4" ".mp4" 10 in
  let before := sample_world [a; b] in
  let after := sample_world [b; c] in
  let sc0 :=
    (VideoScanner.start_monitoring before true
       (VideoScanner.init sample_config) true).1 in
  let sc := (VideoScanner.scan_videos before sc0 None).1 in
  VideoScanner.on_change_callback sc = true
  /\ VideoScanner.cached_videos sc = {[ fe_path a; fe_path b ]}
  /\ (VideoScanner._handle_file_change after sc Created).2 = []
  /\ VideoScanner.cached_videos
       (VideoScanner._handle_file_change after sc Created).1
     = {[ fe_path b; fe_path c ]}.
Proof.
  intros a b c before after sc0 sc.
  split; [reflexivity|]. split.
  { cbn. apply set_eq. intros x. set_solver. }
  destruct (handle_file_change_silent_after_listing after sc Created [b; c])
    as [Hsilent Hcache]; [reflexivity|].
  split; [exact Hsilent|]. rewrite Hcache. cbn.
  apply set_eq. intros x. set_solver.
Qed.

(** ** The orchestrator *)

(** C10. [start] on a system that is already running returns success at
    once: the system handed back is the one given (same components, same
    counters, same flags), no thread is started and nothing else is
    done. *)
Theorem start_while_running_changes_nothing (h : Host) (s : SignageSystem.t) :
  SignageSystem.running s = true ->
  SignageSystem.start h s = (s, true, []).
Proof. intros Hrun. unfold SignageSystem.start. by rewrite Hrun. Qed.

Lemma start_while_running_changes_nothing_witness :
  let files := [sample_file "1.mp4" ".mp4" 10; sample_file "2.mp4" ".mp4" 10] in
  let s := (SignageSystem.start (sample_host files)
              (SignageSystem.init sample_config)).1.1 in
  SignageSystem.running s = true
  /\ SignageSystem.start (sample_host []) s = (s, true, []).
Proof.
  intros files s.
  assert (Hrun : SignageSystem.running s = true) by reflexivity.
  split; [exact Hrun|].
  exact (start_while_running_changes_nothing (sample_host []) s Hrun).
Defined.

Section Counters.
Import SignageSystem.

Lemma counters_moved_refl (s : t) : counters_moved s s.
Proof. unfold counters_moved. repeat split; [lia|by right; left]. Qed.

Lemma refresh_playlist_counters (h : Host) (s : t) :
  let s' := (_refresh_playlist h s).1 in
  config s' = config s /\ error_count s' = error_count s
  /\ consecutive_errors s' = consecutive_errors s
  /\ running s' = running s /\ shutdown_event s' = shutdown_event s.
Proof. unfold _refresh_playlist. by destruct (playlist_manager s). Qed.

(** What the error handler does, in full. *)
Lemma handle_playback_error_spec (h : Host) (s : t) :
  let r := _handle_playback_error h s in
  config r.1 = config s
  /\ error_count r.1 = (error_count s + 1)%Z
  /\ ((max_retries (config s) <= consecutive_errors s + 1)%Z ->
      consecutive_errors r.1 = 0%Z
      /\ r.2 = [RefreshPlaylist; Wait (retry_delay (config s))]
      /\ playlist_manager r.1 =
           playlist_manager
             (_refresh_playlist h
                (with_counters s (error_count s + 1) (consecutive_errors s + 1))).1)
  /\ ((consecutive_errors s + 1 < max_retries (config s))%Z ->
      consecutive_errors r.1 = (consecutive_errors s + 1)%Z
      /\ r.2 = [Wait (retry_delay (config s))]
      /\ playlist_manager r.1 = playlist_manager s).
Proof.
  unfold _handle_playback_error.
  cbn [with_counters config consecutive_errors error_count].
  destruct (Z.leb_spec (max_retries (config s)) (consecutive_errors s + 1))
    as [Hmax|Hlt].
  - unfold _refresh_playlist. cbn [with_counters playlist_manager].
    destruct (playlist_manager s); cbn; repeat split; try done; lia.
  - cbn. repeat split; try done; lia.
Qed.

Lemma handle_playback_error_moved (h : Host) (s : t) :
  counters_moved s (_handle_playback_error h s).1.
Proof.
  destruct (handle_playback_error_spec h s) as (Hc & He & Hmax & Hlt).
  unfold counters_moved. split; [done|]. split; [lia|].
  destruct (Z.leb_spec (max_retries (config s)) (consecutive_errors s + 1))
    as [H|H].
  - left. by apply Hmax.
  - right; right. split; [by apply Hlt|done].
Qed.

Lemma initialize_counters (h : Host) (s : t) :
  let s' := (initialize h s).1 in
  config s' = config s /\ error_count s' = error_count s
  /\ consecutive_errors s' = consecutive_errors s.
Proof.
  unfold initialize.
  repeat match goal with |- context [if ?b then _ else _] => destruct b end;
    done.
Qed.

Lemma start_moved (h : Host) (s : t) : counters_moved s (start h s).1.1.
Proof.
  unfold start. destruct (running s); [apply counters_moved_refl|].
  pose proof (initialize_counters h s) as (Hc & He & Hn).
  destruct (initialize h s) as [s1 ok]. cbn in Hc, He, Hn.
  destruct ok; cbn [negb]; [destruct (thread_ok h)|]; cbn;
    unfold counters_moved; cbn; rewrite ?Hc, ?He, ?Hn;
    (repeat split; [lia|by right; left]).
Qed.

Lemma stop_moved (h : Host) (s : t) : counters_moved s (stop h s).
Proof.
  unfold stop. destruct (running s); cbn; [|apply counters_moved_refl].
  unfold counters_moved. cbn. repeat split; [lia|by right; left].
Qed.

Lemma main_loop_body_moved (h : Host) (r : nat) (s : t) :
  counters_moved s (main_loop_body h r s).1.
Proof.
  unfold main_loop_body.
  destruct (playlist_manager s) as [pm|]; [|apply handle_playback_error_moved].
  destruct (PlaylistManager.is_empty pm); [apply counters_moved_refl|].
  destruct (PlaylistManager.get_current_video pm) as [v|];
    [|apply counters_moved_refl].
  destruct (video_player s) as [pl|]; [|apply handle_playback_error_moved].
  destruct (play_ok h (file_path v)).
  - destruct (PlaylistManager.get_next_video r pm) as [pm' next].
    destruct next as [v'|];
      [|destruct (negb (loop_enabled (PlaylistManager.playlist pm')))];
      unfold counters_moved; cbn; repeat split; try lia; by left.
  - pose proof (handle_playback_error_moved h s) as H.
    destruct (_handle_playback_error h s) as [s1 tr]. exact H.
Qed.

Lemma step_moved (s : t) (a : Action) : counters_moved s (step s a).
Proof.
  destruct a as [h| |h r|h|h]; cbn [step].
  - apply start_moved.
  - apply stop_moved.
  - destruct (running s && negb (shutdown_event s));
      [apply main_loop_body_moved|apply counters_moved_refl].
  - apply handle_playback_error_moved.
  - destruct (refresh_playlist_counters h s) as (Hc & He & Hn & _).
    unfold _on_directory_change, counters_moved.
    rewrite Hc, He, Hn. repeat split; [lia|by right; left].
Qed.

Lemma counters_in_range_moved (c : SystemConfig) (s s' : t) :
  counters_in_range c s -> counters_moved s s' -> counters_in_range c s'.
Proof.
  intros (Hc & Hn & He) (Hc' & He' & Hn'). unfold counters_in_range.
  rewrite Hc' in *. rewrite Hc in *. split; [done|]. split; [|lia].
  destruct Hn' as [->|[->|[-> Hlt]]]; lia.
Qed.

(** The counters of every reachable state are in range. *)
Lemma reachable_counters_in_range (c : SystemConfig) (s : t) :
  valid_config c -> reachable c s -> counters_in_range c s.
Proof.
  intros (_ & _ & Hmax & _) [actions ->].
  assert (Hinit : counters_in_range c (init c)).
  { unfold counters_in_range. cbn. repeat split; lia. }
  revert Hinit. generalize (init c).
  induction actions as [|a actions IH]; intros s Hs; [exact Hs|].
  cbn. apply IH. eapply counters_in_range_moved; [exact Hs|apply step_moved].
Qed.

(** After any number of failures in a row the total has grown by that
    number and the consecutive count has wrapped around the maximum. *)
Lemma failures_counters (c : SystemConfig) (hs : list Host) : forall s,
  counters_in_range c s ->
  let s' := (failures hs s).1 in
  counters_in_range c s'
  /\ error_count s' = (error_count s + Z.of_nat (length hs))%Z
  /\ consecutive_errors s' =
       ((consecutive_errors s + Z.of_nat (length hs)) mod max_retries c)%Z.
Proof.
  induction hs as [|h hs IH]; intros s Hs.
  - cbn. destruct Hs as (Hc & Hn & He). repeat split; try done; try lia.
    rewrite Z.add_0_r, Z.mod_small; lia.
  - cbn [failures].
    pose proof (handle_playback_error_spec h s) as (Hc1 & He1 & Hmax & Hlt).
    pose proof (handle_playback_error_moved h s) as Hmv.
    destruct (_handle_playback_error h s) as [s1 tr1]. cbn [fst snd] in *.
    pose proof (counters_in_range_moved c s s1 Hs Hmv) as Hs1.
    specialize (IH s1 Hs1).
    destruct (failures hs s1) as [s2 tr2]. cbn [fst snd] in *.
    destruct IH as (Hs2 & He2 & Hn2). split; [exact Hs2|].
    destruct Hs as (Hc & Hn & He). rewrite Hc in *.
    split; [rewrite He2, He1; cbn [length]; lia|].
    rewrite Hn2. cbn [length].
    destruct (Z.leb_spec (max_retries c) (consecutive_errors s + 1)) as [H|H].
    + destruct (Hmax H) as (-> & _).
      replace (consecutive_errors s + Z.of_nat (S (length hs)))%Z
        with (Z.of_nat (length hs) + 1 * max_retries c)%Z by lia.
      by rewrite Z.mod_add by lia.
    + destruct (Hlt H) as (-> & _). f_equal. lia.
Qed.
End Counters.

(** C2. In every reachable state of a validly configured system the
    consecutive count is below [max_retries]. A failure handled by
    [_handle_playback_error] adds one to the total and to the consecutive
    count; when that brings the consecutive count to [max_retries] (it can
    never go past it) the playlist is reloaded and the consecutive count
    is set to 0, and otherwise no reload happens. The total is never
    reset: after any number of failures in a row it has grown by exactly
    that number while the consecutive count has wrapped around
    [max_retries]. *)
Theorem playback_errors_counted_and_bounded (c : SystemConfig)
    (s : SignageSystem.t) (h : Host) (hs : list Host) :
  valid_config c -> SignageSystem.reachable c s ->
  let r := SignageSystem._handle_playback_error h s in
  let n := SignageSystem.consecutive_errors s in
  (0 <= n < max_retries c)%Z
  /\ SignageSystem.error_count r.1 = (SignageSystem.error_count s + 1)%Z
  /\ ((n + 1)%Z = max_retries c ->
      SignageSystem.consecutive_errors r.1 = 0%Z
      /\ r.2 = [RefreshPlaylist; Wait (retry_delay c)]
      /\ SignageSystem.playlist_manager r.1 =
           SignageSystem.playlist_manager (SignageSystem._refresh_playlist h s).1)
  /\ ((n + 1 < max_retries c)%Z ->
      SignageSystem.consecutive_errors r.1 = (n + 1)%Z
      /\ r.2 = [Wait (retry_delay c)]
      /\ SignageSystem.playlist_manager r.1 = SignageSystem.playlist_manager s)
  /\ SignageSystem.reachable c r.1
  /\ SignageSystem.error_count (SignageSystem.failures hs s).1
     = (SignageSystem.error_count s + Z.of_nat (length hs))%Z
  /\ SignageSystem.consecutive_errors (SignageSystem.failures hs s).1
     = ((n + Z.of_nat (length hs)) mod max_retries c)%Z.
Proof.
  intros Hvalid Hreach r n.
  pose proof (reachable_counters_in_range c s Hvalid Hreach) as Hrange.
  destruct Hrange as (Hc & Hn & He).
  destruct (handle_playback_error_spec h s) as (_ & Herr & Hmax & Hlt).
  rewrite Hc in Hmax, Hlt. fold r in Herr, Hmax, Hlt. fold n in Hn, Hmax, Hlt.
  split; [exact Hn|]. split; [exact Herr|]. split; [|split; [|split]].
  - intros Heq. destruct Hmax as (H0 & Htr & Hpm); [lia|].
    repeat split; try done. rewrite Hpm.
    unfold SignageSystem._refresh_playlist. cbn.
    by destruct (SignageSystem.playlist_manager s).
  - exact Hlt.
  - destruct Hreach as [actions ->].
    exists (actions ++ [SignageSystem.DoVideoError h]).
    by rewrite foldl_app.
  - destruct (failures_counters c hs s) as (_ & Htot & Hcons); [done|].
    split; [exact Htot|exact Hcons].
Qed.

(** A system started on two files whose playback is rejected twice in a
    row ([max_retries] is 2): one reload, consecutive count back at 0,
    total 2. *)
Lemma playback_errors_counted_and_bounded_witness :
  let files := [sample_file "1.mp4" ".mp4" 10; sample_file "2.mp4" ".mp4" 10] in
  let h := failing_host files in
  let s := foldl SignageSystem.step (SignageSystem.init sample_config)
             [SignageSystem.DoStart h; SignageSystem.DoLoop h 0] in
  SignageSystem.consecutive_errors s = 1%Z
  /\ SignageSystem.consecutive_errors (SignageSystem._handle_playback_error h s).1 = 0%Z
  /\ (SignageSystem._handle_playback_error h s).2 = [RefreshPlaylist; Wait 1]
  /\ SignageSystem.error_count (SignageSystem._handle_playback_error h s).1 = (1 + 1)%Z.
Proof.
  intros files h s.
  assert (Hvalid : valid_config sample_config).
  { unfold valid_config. cbn. repeat split; try lia. repeat constructor. }
  assert (Hreach : SignageSystem.reachable sample_config s) by by eexists.
  destruct (playback_errors_counted_and_bounded sample_config s h [] Hvalid Hreach)
    as (_ & Herr & Hmax & _).
  assert (Hs : SignageSystem.consecutive_errors s = 1%Z) by reflexivity.
  assert (He : SignageSystem.error_count s = 1%Z) by reflexivity.
  destruct Hmax as (H0 & Htr & _); [by rewrite Hs|].
  rewrite He in Herr. done.
Defined.

(** ** The model run on the scenarios of the test suite *)

Example lower_mixed_case : lower "Clip.MP4" = "clip.mp4".
Proof. reflexivity. Qed.

(** A directory holding [3.mp4], [1.mp4], [2.mp4] and a text file, played
    sequentially with looping: the list is loaded in name order and the
    successive picks are [2.mp4], [3.mp4], [1.mp4], [2.mp4]. *)
Example sequential_end_to_end :
  let w := sample_world [sample_file "3.mp4" ".mp4" 10;
                         sample_file "1.mp4" ".mp4" 10;
                         sample_file "readme.txt" ".txt" 10;
                         sample_file "2.mp4" ".mp4" 10] in
  let m := PlaylistManager.run sample_config [PlaylistManager.OpLoad w None] in
  filename <$> videos (PlaylistManager.playlist m) = ["1.mp4"; "2.mp4"; "3.mp4"]
  /\ (fun o : option VideoInfo => filename <$> o)
       <$> (SequentialStrategy.calls 4 (PlaylistManager.playlist m)).2
     = [Some "2.mp4"; Some "3.mp4"; Some "1.mp4"; Some "2.mp4"].
Proof. split; vm_compute; reflexivity. Qed.

(** An empty directory gives an empty playlist; once a file is there, a
    reload makes it the current video. *)
Example empty_then_one_file :
  let m0 := PlaylistManager.run sample_config
              [PlaylistManager.OpLoad (sample_world []) None] in
  let m1 := PlaylistManager.apply m0
              (PlaylistManager.OpLoad
                 (sample_world [sample_file "new.mp4" ".mp4" 10]) None) in
  PlaylistManager.is_empty m0 = true
  /\ PlaylistManager.is_empty m1 = false
  /\ filename <$> PlaylistManager.get_current_video m1 = Some "new.mp4".
Proof. repeat split; vm_compute; reflexivity. Qed.

(** Names that differ in case only by their first letter are ordered
    without regard to case. *)
Example load_orders_without_case :
  let w := sample_world [sample_file "b.mp4" ".mp4" 10;
                         sample_file "C.MP4" ".MP4" 10;
                         sample_file "a.avi" ".avi" 10] in
  filename <$> videos (PlaylistManager.playlist
                         (PlaylistManager.run sample_config
                            [PlaylistManager.OpLoad w None]))
  = ["a.avi"; "b.mp4"; "C.MP4"].
Proof. vm_compute. reflexivity. Qed.

(** A system one failure short of [max_retries]: the next failure reloads
    and resets the consecutive count. *)
Example handler_at_max_retries :
  let s := SignageSystem.with_counters (SignageSystem.init sample_config)
             (max_retries sample_config - 1) (max_retries sample_config - 1) in
  let r := SignageSystem._handle_playback_error (sample_host []) s in
  SignageSystem.consecutive_errors r.1 = 0%Z
  /\ SignageSystem.error_count r.1 = max_retries sample_config
  /\ r.2 = [RefreshPlaylist; Wait 1].
Proof. repeat split; vm_compute; reflexivity. Qed.

(** A fresh system: one failure counts once in both counters and does not
    reload. *)
Example handler_first_failure :
  let r := SignageSystem._handle_playback_error (sample_host [])
             (SignageSystem.init sample_config) in
  SignageSystem.consecutive_errors r.1 = 1%Z
  /\ SignageSystem.error_count r.1 = 1%Z
  /\ r.2 = [Wait 1].
Proof. repeat split; vm_compute; reflexivity. Qed.

(** * Further properties of the code *)

(** ** The playlist's own navigation *)

(** X1. With the cursor inside the list, the playlist's own
    [get_next_video] and the sequential strategy's do the same thing:
    same playlist afterwards, same entry returned. *)
Theorem playlist_next_agrees_with_sequential (p : Playlist) :
  current_index p < length (videos p) ->
  PlaylistNav.get_next_video p = SequentialStrategy.get_next_video p.
Proof.
  intros Hin. unfold PlaylistNav.get_next_video, SequentialStrategy.get_next_video.
  destruct (videos p) as [|v vs] eqn:E; [done|]. rewrite <- E in *.
  set (n := length (videos p)) in *.
  assert (Hcond : Nat.eqb ((current_index p + 1) mod n) 0
                  = Nat.leb (n - 1) (current_index p)).
  { destruct (decide (current_index p + 1 < n)) as [Hlt|Hge].
    - rewrite Nat.mod_small by done.
      destruct (Nat.eqb_spec (current_index p + 1) 0); [lia|].
      destruct (Nat.leb_spec (n - 1) (current_index p)); [lia|done].
    - assert (current_index p + 1 = n) as -> by lia.
      rewrite Nat.Div0.mod_same, Nat.eqb_refl. symmetry. apply Nat.leb_le. lia. }
  by rewrite Hcond.
Qed.

Lemma playlist_next_agrees_with_sequential_witness :
  let v (name : string) := {| file_path := name; filename := name;
    file_size := 1; format_extension := ".mp4"; is_valid := true;
    last_modified := None |} in
  let p := PlaylistNav.make [v "1.mp4"; v "2.mp4"; v "3.mp4"] 2 false false in
  PlaylistNav.get_next_video p = SequentialStrategy.get_next_video p.
Proof.
  intros v p. apply (playlist_next_agrees_with_sequential p). cbn. lia.
Defined.

(** Outside the list the two differ: with three entries, no looping and
    the cursor on 3, the strategy stops while the playlist moves on. *)
Example playlist_next_differs_out_of_range :
  let v (name : string) := {| file_path := name; filename := name;
    file_size := 1; format_extension := ".mp4"; is_valid := true;
    last_modified := None |} in
  let p := {| videos := [v "1.mp4"; v "2.mp4"; v "3.mp4"]; current_index := 3;
              shuffle_enabled := false; loop_enabled := false |} in
  (SequentialStrategy.get_next_video p).2 = None
  /\ (PlaylistNav.get_next_video p).2 = Some (v "2.mp4").
Proof. split; reflexivity. Qed.

(** X2. A playlist as its constructor leaves it has its cursor in range,
    so it has a current video exactly when it is not empty: a cursor
    already inside the list is kept, a cursor at or beyond the end of a
    non-empty list is put on 0, and on an empty list the cursor is left
    as given. *)
Theorem playlist_make_cursor_in_range (vs : list VideoInfo) (index : nat)
    (shuffle loop : bool) :
  let p := PlaylistNav.make vs index shuffle loop in
  (vs <> [] -> current_index p < length vs)
  /\ (index < length vs -> current_index p = index)
  /\ (PlaylistOps.get_current_video p = None <-> vs = [])
  /\ (vs <> [] -> length vs <= index -> current_index p = 0)
  /\ (vs = [] -> current_index p = index)
  /\ videos p = vs.
Proof.
  intros p. subst p. unfold PlaylistOps.get_current_video.
  destruct vs as [|v vs']; [repeat split; try done; cbn; lia|].
  remember (v :: vs') as l eqn:El.
  assert (Hl : 0 < length l) by (subst l; cbn; lia).
  assert (Hmake : PlaylistNav.make l index shuffle loop =
            {| videos := l;
               current_index := if Nat.leb (length l) index then 0 else index;
               shuffle_enabled := shuffle; loop_enabled := loop |})
    by (by subst l).
  rewrite Hmake. cbn [videos current_index].
  assert (Hne : l <> []) by (by subst l).
  destruct (Nat.leb_spec (length l) index) as [Hout|Hin].
  - split; [intros _; lia|]. split; [lia|].
    split; [|done].
    split; [|done]. rewrite (proj2 (Nat.ltb_lt 0 (length l)) Hl).
    intros Hnone. destruct l as [|x l']; [done|]. discriminate Hnone.
  - split; [done|]. split; [done|].
    split; [|split; [lia|done]].
    split; [|done]. rewrite (proj2 (Nat.ltb_lt index (length l)) Hin).
    intros Hnone. destruct l as [|x l']; [done|].
    apply lookup_ge_None in Hnone. lia.
Qed.

Lemma playlist_make_cursor_in_range_witness :
  let v (name : string) := {| file_path := name; filename := name;
    file_size := 1; format_extension := ".mp4"; is_valid := true;
    last_modified := None |} in
  current_index (PlaylistNav.make [v "1.mp4"; v "2.mp4"] 7 false true) = 0
  /\ current_index (PlaylistNav.make [v "1.mp4"; v "2.mp4"] 1 false true) = 1.
Proof.
  intros v. split.
  - apply (proj1 (proj2 (proj2 (proj2
      (playlist_make_cursor_in_range [v "1.mp4"; v "2.mp4"] 7 false true)))));
      [done|cbn; lia].
  - apply (proj1 (proj2
      (playlist_make_cursor_in_range [v "1.mp4"; v "2.mp4"] 1 false true))).
    cbn. lia.
Defined.

(** ** What the manager's operations keep *)

Section ManagerInvariants.
Import PlaylistOps.

(** A call of either strategy moves the cursor at most, and only to an
    index of the list. *)
Lemma sequential_next_frame (p : Playlist) :
  let p' := (SequentialStrategy.get_next_video p).1 in
  videos p' = videos p
  /\ shuffle_enabled p' = shuffle_enabled p
  /\ loop_enabled p' = loop_enabled p
  /\ (current_index p' = current_index p
      \/ current_index p' < length (videos p)).
Proof.
  unfold SequentialStrategy.get_next_video.
  destruct (videos p) as [|v vs] eqn:E; [by repeat split; try left|].
  rewrite <- E.
  destruct (_ && _);
    cbn [fst set_current_index videos shuffle_enabled loop_enabled current_index];
    repeat split; try done; [by left|].
  right. apply Nat.mod_upper_bound. by rewrite E.
Qed.

Lemma shuffle_next_frame (r : nat) (st : ShuffleStrategy.t) (p : Playlist) :
  let p' := (ShuffleStrategy.get_next_video r st p).1.2 in
  videos p' = videos p
  /\ shuffle_enabled p' = shuffle_enabled p
  /\ loop_enabled p' = loop_enabled p
  /\ (current_index p' = current_index p
      \/ current_index p' < length (videos p)).
Proof.
  unfold ShuffleStrategy.get_next_video.
  destruct (videos p) as [|v1 [|v2 vs]] eqn:E.
  - by repeat split; try left.
  - cbn. rewrite E. repeat split; try done. right. cbn. lia.
  - rewrite <- E.
    destruct (_ && _); [by repeat split; try left|].
    destruct (ShuffleStrategy.candidates _ _) as [|d pool] eqn:Ep;
      [by repeat split; try left|].
    cbn [fst snd set_current_index videos shuffle_enabled loop_enabled current_index].
    repeat split; try done. right.
    assert (Hin : ShuffleStrategy.random_choice r d (d :: pool) ∈ d :: pool)
      by by apply random_choice_elem.
    eapply elem_of_available, (candidates_sub (ShuffleStrategy.last_index st)).
    rewrite Ep. exact Hin.
Qed.

Lemma manager_next_frame (r : nat) (m : PlaylistManager.t) :
  let m' := (PlaylistManager.get_next_video r m).1 in
  PlaylistManager.config m' = PlaylistManager.config m
  /\ PlaylistManager.current_strategy m' = PlaylistManager.current_strategy m
  /\ videos (PlaylistManager.playlist m') = videos (PlaylistManager.playlist m)
  /\ shuffle_enabled (PlaylistManager.playlist m')
     = shuffle_enabled (PlaylistManager.playlist m)
  /\ loop_enabled (PlaylistManager.playlist m')
     = loop_enabled (PlaylistManager.playlist m)
  /\ (current_index (PlaylistManager.playlist m')
        = current_index (PlaylistManager.playlist m)
      \/ current_index (PlaylistManager.playlist m')
         < length (videos (PlaylistManager.playlist m))).
Proof.
  unfold PlaylistManager.get_next_video.
  destruct (PlaylistManager.current_strategy m) eqn:Es.
  - pose proof (sequential_next_frame (PlaylistManager.playlist m)) as H.
    destruct (SequentialStrategy.get_next_video _) as [p out]. cbn in *.
    by destruct H as (? & ? & ? & ?).
  - pose proof (shuffle_next_frame r (PlaylistManager.shuffle_strategy m)
                  (PlaylistManager.playlist m)) as H.
    destruct (ShuffleStrategy.get_next_video _ _ _) as [[st p] out]. cbn in *.
    by destruct H as (? & ? & ? & ?).
Qed.

(** The two outcomes of [remove_video]. *)
Lemma remove_video_cases (m : PlaylistManager.t) (path : string) :
  let p := PlaylistManager.playlist m in
  PlaylistManager.remove_video m path = (m, false)
  \/ exists i v,
       videos p !! i = Some v /\ file_path v = path
       /\ PlaylistManager.remove_video m path =
            (PlaylistManager.with_playlist m
               (set_videos
                  (set_current_index p
                     (if Nat.ltb i (current_index p) then current_index p - 1
                      else if Nat.eqb i (current_index p) then 0
                      else current_index p))
                  (delete i (videos p))), true).
Proof.
  intros p. unfold PlaylistManager.remove_video. fold p.
  destruct (decide (Exists (fun w => file_path w = path) (videos p)))
    as [Hex|Hno].
  - right. apply Exists_exists, first_with_path in Hex as (i & v & Hi & Hv & Hfirst).
    exists i, v. split; [done|]. split; [done|].
    by rewrite (remove_from_found path (videos p) 0 i v p Hi Hv Hfirst).
  - left. rewrite (remove_from_absent path (videos p) 0 p).
    + by destruct m.
    + intros w Hw Hpath. apply Hno, Exists_exists. by exists w.
Qed.

Lemma cursor_in_range_reset (p : Playlist) :
  PlaylistNav.cursor_in_range (set_current_index p 0).
Proof.
  unfold PlaylistNav.cursor_in_range. cbn.
  destruct (videos p); [by right|left; cbn; lia].
Qed.

Lemma apply_cursor_in_range (m : PlaylistManager.t) (o : PlaylistManager.Op) :
  PlaylistNav.cursor_in_range (PlaylistManager.playlist m) ->
  PlaylistNav.cursor_in_range
    (PlaylistManager.playlist (PlaylistManager.apply m o)).
Proof.
  intros Hm.
  destruct o as [w d|r|b|b| |w build path|path| ]; cbn [PlaylistManager.apply].
  - unfold PlaylistManager.load_videos_from_directory.
    destruct (fs_dir w _); cbn [fst]; try done.
    match goal with |- context [PlaylistManager.reset_current_strategy ?x] =>
      destruct (reset_current_strategy_spec x) as (-> & _) end.
    apply cursor_in_range_reset.
  - destruct (manager_next_frame r m) as (_ & _ & Hv & _ & _ & Hc).
    unfold PlaylistNav.cursor_in_range in *. rewrite Hv.
    destruct Hc as [-> | Hc]; [done|by left].
  - unfold PlaylistManager.set_shuffle_mode.
    match goal with |- context [PlaylistManager.reset_current_strategy ?x] =>
      destruct (reset_current_strategy_spec x) as (-> & _) end.
    apply cursor_in_range_reset.
  - done.
  - unfold PlaylistManager.reset_playlist.
    destruct (reset_current_strategy_spec m) as (-> & _).
    apply cursor_in_range_reset.
  - unfold PlaylistManager.add_video.
    destruct (fs_file w path) as [f|]; [|done].
    destruct (bool_decide _); [|done].
    destruct (build f) as [v|]; [|done].
    unfold PlaylistNav.cursor_in_range in *. cbn. left. rewrite length_app. cbn.
    destruct Hm as [Hlt|[-> ->]]; cbn; lia.
  - destruct (remove_video_cases m path) as [->|(i & v & Hi & _ & ->)]; [done|].
    unfold PlaylistNav.cursor_in_range in *.
    cbn [fst PlaylistManager.playlist PlaylistManager.with_playlist
         set_videos set_current_index videos current_index].
    pose proof (lookup_lt_Some _ _ _ Hi) as Hlen.
    rewrite length_delete by by eexists.
    destruct Hm as [Hlt|[Hnil _]]; [|rewrite Hnil in Hi; done].
    destruct (Nat.ltb_spec i (current_index (PlaylistManager.playlist m))).
    + left. lia.
    + destruct (Nat.eqb_spec i (current_index (PlaylistManager.playlist m))).
      * destruct (decide (length (videos (PlaylistManager.playlist m)) - 1 = 0))
          as [Hz|Hnz]; [right|left; lia].
        split; [|done]. apply length_zero_iff_nil.
        rewrite length_delete by by eexists. done.
      * left. lia.
  - unfold PlaylistManager.clear_playlist.
    match goal with |- context [PlaylistManager.reset_current_strategy ?x] =>
      destruct (reset_current_strategy_spec x) as (-> & _) end.
    apply cursor_in_range_reset.
Qed.

Lemma apply_mode_consistent (m : PlaylistManager.t) (o : PlaylistManager.Op) :
  PlaylistReport.mode_consistent m ->
  PlaylistReport.mode_consistent (PlaylistManager.apply m o).
Proof.
  unfold PlaylistReport.mode_consistent. intros Hm.
  destruct o as [w d|r|b|b| |w build path|path| ]; cbn [PlaylistManager.apply].
  - unfold PlaylistManager.load_videos_from_directory.
    destruct (fs_dir w _); cbn [fst]; try done.
    match goal with |- context [PlaylistManager.reset_current_strategy ?x] =>
      destruct (reset_current_strategy_spec x) as (-> & _ & -> & _) end.
    exact Hm.
  - destruct (manager_next_frame r m) as (_ & -> & _ & -> & _). exact Hm.
  - unfold PlaylistManager.set_shuffle_mode.
    match goal with |- context [PlaylistManager.reset_current_strategy ?x] =>
      destruct (reset_current_strategy_spec x) as (-> & _ & -> & _) end.
    cbn. by destruct b.
  - exact Hm.
  - unfold PlaylistManager.reset_playlist.
    destruct (reset_current_strategy_spec m) as (-> & _ & -> & _). exact Hm.
  - unfold PlaylistManager.add_video.
    destruct (fs_file w path) as [f|]; [|done].
    destruct (bool_decide _); [|done].
    destruct (build f) as [v|]; done.
  - destruct (remove_video_cases m path) as [->|(i & v & _ & _ & ->)]; done.
  - unfold PlaylistManager.clear_playlist.
    match goal with |- context [PlaylistManager.reset_current_strategy ?x] =>
      destruct (reset_current_strategy_spec x) as (-> & _ & -> & _) end.
    exact Hm.
Qed.

Lemma run_invariant (P : PlaylistManager.t -> Prop) (c : SystemConfig)
    (ops : list PlaylistManager.Op) :
  P (PlaylistManager.init c) ->
  (forall m o, P m -> P (PlaylistManager.apply m o)) ->
  P (PlaylistManager.run c ops).
Proof.
  intros Hinit Hstep. unfold PlaylistManager.run.
  revert Hinit. generalize (PlaylistManager.init c).
  induction ops as [|o ops IH]; intros m Hm; [exact Hm|].
  cbn. apply IH, Hstep, Hm.
Qed.

Lemma current_video_iff_nonempty (p : Playlist) :
  PlaylistNav.cursor_in_range p ->
  (PlaylistOps.get_current_video p = None <-> PlaylistOps.is_empty p = true).
Proof.
  intros Hp. unfold PlaylistOps.get_current_video, PlaylistOps.is_empty.
  destruct (videos p) as [|v vs] eqn:E; [done|]. rewrite <- E in *.
  destruct Hp as [Hlt|[Hnil _]]; [|congruence].
  rewrite (proj2 (Nat.ltb_lt _ _) Hlt). split.
  - intros Hnone. apply lookup_ge_None in Hnone. lia.
  - rewrite E. done.
Qed.
End ManagerInvariants.

(** X3. Whatever sequence of operations a manager has gone through
    (loads, picks in either mode, mode switches, resets, additions,
    removals, clearing), its cursor points into the list, or the list is
    empty and the cursor is 0. So [get_current_video] returns an entry
    exactly when the playlist is not empty, and [get_playlist_info]
    reports a current video exactly when it reports a non-empty list. *)
Theorem manager_cursor_always_in_range (c : SystemConfig)
    (ops : list PlaylistManager.Op) :
  let m := PlaylistManager.run c ops in
  PlaylistNav.cursor_in_range (PlaylistManager.playlist m)
  /\ (PlaylistManager.get_current_video m = None
      <-> PlaylistManager.is_empty m = true)
  /\ (PlaylistReport.info_current_video (PlaylistReport.get_playlist_info m) = None
      <-> PlaylistReport.info_is_empty (PlaylistReport.get_playlist_info m) = true).
Proof.
  intros m.
  assert (Hm : PlaylistNav.cursor_in_range (PlaylistManager.playlist m)).
  { apply (run_invariant
             (fun m => PlaylistNav.cursor_in_range (PlaylistManager.playlist m))).
    - by right.
    - intros m' o. apply apply_cursor_in_range. }
  split; [exact Hm|].
  pose proof (current_video_iff_nonempty _ Hm) as Hiff.
  split; [exact Hiff|].
  unfold PlaylistReport.get_playlist_info. cbn.
  rewrite <- Hiff. by destruct (PlaylistOps.get_current_video _).
Qed.

(** X4. Whatever sequence of operations a manager has gone through, the
    playlist's [shuffle_enabled] flag is set exactly when the strategy in
    use is the shuffle strategy. *)
Theorem manager_mode_always_consistent (c : SystemConfig)
    (ops : list PlaylistManager.Op) :
  let m := PlaylistManager.run c ops in
  shuffle_enabled (PlaylistManager.playlist m) = true
  <-> PlaylistManager.current_strategy m = PlaylistManager.Shuffle.
Proof.
  intros m.
  apply (run_invariant PlaylistReport.mode_consistent).
  - done.
  - intros m' o. apply apply_mode_consistent.
Qed.

(** ** Loading *)

(** X5. [load_videos_from_directory] returns the length of the list it
    leaves when the directory can be listed; that list is a rearrangement
    of the entries built from the accepted files, none lost and none
    twice; and loading again from the same file system changes nothing
    and returns the same count. *)
Theorem load_counts_and_is_idempotent (w : World) (m : PlaylistManager.t)
    (directory_path : option string) :
  let r := PlaylistManager.load_videos_from_directory w m directory_path in
  (forall files,
     fs_dir w (default (video_dir (PlaylistManager.config m)) directory_path)
       = DirListing files ->
     r.2 = length (videos (PlaylistManager.playlist r.1))
     /\ videos (PlaylistManager.playlist r.1)
        ≡ₚ PlaylistManager.collect_videos (PlaylistManager.config m) files
     /\ PlaylistReport.get_video_list r.1
        ≡ₚ filename <$> PlaylistManager.collect_videos (PlaylistManager.config m) files)
  /\ PlaylistManager.load_videos_from_directory w r.1 directory_path = r.
Proof.
  intros r. subst r. split.
  - intros files Hdir.
    rewrite (load_listing_videos w m directory_path files Hdir).
    unfold PlaylistReport.get_video_list.
    rewrite (load_listing_videos w m directory_path files Hdir).
    split; [|split].
    + unfold PlaylistManager.load_videos_from_directory. by rewrite Hdir.
    + apply sort_by_perm.
    + by rewrite sort_by_perm.
  - unfold PlaylistManager.load_videos_from_directory.
    destruct (fs_dir w (default (video_dir (PlaylistManager.config m)) directory_path))
      as [| | |files] eqn:Hdir; cbn [fst]; rewrite ?Hdir; try done.
    match goal with |- context [PlaylistManager.reset_current_strategy ?x] =>
      destruct (reset_current_strategy_spec x) as (_ & Hc & _) end.
    rewrite Hc. cbn [PlaylistManager.with_playlist PlaylistManager.config].
    rewrite Hdir. f_equal.
    destruct m as [cfg p st []]; reflexivity.
Qed.

Lemma load_counts_and_is_idempotent_witness :
  let files := [sample_file "b.mp4" ".mp4" 10; sample_file "notes.txt" ".txt" 3;
                sample_file "a.mp4" ".mp4" 10] in
  let r := PlaylistManager.load_videos_from_directory (sample_world files)
             (PlaylistManager.init sample_config) None in
  r.2 = length (videos (PlaylistManager.playlist r.1)).
Proof.
  intros files r.
  apply (proj1 (load_counts_and_is_idempotent (sample_world files)
                  (PlaylistManager.init sample_config) None) files).
  reflexivity.
Defined.

(** ** The empty playlist *)

(** X6. After [clear_playlist] the playlist is empty with the cursor on
    0. On any empty playlist, in either mode, there is no current video
    and [get_next_video] returns nothing and leaves the manager exactly
    as it was. *)
Theorem empty_playlist_yields_nothing (m : PlaylistManager.t) (r : nat) :
  (PlaylistManager.is_empty (PlaylistManager.clear_playlist m) = true
   /\ current_index (PlaylistManager.playlist (PlaylistManager.clear_playlist m)) = 0
   /\ PlaylistManager.get_video_count (PlaylistManager.clear_playlist m) = 0)
  /\ (PlaylistManager.is_empty m = true ->
      PlaylistManager.get_current_video m = None
      /\ PlaylistManager.get_next_video r m = (m, None)).
Proof.
  split.
  - unfold PlaylistManager.clear_playlist, PlaylistManager.is_empty,
      PlaylistManager.get_video_count.
    match goal with |- context [PlaylistManager.reset_current_strategy ?x] =>
      destruct (reset_current_strategy_spec x) as (-> & _) end.
    done.
  - unfold PlaylistManager.is_empty, PlaylistOps.is_empty.
    intros Hempty. apply Nat.eqb_eq, length_zero_iff_nil in Hempty.
    unfold PlaylistManager.get_current_video, PlaylistOps.get_current_video,
      PlaylistManager.get_next_video, SequentialStrategy.get_next_video,
      ShuffleStrategy.get_next_video.
    rewrite Hempty. split; [done|].
    destruct m as [cfg p st []]; reflexivity.
Qed.

Lemma empty_playlist_yields_nothing_witness :
  let m := PlaylistManager.set_shuffle_mode
             (PlaylistManager.init sample_config) true in
  PlaylistManager.get_next_video 3 m = (m, None).
Proof.
  intros m. apply (proj2 (empty_playlist_yields_nothing m 3)). reflexivity.
Defined.

(** ** Switching modes *)

(** Switching the shuffle mode to a value twice is the same as once;
    switching the loop mode commutes with switching the shuffle mode; and
    neither switch changes the video list. *)
Theorem mode_switches_compose (m : PlaylistManager.t) (b b' : bool) :
  PlaylistManager.set_shuffle_mode (PlaylistManager.set_shuffle_mode m b) b
    = PlaylistManager.set_shuffle_mode m b
  /\ PlaylistManager.set_loop_mode (PlaylistManager.set_shuffle_mode m b) b'
     = PlaylistManager.set_shuffle_mode (PlaylistManager.set_loop_mode m b') b
  /\ videos (PlaylistManager.playlist (PlaylistManager.set_shuffle_mode m b))
     = videos (PlaylistManager.playlist m)
  /\ videos (PlaylistManager.playlist (PlaylistManager.set_loop_mode m b))
     = videos (PlaylistManager.playlist m).
Proof.
  destruct m as [cfg [vs c sh lp] st strat].
  repeat split; destruct b; try destruct b'; reflexivity.
Qed.

(** ** A pass without looping *)

Section SequentialOnce.
Import PlaylistOps.

Lemma seq_next_noloop_end (p : Playlist) :
  loop_enabled p = false -> length (videos p) - 1 <= current_index p ->
  SequentialStrategy.get_next_video p = (p, None).
Proof.
  intros Hloop Hend. unfold SequentialStrategy.get_next_video.
  destruct (videos p) eqn:E; [done|]. rewrite <- E in Hend |- *.
  by rewrite (proj2 (Nat.leb_le _ _) Hend), Hloop.
Qed.

Lemma seq_next_noloop_step (p : Playlist) :
  current_index p + 1 < length (videos p) ->
  SequentialStrategy.get_next_video p =
    (set_current_index p (current_index p + 1),
     videos p !! (current_index p + 1)).
Proof.
  intros Hlt. unfold SequentialStrategy.get_next_video.
  destruct (videos p) eqn:E; [cbn in Hlt; lia|]. rewrite <- E in Hlt |- *.
  destruct (Nat.leb_spec (length (videos p) - 1) (current_index p)); [lia|].
  cbn [andb]. by rewrite Nat.mod_small.
Qed.

Lemma seq_calls_noloop (k : nat) : forall p,
  loop_enabled p = false -> current_index p < length (videos p) ->
  (SequentialStrategy.calls k p).2 =
    (Some <$> take k (drop (S (current_index p)) (videos p)))
    ++ replicate (k - (length (videos p) - 1 - current_index p)) None
  /\ current_index (SequentialStrategy.calls k p).1
     = Nat.min (current_index p + k) (length (videos p) - 1)
  /\ videos (SequentialStrategy.calls k p).1 = videos p.
Proof.
  induction k as [|k IH]; intros p Hloop Hin.
  - cbn. rewrite take_0. repeat split; try done. lia.
  - cbn [SequentialStrategy.calls].
    destruct (decide (current_index p + 1 < length (videos p))) as [Hlt|Hend].
    + rewrite (seq_next_noloop_step p Hlt).
      destruct (lookup_lt_is_Some_2 (videos p) (current_index p + 1) Hlt)
        as [v Hv].
      specialize (IH (set_current_index p (current_index p + 1)) Hloop Hlt).
      destruct (SequentialStrategy.calls k _) as [p2 rs].
      cbn [fst snd set_current_index videos current_index] in *.
      destruct IH as (Hrs & Hc & Hvs).
      replace (S (current_index p)) with (current_index p + 1) by lia.
      rewrite (drop_S _ _ _ Hv), Hv. cbn [take fmap list_fmap app].
      rewrite Hrs, Hc, Hvs.
      replace (S (current_index p + 1)) with (current_index p + 1 + 1) by lia.
      repeat split; [|lia].
      do 3 f_equal. lia.
    + rewrite (seq_next_noloop_end p Hloop) by lia.
      specialize (IH p Hloop Hin).
      destruct (SequentialStrategy.calls k p) as [p2 rs]. cbn [fst snd] in *.
      destruct IH as (Hrs & Hc & Hvs).
      rewrite Hrs, Hc, Hvs.
      rewrite drop_ge by lia. rewrite !take_nil. cbn [fmap list_fmap app].
      replace (S k - (length (videos p) - 1 - current_index p)) with (S k) by lia.
      replace (k - (length (videos p) - 1 - current_index p)) with k by lia.
      repeat split; first [done|lia].
Qed.
End SequentialOnce.

(** X7. With looping disabled and the cursor inside the list, successive
    calls of the sequential strategy return the entries after the cursor,
    each once and in list order, and after the last one every further
    call returns nothing; the cursor ends on the last index and the list
    is never changed. The entry under the starting cursor is not
    returned. *)
Theorem sequential_without_loop_plays_rest_once (p : Playlist) (k : nat) :
  loop_enabled p = false -> current_index p < length (videos p) ->
  let remaining := length (videos p) - 1 - current_index p in
  (SequentialStrategy.calls k p).2 =
    (Some <$> take k (drop (S (current_index p)) (videos p)))
    ++ replicate (k - remaining) None
  /\ current_index (SequentialStrategy.calls k p).1
     = Nat.min (current_index p + k) (length (videos p) - 1)
  /\ videos (SequentialStrategy.calls k p).1 = videos p
  /\ (remaining <= k ->
      (SequentialStrategy.calls k p).2 =
        (Some <$> drop (S (current_index p)) (videos p))
        ++ replicate (k - remaining) None).
Proof.
  intros Hloop Hin remaining.
  destruct (seq_calls_noloop k p Hloop Hin) as (Hrs & Hc & Hvs).
  repeat split; try done.
  intros Hk. rewrite Hrs. f_equal. f_equal.
  apply take_ge. rewrite length_drop. subst remaining. lia.
Qed.

Lemma sequential_without_loop_plays_rest_once_witness :
  let v (name : string) := {| file_path := name; filename := name;
    file_size := 1; format_extension := ".mp4"; is_valid := true;
    last_modified := None |} in
  let p := {| videos := [v "1.mp4"; v "2.mp4"; v "3.mp4"];
              current_index := 0; shuffle_enabled := false;
              loop_enabled := false |} in
  (SequentialStrategy.calls 4 p).2
  = [Some (v "2.mp4"); Some (v "3.mp4"); None; None].
Proof.
  intros v p.
  exact (proj1 (sequential_without_loop_plays_rest_once p 4 eq_refl
                  ltac:(cbn; lia))).
Defined.

(** X8. On a looping playlist of [N > 1] videos, every complete pass of
    [N] calls of the shuffle strategy (counted from a fresh or reset
    strategy) picks each index of the list exactly once, whatever the
    random generator draws. *)
Theorem shuffle_pass_plays_every_video_once (p : Playlist) (rs : list nat)
    (j : nat) :
  1 < length (videos p) -> loop_enabled p = true ->
  let n := length (videos p) in
  (j + 1) * n <= length rs ->
  take n (drop (j * n) (ShuffleStrategy.calls rs ShuffleStrategy.init p).*1)
    ≡ₚ seq 0 n.
Proof.
  intros Hlen Hloop n Hj.
  assert (Hsame : PlaylistOps.same_list p p) by done.
  set (picks := (ShuffleStrategy.calls rs ShuffleStrategy.init p).*1).
  assert (Hlp : length picks = length rs)
    by (subst picks; by rewrite length_fmap, shuffle_calls_length).
  apply NoDup_Permutation_bis.
  - apply NoDup_ListNoDup, (shuffle_passes p Hlen Hloop); [done|].
    unfold ShuffleStrategy.effective_played. by destruct (Nat.leb _ _).
  - rewrite length_seq, length_take, length_drop. lia.
  - intros x Hx. apply list_elem_of_In in Hx. apply list_elem_of_In.
    apply subseteq_take, subseteq_drop in Hx.
    apply elem_of_seq. split; [lia|]. cbn.
    pose proof (shuffle_calls_wf p Hlen Hloop rs ShuffleStrategy.init p Hsame) as Hwf.
    subst picks. apply list_elem_of_fmap in Hx as [co [-> Hco]].
    by destruct (proj1 (Forall_forall _ _) Hwf co Hco).
Qed.

Lemma shuffle_pass_plays_every_video_once_witness :
  let v (name : string) := {| file_path := name; filename := name;
    file_size := 1; format_extension := ".mp4"; is_valid := true;
    last_modified := None |} in
  let p := {| videos := [v "1.mp4"; v "2.mp4"; v "3.mp4"];
              current_index := 0; shuffle_enabled := true;
              loop_enabled := true |} in
  let rs := [4; 1; 0; 5; 3; 2; 7] in
  take 3 (drop (1 * 3) (ShuffleStrategy.calls rs ShuffleStrategy.init p).*1)
    ≡ₚ seq 0 3.
Proof.
  intros v p rs.
  apply (shuffle_pass_plays_every_video_once p rs 1); [cbn; lia|reflexivity|cbn; lia].
Defined.

Section ShuffleOnce.
Import PlaylistOps.
Variable p0 : Playlist.
Let n := length (videos p0).
Hypothesis Hlen : 1 < n.
Hypothesis Hnoloop : loop_enabled p0 = false.

Lemma shuffle_two_entries : exists v1 v2 vs, videos p0 = v1 :: v2 :: vs.
Proof.
  unfold n in Hlen.
  destruct (videos p0) as [|v1 [|v2 vs]]; cbn in Hlen; try lia. eauto.
Qed.

(** A call while the played list has room. *)
Lemma shuffle_step_room (r : nat) (st : ShuffleStrategy.t) (p : Playlist) :
  same_list p0 p ->
  length (ShuffleStrategy.played_indices st) < n ->
  exists i,
    ShuffleStrategy.get_next_video r st p =
      ({| ShuffleStrategy.played_indices :=
            ShuffleStrategy.played_indices st ++ [i];
          ShuffleStrategy.last_index := Some i |},
       set_current_index p i, videos p0 !! i)
    /\ i < n
    /\ (i ∉ ShuffleStrategy.played_indices st).
Proof.
  intros [Hv Hl] Hroom. destruct shuffle_two_entries as (v1 & v2 & vs & E).
  unfold ShuffleStrategy.get_next_video.
  rewrite Hv, E. cbv beta iota zeta. rewrite <- E. fold n.
  destruct (Nat.leb_spec n (length (ShuffleStrategy.played_indices st)));
    [lia|]. cbn [andb].
  set (avail := ShuffleStrategy.available_indices n
                  (ShuffleStrategy.played_indices st)).
  destruct (ShuffleStrategy.candidates (ShuffleStrategy.last_index st) avail)
    as [|d pool] eqn:Ep.
  { exfalso. revert Ep. by apply candidates_nonempty, available_nonempty. }
  exists (ShuffleStrategy.random_choice r d (d :: pool)).
  assert (Hin : ShuffleStrategy.random_choice r d (d :: pool) ∈ avail).
  { apply (candidates_sub (ShuffleStrategy.last_index st)). rewrite Ep.
    by apply random_choice_elem. }
  apply elem_of_available in Hin as [Hlt Hnot]. done.
Qed.

(** A call once every index has been played. *)
Lemma shuffle_step_full (r : nat) (st : ShuffleStrategy.t) (p : Playlist) :
  same_list p0 p ->
  n <= length (ShuffleStrategy.played_indices st) ->
  ShuffleStrategy.get_next_video r st p = (st, p, None).
Proof.
  intros [Hv Hl] Hfull. destruct shuffle_two_entries as (v1 & v2 & vs & E).
  unfold ShuffleStrategy.get_next_video.
  rewrite Hv, Hl, Hnoloop, E. cbv beta iota zeta. rewrite <- E. fold n.
  by rewrite (proj2 (Nat.leb_le _ _) Hfull).
Qed.

Lemma shuffle_once_within (rs : list nat) : forall st p,
  same_list p0 p ->
  NoDup (ShuffleStrategy.played_indices st) ->
  length (ShuffleStrategy.played_indices st) + length rs <= n ->
  let tr := ShuffleStrategy.calls rs st p in
  tr.*2 = (fun i => videos p0 !! i) <$> tr.*1
  /\ Forall (fun i => i < n) tr.*1
  /\ NoDup (ShuffleStrategy.played_indices st ++ tr.*1)
  /\ ShuffleStrategy.played_indices (ShuffleStrategy.state_after rs st p).1
     = ShuffleStrategy.played_indices st ++ tr.*1
  /\ same_list p0 (ShuffleStrategy.state_after rs st p).2.
Proof.
  induction rs as [|r rs IH]; intros st p Hp Hnd Hroom.
  - cbn. rewrite app_nil_r.
    split; [done|]. split; [constructor|]. split; [done|]. split; [done|exact Hp].
  - cbn [ShuffleStrategy.calls ShuffleStrategy.state_after]. cbn in Hroom.
    destruct (shuffle_step_room r st p Hp) as (i & -> & Hlt & Hnot); [lia|].
    set (st1 := {| ShuffleStrategy.played_indices :=
                     ShuffleStrategy.played_indices st ++ [i];
                   ShuffleStrategy.last_index := Some i |}).
    destruct (IH st1 (set_current_index p i)) as (Ho & Hf & Hn & Hpl & Hs).
    { by destruct Hp. }
    { cbn. apply NoDup_app. split; [done|]. split; [|apply NoDup_singleton].
      intros x Hx Hx'. apply list_elem_of_singleton in Hx' as ->. done. }
    { cbn. rewrite length_app. cbn. lia. }
    cbn [fmap list_fmap fst snd]. cbn in Hn, Hpl.
    rewrite <- app_assoc in Hn, Hpl. cbn in Hn, Hpl.
    split; [cbn; by rewrite Ho|]. split; [by constructor|]. done.
Qed.

Lemma shuffle_once_after (rs : list nat) : forall st p,
  same_list p0 p ->
  n <= length (ShuffleStrategy.played_indices st) ->
  (ShuffleStrategy.calls rs st p).*2 = replicate (length rs) None
  /\ ShuffleStrategy.state_after rs st p = (st, p).
Proof.
  induction rs as [|r rs IH]; intros st p Hp Hfull; [done|].
  cbn [ShuffleStrategy.calls ShuffleStrategy.state_after].
  rewrite (shuffle_step_full r st p Hp Hfull).
  destruct (IH st p Hp Hfull) as [Ho Hs].
  cbn. by rewrite Ho, Hs.
Qed.
End ShuffleOnce.

(** X9. With looping disabled on a playlist of [N > 1] videos, the
    first [N] calls of a fresh shuffle strategy return every entry of the
    list exactly once, in an order the random generator decides; every
    call after that returns nothing and changes neither the strategy nor
    the playlist. *)
Theorem shuffle_without_loop_plays_all_once (p : Playlist) (rs : list nat) :
  1 < length (videos p) -> loop_enabled p = false ->
  let n := length (videos p) in
  n <= length rs ->
  let tr := ShuffleStrategy.calls rs ShuffleStrategy.init p in
  (take n tr).*1 ≡ₚ seq 0 n
  /\ (take n tr).*2 = (fun i => videos p !! i) <$> (take n tr).*1
  /\ (drop n tr).*2 = replicate (length rs - n) None
  /\ ShuffleStrategy.state_after rs ShuffleStrategy.init p
     = ShuffleStrategy.state_after (take n rs) ShuffleStrategy.init p.
Proof.
  intros Hlen Hloop n Hrs tr. subst tr.
  assert (Hsame : PlaylistOps.same_list p p) by done.
  rewrite shuffle_calls_take, shuffle_calls_drop.
  destruct (shuffle_once_within p Hlen (take n rs) ShuffleStrategy.init p Hsame)
    as (Ho & Hf & Hnd & Hpl & Hs).
  { constructor. }
  { cbn. rewrite length_take. lia. }
  cbn in Hnd, Hpl.
  assert (Hfull : n <= length (ShuffleStrategy.played_indices
                    (ShuffleStrategy.state_after (take n rs) ShuffleStrategy.init p).1)).
  { rewrite Hpl, length_fmap, shuffle_calls_length, length_take. lia. }
  destruct (shuffle_once_after p Hlen Hloop (drop n rs) _ _ Hs Hfull) as [Hnone Hstay].
  split; [|split; [exact Ho|split]].
  - apply NoDup_Permutation_bis.
    + by apply NoDup_ListNoDup.
    + rewrite length_seq, length_fmap, shuffle_calls_length, length_take. lia.
    + intros x Hx. apply list_elem_of_In in Hx. apply list_elem_of_In.
      apply elem_of_seq. split; [lia|].
      by apply (proj1 (Forall_forall _ _) Hf).
  - rewrite Hnone, length_drop. done.
  - rewrite <- (take_drop n rs) at 1.
    assert (Happ : forall rs1 rs2 st q,
      ShuffleStrategy.state_after (rs1 ++ rs2) st q =
        ShuffleStrategy.state_after rs2
          (ShuffleStrategy.state_after rs1 st q).1
          (ShuffleStrategy.state_after rs1 st q).2).
    { induction rs1 as [|r rs1 IH]; intros rs2 st q; cbn; [done|].
      destruct (ShuffleStrategy.get_next_video r st q) as [[st1 q1] out].
      apply IH. }
    rewrite Happ, Hstay. by destruct (ShuffleStrategy.state_after (take n rs) _ _).
Qed.

Lemma shuffle_without_loop_plays_all_once_witness :
  let v (name : string) := {| file_path := name; filename := name;
    file_size := 1; format_extension := ".mp4"; is_valid := true;
    last_modified := None |} in
  let p := {| videos := [v "1.mp4"; v "2.mp4"; v "3.mp4"];
              current_index := 0; shuffle_enabled := true;
              loop_enabled := false |} in
  let rs := [4; 1; 0; 5; 3] in
  (ShuffleStrategy.calls rs ShuffleStrategy.init p).*1 = [1; 2; 0; 0; 0]
  /\ (drop 3 (ShuffleStrategy.calls rs ShuffleStrategy.init p)).*2
     = replicate (5 - 3) None.
Proof.
  intros v p rs. split; [vm_compute; reflexivity|].
  apply (shuffle_without_loop_plays_all_once p rs); [cbn; lia|reflexivity|cbn; lia].
Defined.

(** ** The scanner *)

Section ScannerFacts.
Variable c : SystemConfig.

Lemma collect_paths_sublist (files : list FileEntry) :
  VideoScanner.collect_paths c files `sublist_of` fe_path <$> files.
Proof.
  induction files as [|f files IH]; cbn; [constructor|].
  destruct (_ && _); [|by apply sublist_cons].
  destruct (fe_stat f) as [s|]; [|by apply sublist_cons].
  destruct (Z.ltb 0 (st_size s)); [by apply sublist_skip|by apply sublist_cons].
Qed.

(** The scanner's filter is the loader's with one more test. *)
Lemma collect_paths_le_videos (files : list FileEntry) :
  length (VideoScanner.collect_paths c files)
  <= length (PlaylistManager.collect_videos c files).
Proof.
  induction files as [|f files IH]; cbn; [done|].
  unfold PlaylistManager.is_supported_file.
  destruct (_ && _); [|done].
  destruct (fe_stat f) as [s|]; [|done].
  destruct (Z.ltb 0 (st_size s)); cbn; lia.
Qed.

Lemma collect_paths_in_videos (files : list FileEntry) (x : string) :
  x ∈ VideoScanner.collect_paths c files ->
  exists v, v ∈ PlaylistManager.collect_videos c files /\ file_path v = x.
Proof.
  rewrite elem_of_collect_paths.
  intros (g & Hg & -> & Hfile & Hsuf & s & Hs & _).
  exists (video_info_of g). split; [|done].
  apply elem_of_collect_videos. exists g.
  repeat split; first [done|by rewrite Hs].
Qed.
End ScannerFacts.

Lemma scan_listing (w : World) (sc : VideoScanner.t)
    (directory_path : option string) (files : list FileEntry) :
  fs_dir w (default (video_dir (VideoScanner.config sc)) directory_path)
    = DirListing files ->
  VideoScanner.scan_videos w sc directory_path =
    ({| VideoScanner.config := VideoScanner.config sc;
        VideoScanner.observer := VideoScanner.observer sc;
        VideoScanner.is_monitoring := VideoScanner.is_monitoring sc;
        VideoScanner.last_scan_time := Some (clock w);
        VideoScanner.cached_videos :=
          list_to_set (sort_by id
            (VideoScanner.collect_paths (VideoScanner.config sc) files));
        VideoScanner.on_change_callback := VideoScanner.on_change_callback sc |},
     sort_by id (VideoScanner.collect_paths (VideoScanner.config sc) files)).
Proof. intros Hdir. unfold VideoScanner.scan_videos. by rewrite Hdir. Qed.

Lemma scan_without_listing (w : World) (sc : VideoScanner.t)
    (directory_path : option string) :
  (forall files,
     fs_dir w (default (video_dir (VideoScanner.config sc)) directory_path)
       <> DirListing files) ->
  VideoScanner.scan_videos w sc directory_path = (sc, []).
Proof.
  intros Hdir. unfold VideoScanner.scan_videos.
  destruct (fs_dir w _) as [| | |files]; try done. by destruct (Hdir files).
Qed.

(** X10. A scan of a directory that can be listed returns the kept paths
    in ascending order and without repetition, stores exactly these paths
    in the cache and stamps the scan time; so the cache has as many
    elements as the list returned, which is also what [get_video_count]
    reports. *)
Theorem scan_is_sorted_and_cached (w : World) (sc : VideoScanner.t)
    (directory_path : option string) (files : list FileEntry) :
  fs_dir w (default (video_dir (VideoScanner.config sc)) directory_path)
    = DirListing files ->
  NoDup (fe_path <$> files) ->
  let r := VideoScanner.scan_videos w sc directory_path in
  sorted_by id r.2
  /\ NoDup r.2
  /\ VideoScanner.cached_videos r.1 = list_to_set r.2
  /\ size (VideoScanner.cached_videos r.1) = length r.2
  /\ (Monitoring.get_video_count w sc directory_path).2 = length r.2
  /\ VideoScanner.last_scan_time r.1 = Some (clock w).
Proof.
  intros Hdir Hnd r. subst r.
  unfold Monitoring.get_video_count.
  rewrite (scan_listing w sc directory_path files Hdir). cbn.
  assert (Hnd' : NoDup (sort_by id
            (VideoScanner.collect_paths (VideoScanner.config sc) files))).
  { rewrite sort_by_perm.
    eapply sublist_NoDup; [exact Hnd|apply collect_paths_sublist]. }
  split; [apply sort_by_sorted|]. split; [exact Hnd'|].
  split; [done|]. split; [|done].
  by apply size_list_to_set.
Qed.

Lemma scan_is_sorted_and_cached_witness :
  let files := [sample_file "b.mp4" ".mp4" 10; sample_file "a.mp4" ".mp4" 10;
                sample_file "empty.mp4" ".mp4" 0] in
  let r := VideoScanner.scan_videos (sample_world files)
             (VideoScanner.init sample_config) None in
  r.2 = ["/videos/a.mp4"; "/videos/b.mp4"]
  /\ size (VideoScanner.cached_videos r.1) = length r.2.
Proof.
  intros files r. split; [vm_compute; reflexivity|].
  apply (scan_is_sorted_and_cached (sample_world files)
           (VideoScanner.init sample_config) None files); [reflexivity|].
  compute_done.
Defined.

(** X11. For the same directory and configuration, every path the
    scanner reports is the path of an entry the playlist loader installs,
    and the scanner never reports more files than the loader loads. *)
Theorem scan_reports_only_loaded_files (w : World) (m : PlaylistManager.t)
    (sc : VideoScanner.t) (directory_path : option string)
    (files : list FileEntry) :
  VideoScanner.config sc = PlaylistManager.config m ->
  fs_dir w (default (video_dir (PlaylistManager.config m)) directory_path)
    = DirListing files ->
  let loaded := PlaylistManager.load_videos_from_directory w m directory_path in
  let scanned := VideoScanner.scan_videos w sc directory_path in
  (forall x, x ∈ scanned.2 ->
     exists v, v ∈ videos (PlaylistManager.playlist loaded.1) /\ file_path v = x)
  /\ length scanned.2 <= loaded.2.
Proof.
  intros Hcfg Hdir loaded scanned. subst loaded scanned.
  rewrite (scan_listing w sc directory_path files) by by rewrite Hcfg.
  rewrite (load_listing_videos w m directory_path files Hdir). cbn [snd].
  split.
  - intros x. rewrite sort_by_perm. intros Hx.
    apply collect_paths_in_videos in Hx as (v & Hv & Hp).
    exists v. rewrite sort_by_perm, <- Hcfg. done.
  - unfold PlaylistManager.load_videos_from_directory. rewrite Hdir. cbn [snd].
    rewrite !(Permutation_length (sort_by_perm _ _)), Hcfg.
    apply collect_paths_le_videos.
Qed.

Lemma scan_reports_only_loaded_files_witness :
  let files := [sample_file "b.mp4" ".mp4" 10; sample_file "empty.mp4" ".mp4" 0] in
  let w := sample_world files in
  length (VideoScanner.scan_videos w (VideoScanner.init sample_config) None).2
  <= (PlaylistManager.load_videos_from_directory w
        (PlaylistManager.init sample_config) None).2.
Proof.
  intros files w.
  apply (scan_reports_only_loaded_files w (PlaylistManager.init sample_config)
           (VideoScanner.init sample_config) None files); reflexivity.
Defined.

Lemma cleanup_stops_and_clears (stop_ok : bool) (sc : VideoScanner.t) :
  VideoScanner.cached_videos (VideoScanner.cleanup stop_ok sc) = ∅
  /\ (stop_ok = true ->
      VideoScanner.is_monitoring (VideoScanner.cleanup stop_ok sc) = false)
  /\ (VideoScanner.is_monitoring sc = true -> VideoScanner.observer sc = true ->
      stop_ok = false ->
      VideoScanner.is_monitoring (VideoScanner.cleanup stop_ok sc) = true).
Proof.
  unfold VideoScanner.cleanup, VideoScanner.stop_monitoring.
  destruct sc as [c o m t cv cb]. cbn.
  split; [done|]. split.
  - intros ->. by destruct m, o.
  - by intros -> -> ->.
Qed.

(** X12. Monitoring is switched on only by a [start_monitoring] that
    finds the directory and gets the observer started; a start that fails
    because the directory is missing changes nothing; starting while
    monitoring and stopping while not monitoring succeed and change
    nothing. [stop_monitoring] fails exactly when the scanner is
    monitoring and its observer's stop raises, and then leaves the
    scanner as it was, still monitoring; when it succeeds the scanner is
    not monitoring and a further stop changes nothing. Either way the
    cache and the registered callback are kept. [cleanup] always empties
    the cache, and leaves the scanner monitoring exactly when the stop
    inside it failed. *)
Theorem monitoring_lifecycle (w : World) (ok stop_ok callback : bool)
    (sc : VideoScanner.t) :
  let started := VideoScanner.start_monitoring w ok sc callback in
  let stopped := VideoScanner.stop_monitoring stop_ok sc in
  let cleaned := VideoScanner.cleanup stop_ok sc in
  (VideoScanner.is_monitoring sc = true -> started = (sc, true))
  /\ (VideoScanner.is_monitoring sc = false ->
      (started.2 = true <->
         ok = true /\ fs_dir w (video_dir (VideoScanner.config sc)) <> DirMissing)
      /\ VideoScanner.is_monitoring started.1 = started.2
      /\ (fs_dir w (video_dir (VideoScanner.config sc)) = DirMissing ->
          started = (sc, false)))
  /\ VideoScanner.cached_videos started.1 = VideoScanner.cached_videos sc
  /\ (VideoScanner.is_monitoring sc = false -> stopped = (sc, true))
  /\ (stopped.2 = false <->
        VideoScanner.is_monitoring sc = true
        /\ VideoScanner.observer sc = true /\ stop_ok = false)
  /\ (stopped.2 = false -> stopped.1 = sc)
  /\ (stopped.2 = true ->
      VideoScanner.is_monitoring stopped.1 = false
      /\ VideoScanner.stop_monitoring stop_ok stopped.1 = stopped)
  /\ VideoScanner.cached_videos stopped.1 = VideoScanner.cached_videos sc
  /\ VideoScanner.on_change_callback stopped.1 = VideoScanner.on_change_callback sc
  /\ VideoScanner.cached_videos cleaned = ∅
  /\ (VideoScanner.is_monitoring cleaned = true <-> stopped.2 = false).
Proof.
  intros started stopped cleaned. subst started stopped cleaned.
  split; [by unfold VideoScanner.start_monitoring; intros ->|]. split.
  { intros Hm. unfold VideoScanner.start_monitoring. rewrite Hm.
    destruct (fs_dir w (video_dir (VideoScanner.config sc))) eqn:Hd;
      destruct ok; cbn; repeat split; try done; try (by intros [? ?]);
      try (by intros _; split). }
  split.
  { unfold VideoScanner.start_monitoring.
    destruct (VideoScanner.is_monitoring sc); [done|].
    destruct (fs_dir w _); [done|..]; by destruct ok. }
  unfold VideoScanner.cleanup, VideoScanner.stop_monitoring.
  destruct sc as [c o m t cv cb]. cbn.
  destruct m, o, stop_ok; cbn; repeat split; try done;
    try (by intros (? & ? & ?)).
Qed.

Lemma monitoring_lifecycle_witness :
  let sc := (VideoScanner.start_monitoring (sample_world []) true
               (VideoScanner.init sample_config) true).1 in
  VideoScanner.is_monitoring sc = true
  /\ VideoScanner.start_monitoring (sample_world []) false sc false = (sc, true)
  /\ VideoScanner.stop_monitoring false sc = (sc, false).
Proof.
  intros sc. split; [reflexivity|].
  destruct (monitoring_lifecycle (sample_world []) false false false sc)
    as (Hstart & _ & _ & _ & Hfail & Hsame & _).
  split; [by apply Hstart|].
  assert (H2 : (VideoScanner.stop_monitoring false sc).2 = false)
    by (by apply Hfail).
  specialize (Hsame H2).
  destruct (VideoScanner.stop_monitoring false sc) as [sc' b].
  cbn in H2, Hsame. by rewrite H2, Hsame.
Defined.

(** ** The event handler *)

Lemma lower_char_idempotent (a : ascii) : lower_char (lower_char a) = lower_char a.
Proof.
  unfold lower_char.
  destruct (Nat.leb 65 (nat_of_ascii a) && Nat.leb (nat_of_ascii a) 90) eqn:E.
  - apply andb_true_iff in E as [H1 H2].
    apply Nat.leb_le in H1, H2.
    rewrite nat_ascii_embedding by lia.
    destruct (Nat.leb_spec (nat_of_ascii a + 32) 90); [lia|].
    by rewrite andb_false_r.
  - by rewrite E.
Qed.

Lemma lower_idempotent (s : string) : lower (lower s) = lower s.
Proof.
  induction s as [|a s IH]; [done|].
  cbn. by rewrite lower_char_idempotent, IH.
Qed.

Lemma is_video_file_iff (formats : list string) (cb : bool) (p : WatchedPath) :
  VideoFileHandler._is_video_file (VideoFileHandler.init formats cb) p = true
  <-> exists fmt, fmt ∈ formats /\ lower fmt = lower (wp_suffix p).
Proof.
  unfold VideoFileHandler._is_video_file, VideoFileHandler.init. cbn.
  rewrite bool_decide_eq_true, list_elem_of_fmap.
  split; intros (fmt & H1 & H2); by exists fmt.
Qed.

Lemma notify_length (h : VideoFileHandler.t) (k : EventType) (args : list string) :
  length (VideoFileHandler.notify h k args) <= 1.
Proof. unfold VideoFileHandler.notify. destruct (VideoFileHandler.callback h); cbn; lia. Qed.

(** Membership in a short explicit list, to prove and to use. *)
Ltac in_list := first [by left | by right; left | by right; right; left].

Ltac inv_in H :=
  repeat (apply elem_of_cons in H as [->|H]); try (by apply elem_of_nil in H).

Section Handler.
Variable h : VideoFileHandler.t.

Lemma dispatch_length (ev : FsEvent) :
  length (VideoFileHandler.dispatch h ev) <= 1.
Proof.
  destruct ev as [d src|d src|d src [dest|]]; cbn [VideoFileHandler.dispatch];
    unfold VideoFileHandler.on_created, VideoFileHandler.on_deleted,
      VideoFileHandler.on_moved;
    repeat match goal with |- context [if ?b then _ else _] => destruct b end;
    first [apply notify_length | cbn; lia].
Qed.

Lemma dispatch_directory (ev : FsEvent) :
  event_is_directory ev = true -> VideoFileHandler.dispatch h ev = [].
Proof.
  destruct ev as [d src|d src|d src [dest|]]; cbn; intros ->; done.
Qed.

Lemma dispatch_nonempty (ev : FsEvent) :
  VideoFileHandler.callback h = true ->
  VideoFileHandler.dispatch h ev <> [] <->
    event_is_directory ev = false
    /\ exists p, p ∈ event_paths ev /\ VideoFileHandler._is_video_file h p = true.
Proof.
  intros Hcb.
  destruct ev as [d src|d src|d src [dest|]];
    cbn [VideoFileHandler.dispatch event_is_directory event_paths];
    unfold VideoFileHandler.on_created, VideoFileHandler.on_deleted,
      VideoFileHandler.on_moved, VideoFileHandler.notify; rewrite ?Hcb;
    destruct d; cbn [negb andb];
    try (split; [done|intros [Hd _]; discriminate Hd]);
    try destruct (VideoFileHandler._is_video_file h src) eqn:Hs;
    try destruct (VideoFileHandler._is_video_file h dest) eqn:Hd;
    cbn [negb andb];
    (split;
     [intros Hne; split; [done|];
      first [by destruct Hne
            |exists src; split; [in_list|done]
            |exists dest; split; [in_list|done]]
     |intros [_ (p & Hp & Hv)]; try done; inv_in Hp; congruence]).
Qed.

Lemma dispatch_paths (ev : FsEvent) (call : HandlerCall) (x : string) :
  call ∈ VideoFileHandler.dispatch h ev -> x ∈ call_args call ->
  exists p, p ∈ event_paths ev /\ wp_path p = x
    /\ (call_kind call <> Moved -> VideoFileHandler._is_video_file h p = true).
Proof.
  destruct ev as [d src|d src|d src [dest|]];
    cbn [VideoFileHandler.dispatch event_is_directory event_paths];
    unfold VideoFileHandler.on_created, VideoFileHandler.on_deleted,
      VideoFileHandler.on_moved, VideoFileHandler.notify;
    destruct d; cbn [negb andb];
    try destruct (VideoFileHandler._is_video_file h src) eqn:Hs;
    try destruct (VideoFileHandler._is_video_file h dest) eqn:Hd;
    cbn [negb andb];
    destruct (VideoFileHandler.callback h);
    intros Hc Hx; inv_in Hc; cbn in Hx; inv_in Hx;
    first [exists src; split; [in_list|by split]
          |exists dest; split; [in_list|by split]].
Qed.
End Handler.

(** X13. The handler calls its callback at most once per event, never
    for an event on a directory, and, when a callback is set, exactly
    when one of the paths of the event is a supported video file. Every
    path it passes on is a path of the event, and in a [created] or
    [deleted] call it is a supported video file. *)
Theorem handler_reports_only_videos (h : VideoFileHandler.t) (ev : FsEvent) :
  let calls := VideoFileHandler.dispatch h ev in
  length calls <= 1
  /\ (event_is_directory ev = true -> calls = [])
  /\ (VideoFileHandler.callback h = true ->
      (calls <> [] <->
         event_is_directory ev = false
         /\ exists p, p ∈ event_paths ev
                      /\ VideoFileHandler._is_video_file h p = true))
  /\ (forall call x, call ∈ calls -> x ∈ call_args call ->
        exists p, p ∈ event_paths ev /\ wp_path p = x
          /\ (call_kind call <> Moved ->
              VideoFileHandler._is_video_file h p = true)).
Proof.
  intros calls. subst calls.
  split; [apply dispatch_length|].
  split; [apply dispatch_directory|].
  split; [apply dispatch_nonempty|].
  intros call x. apply dispatch_paths.
Qed.

Lemma handler_reports_only_videos_witness :
  let h := VideoFileHandler.init [".mp4"] true in
  let ev := EvMoved false {| wp_path := "/videos/a.tmp"; wp_suffix := ".tmp" |}
              (Some {| wp_path := "/videos/a.MP4"; wp_suffix := ".MP4" |}) in
  VideoFileHandler.dispatch h ev
    = [ {| call_kind := Created; call_args := ["/videos/a.MP4"] |} ]
  /\ VideoFileHandler.dispatch h ev <> [].
Proof.
  intros h ev. split; [reflexivity|].
  apply (proj1 (proj2 (proj2 (handler_reports_only_videos h ev)))); [reflexivity|].
  split; [reflexivity|].
  exists {| wp_path := "/videos/a.MP4"; wp_suffix := ".MP4" |}.
  split; [in_list|reflexivity].
Defined.

(** X14. The loader and the scanner accept a file only through a
    configured format that is written in lower case and equals the
    file's lower-cased suffix, so a format configured with an upper-case
    letter never matches any file there. The event handler lower-cases
    the configured formats as well: it accepts every suffix the scans
    accept, and the two tests coincide when all configured formats are in
    lower case. *)
Theorem formats_match_in_lower_case (c : SystemConfig) (cb : bool) :
  let h := VideoFileHandler.init (supported_formats c) cb in
  (forall f, PlaylistManager.is_supported_file c f = true ->
     exists fmt, fmt ∈ supported_formats c
       /\ lower fmt = fmt /\ fmt = lower (fe_suffix f))
  /\ (forall fmt f, lower fmt <> fmt ->
        supported_formats c = [fmt] ->
        PlaylistManager.is_supported_file c f = false)
  /\ (forall p, bool_decide (lower (wp_suffix p) ∈ supported_formats c) = true ->
        VideoFileHandler._is_video_file h p = true)
  /\ (Forall (fun fmt => lower fmt = fmt) (supported_formats c) ->
      forall p, VideoFileHandler._is_video_file h p
                = bool_decide (lower (wp_suffix p) ∈ supported_formats c)).
Proof.
  intros h.
  assert (Hacc : forall f, PlaylistManager.is_supported_file c f = true ->
     exists fmt, fmt ∈ supported_formats c
       /\ lower fmt = fmt /\ fmt = lower (fe_suffix f)).
  { intros f Hf. unfold PlaylistManager.is_supported_file in Hf.
    apply andb_true_iff in Hf as [_ Hf]. apply bool_decide_eq_true in Hf.
    exists (lower (fe_suffix f)). split; [done|]. split; [|done].
    apply lower_idempotent. }
  split; [exact Hacc|]. split; [|split].
  - intros fmt f Hup Hfmt.
    destruct (PlaylistManager.is_supported_file c f) eqn:Hf; [|done].
    destruct (Hacc f Hf) as (x & Hx & Hlow & _).
    rewrite Hfmt in Hx. apply list_elem_of_singleton in Hx as ->. done.
  - intros p Hp. apply bool_decide_eq_true in Hp.
    apply is_video_file_iff. exists (lower (wp_suffix p)).
    split; [done|apply lower_idempotent].
  - intros Hall p.
    destruct (bool_decide (lower (wp_suffix p) ∈ supported_formats c)) eqn:Hb.
    + apply bool_decide_eq_true in Hb.
      apply is_video_file_iff. exists (lower (wp_suffix p)).
      split; [done|apply lower_idempotent].
    + apply bool_decide_eq_false in Hb.
      apply not_true_is_false. intros Hv.
      apply is_video_file_iff in Hv as (fmt & Hfmt & Heq).
      apply Hb. rewrite <- Heq.
      by rewrite (proj1 (Forall_forall _ _) Hall fmt Hfmt).
Qed.

Lemma formats_match_in_lower_case_witness :
  let c := {| video_dir := "/videos"; log_dir := "/logs";
              supported_formats := [".MP4"]; refresh_interval := 30;
              max_retries := 2; retry_delay := 1 |} in
  let f := sample_file "a.mp4" ".mp4" 10 in
  let p := {| wp_path := fe_path f; wp_suffix := fe_suffix f |} in
  VideoFileHandler._is_video_file
    (VideoFileHandler.init (supported_formats c) true) p = true
  /\ PlaylistManager.is_supported_file c f = false.
Proof.
  intros c f p. split; [reflexivity|].
  apply (proj1 (proj2 (formats_match_in_lower_case c true)) ".MP4" f);
    [discriminate|reflexivity].
Defined.

(** ** Events and the reconciler *)

Lemma handle_file_change_config (w : World) (sc : VideoScanner.t) (ev : EventType) :
  VideoScanner.config (VideoScanner._handle_file_change w sc ev).1
  = VideoScanner.config sc.
Proof.
  unfold VideoScanner._handle_file_change, VideoScanner.scan_videos.
  by destruct (fs_dir w _).
Qed.

(** X15. Handling a second event when the video directory is in the
    state the first handling met never calls the change callback, whatever
    the two events are and whether or not the directory can be listed.
    The second handling leaves the cache, the configuration, the
    monitoring state and the registered callback as the first left them;
    only the scan time moves, to the time of the second scan, when the
    directory can be listed. *)
Theorem handle_file_change_repeat_is_silent (w w' : World)
    (sc : VideoScanner.t) (ev ev' : EventType) :
  fs_dir w' (video_dir (VideoScanner.config sc))
    = fs_dir w (video_dir (VideoScanner.config sc)) ->
  let first := VideoScanner._handle_file_change w sc ev in
  let second := VideoScanner._handle_file_change w' first.1 ev' in
  second.2 = []
  /\ VideoScanner.cached_videos second.1 = VideoScanner.cached_videos first.1
  /\ VideoScanner.config second.1 = VideoScanner.config first.1
  /\ VideoScanner.observer second.1 = VideoScanner.observer first.1
  /\ VideoScanner.is_monitoring second.1 = VideoScanner.is_monitoring first.1
  /\ VideoScanner.on_change_callback second.1
     = VideoScanner.on_change_callback first.1
  /\ VideoScanner.last_scan_time second.1
     = match fs_dir w (video_dir (VideoScanner.config sc)) with
       | DirListing _ => Some (clock w')
       | _ => VideoScanner.last_scan_time first.1
       end.
Proof.
  intros Hsame first second. subst first second.
  destruct (fs_dir w (video_dir (VideoScanner.config sc))) as [| | |files] eqn:Hdir.
  all: unfold VideoScanner._handle_file_change, VideoScanner.scan_videos;
    cbn [default]; rewrite Hdir;
    cbn [fst snd list_to_set VideoScanner.config VideoScanner.cached_videos
         VideoScanner.on_change_callback];
    rewrite Hsame;
    cbn [fst snd list_to_set VideoScanner.config VideoScanner.cached_videos
         VideoScanner.on_change_callback VideoScanner.observer
         VideoScanner.is_monitoring VideoScanner.last_scan_time];
    rewrite !difference_diag_L;
    rewrite (bool_decide_eq_true_2 (∅ = ∅)) by reflexivity;
    by rewrite andb_false_r.
Qed.

Lemma handle_file_change_repeat_is_silent_witness :
  let files := [sample_file "a.mp4" ".mp4" 10] in
  let w := sample_world files in
  let later := {| fs_dir := fs_dir w; fs_file := fs_file w; clock := 5 |} in
  let sc := (VideoScanner.start_monitoring w true
               (VideoScanner.init sample_config) true).1 in
  let first := VideoScanner._handle_file_change w sc Created in
  let second := VideoScanner._handle_file_change later first.1 Deleted in
  second.2 = []
  /\ VideoScanner.last_scan_time first.1 = Some 0%Z
  /\ VideoScanner.last_scan_time second.1 = Some 5%Z.
Proof.
  intros files w later sc first second.
  destruct (handle_file_change_repeat_is_silent w later sc Created Deleted
              eq_refl) as (Hcalls & _ & _ & _ & _ & _ & Htime).
  split; [exact Hcalls|]. split; [reflexivity|exact Htime].
Defined.

(** X16. An event on a directory, or one none of whose paths is a
    supported video file, does not reach the scanner: no rescan, no
    notification, the scanner is untouched. Any other event runs
    [_handle_file_change] exactly once. *)
Theorem irrelevant_events_are_ignored (w : World) (sc : VideoScanner.t)
    (ev : FsEvent) :
  let h := Monitoring.handler_of sc in
  (event_is_directory ev = true
   \/ Forall (fun p => VideoFileHandler._is_video_file h p = false) (event_paths ev) ->
   Monitoring.on_event w sc ev = (sc, []))
  /\ (event_is_directory ev = false ->
      (exists p, p ∈ event_paths ev /\ VideoFileHandler._is_video_file h p = true) ->
      exists kind,
        Monitoring.on_event w sc ev = VideoScanner._handle_file_change w sc kind).
Proof.
  intros h. unfold Monitoring.on_event. fold h.
  assert (Hcb : VideoFileHandler.callback h = true) by reflexivity.
  split.
  - intros Hirr.
    destruct (VideoFileHandler.dispatch h ev) as [|call rest] eqn:Hd; [done|].
    exfalso.
    assert (Hne : VideoFileHandler.dispatch h ev <> []) by by rewrite Hd.
    apply (dispatch_nonempty h ev Hcb) in Hne as [Hdir (p & Hp & Hv)].
    destruct Hirr as [Hirr|Hirr]; [congruence|].
    rewrite (proj1 (Forall_forall _ _) Hirr p Hp) in Hv. discriminate Hv.
  - intros Hdir Hex.
    assert (Hne : VideoFileHandler.dispatch h ev <> [])
      by by apply (dispatch_nonempty h ev Hcb).
    pose proof (dispatch_length h ev) as Hlen.
    destruct (VideoFileHandler.dispatch h ev) as [|call [|call' rest]];
      [done| |cbn in Hlen; lia].
    exists (call_kind call). cbn.
    destruct (VideoScanner._handle_file_change w sc (call_kind call)) as [sc1 out].
    by rewrite app_nil_r.
Qed.

Lemma irrelevant_events_are_ignored_witness :
  let sc := VideoScanner.init sample_config in
  let w := sample_world [sample_file "a.mp4" ".mp4" 10] in
  Monitoring.on_event w sc
    (EvCreated false {| wp_path := "/videos/notes.txt"; wp_suffix := ".txt" |})
  = (sc, []).
Proof.
  intros sc w.
  apply (proj1 (irrelevant_events_are_ignored w sc
    (EvCreated false {| wp_path := "/videos/notes.txt"; wp_suffix := ".txt" |}))).
  right. repeat constructor.
Defined.

(** ** What every state of the orchestrator has in common *)

Section ManagerPlain.
Variable c : SystemConfig.

Lemma manager_plain_init : Orchestration.manager_plain c (PlaylistManager.init c).
Proof.
  unfold Orchestration.manager_plain. cbn.
  repeat split; try done; [constructor|by right].
Qed.

Lemma manager_plain_load (w : World) (pm : PlaylistManager.t) :
  Orchestration.manager_plain c pm ->
  Orchestration.manager_plain c
    (PlaylistManager.load_videos_from_directory w pm None).1.
Proof.
  intros Hpm.
  destruct (fs_dir w (default (video_dir (PlaylistManager.config pm)) None))
    as [| | |files] eqn:Hdir.
  1-3: rewrite load_without_listing; [exact Hpm|intros files; by rewrite Hdir].
  destruct Hpm as (Hc & Hs & Hst & Hl & Hsh & _ & _).
  unfold Orchestration.manager_plain, PlaylistManager.sorted.
  rewrite (load_listing_videos w pm None files Hdir).
  rewrite (load_listing w pm None files Hdir).
  match goal with |- context [PlaylistManager.reset_current_strategy ?x] =>
    destruct (reset_current_strategy_spec x) as (Hp' & Hc' & Hs' & Hst') end.
  rewrite Hp', Hc', Hs', Hst'. cbn. rewrite Hs.
  repeat split; try done; [apply sort_by_sorted|].
  apply (cursor_in_range_reset
           (PlaylistOps.set_videos (PlaylistManager.playlist pm) _)).
Qed.

Lemma manager_plain_next (r : nat) (pm : PlaylistManager.t) :
  Orchestration.manager_plain c pm ->
  Orchestration.manager_plain c (PlaylistManager.get_next_video r pm).1.
Proof.
  intros (Hc & Hs & Hst & Hl & Hsh & Hsorted & Hcur).
  destruct (manager_next_frame r pm) as (Hc' & Hs' & Hv & Hsh' & Hl' & Hcur').
  unfold Orchestration.manager_plain, PlaylistManager.sorted,
    PlaylistNav.cursor_in_range in *.
  rewrite Hc', Hs', Hv, Hsh', Hl'.
  repeat split; try done.
  - unfold PlaylistManager.get_next_video. rewrite Hs.
    by destruct (SequentialStrategy.get_next_video _).
  - destruct Hcur' as [-> | Hlt]; [done|by left].
Qed.
End ManagerPlain.

Section SystemFrames.
Import SignageSystem.

(** A property of playlist managers that reloading and picking keep. *)
Variable P : PlaylistManager.t -> Prop.
Hypothesis P_load : forall w pm,
  P pm -> P (PlaylistManager.load_videos_from_directory w pm None).1.
Hypothesis P_next : forall r pm,
  P pm -> P (PlaylistManager.get_next_video r pm).1.

Lemma same_run_state_refl (s : t) : Orchestration.same_run_state s s.
Proof. by repeat split. Qed.

Lemma refresh_playlist_frame (h : Host) (s : t) :
  Orchestration.same_run_state s (_refresh_playlist h s).1
  /\ video_player (_refresh_playlist h s).1 = video_player s
  /\ ((forall pm, playlist_manager s = Some pm -> P pm) ->
      forall pm, playlist_manager (_refresh_playlist h s).1 = Some pm -> P pm).
Proof.
  unfold _refresh_playlist.
  destruct (playlist_manager s) as [pm0|] eqn:Hpm; cbn.
  - split; [|split; [done|]].
    + unfold Orchestration.same_run_state. cbn. repeat split; try done; by eexists.
    + intros HP pm [= <-]. by apply P_load, HP.
  - split; [apply same_run_state_refl|]. split; [done|].
    intros HP pm Hs. rewrite Hpm in Hs. discriminate Hs.
Qed.

Lemma handle_playback_error_frame (h : Host) (s : t) :
  Orchestration.same_run_state s (_handle_playback_error h s).1
  /\ video_player (_handle_playback_error h s).1 = video_player s
  /\ ((forall pm, playlist_manager s = Some pm -> P pm) ->
      forall pm, playlist_manager (_handle_playback_error h s).1 = Some pm -> P pm).
Proof.
  unfold _handle_playback_error.
  set (s1 := with_counters s (error_count s + 1) (consecutive_errors s + 1)).
  destruct (Z.leb (max_retries (config s1)) (consecutive_errors s1)).
  - destruct (refresh_playlist_frame h s1) as (Hf & Hpl & HP).
    destruct (_refresh_playlist h s1) as [s' tr]. cbn [fst snd] in *.
    split; [|split; [exact Hpl|exact HP]].
    destruct Hf as (? & ? & ? & ? & ? & ? & ?). by repeat split.
  - cbn. split; [by repeat split|]. by split.
Qed.

Lemma main_loop_body_frame (h : Host) (r : nat) (s : t) :
  Orchestration.same_run_state s (main_loop_body h r s).1
  /\ ((forall pm, playlist_manager s = Some pm -> P pm) ->
      forall pm, playlist_manager (main_loop_body h r s).1 = Some pm -> P pm).
Proof.
  pose proof (handle_playback_error_frame h s) as (Hef & _ & HeP).
  unfold main_loop_body.
  destruct (playlist_manager s) as [pm0|] eqn:Hpm; [|by split].
  assert (Hsame : forall tr : list Effect,
            Orchestration.same_run_state s (s, tr).1
            /\ ((forall pm, Some pm0 = Some pm -> P pm) ->
                forall pm, playlist_manager (s, tr).1 = Some pm -> P pm)).
  { intros tr. split; [apply same_run_state_refl|].
    intros HP pm Hs. cbn in Hs. rewrite Hpm in Hs. by apply HP. }
  destruct (PlaylistManager.is_empty pm0); [apply Hsame|].
  destruct (PlaylistManager.get_current_video pm0) as [v|]; [|apply Hsame].
  destruct (video_player s) as [pl|] eqn:Hpl; [|by split].
  destruct (play_ok h (file_path v)).
  - pose proof (P_next r pm0) as Hnext.
    destruct (PlaylistManager.get_next_video r pm0) as [pm' next]. cbn [fst] in Hnext.
    set (s2 := with_components (with_counters s (error_count s) 0)
                 (Some {| current_video_path := Some (file_path v);
                          is_playing := false |})
                 (Some pm') (video_scanner (with_counters s (error_count s) 0))).
    assert (Hs2 : Orchestration.same_run_state s s2).
    { unfold Orchestration.same_run_state. cbn. repeat split; by eexists. }
    assert (HP2 : (forall pm, Some pm0 = Some pm -> P pm) ->
                  forall pm, playlist_manager s2 = Some pm -> P pm).
    { intros HP pm [= <-]. by apply Hnext, HP. }
    destruct next as [v'|]; [by split|].
    destruct (negb (loop_enabled (PlaylistManager.playlist pm'))); [|by split].
    destruct (refresh_playlist_frame h s2) as (Hf & _ & HPr).
    destruct (_refresh_playlist h s2) as [s3 tr]. cbn [fst] in *.
    split; [|intros HP; by apply HPr, HP2].
    destruct Hs2 as (? & ? & ? & ? & ? & ? & ?).
    destruct Hf as (? & ? & ? & ? & ? & ? & ?).
    unfold Orchestration.same_run_state.
    repeat split; try congruence; auto.
  - destruct (_handle_playback_error h s) as [s1 tr]. cbn [fst] in *.
    split; [exact Hef|]. intros HP. by apply HeP.
Qed.

Lemma initialize_frame (h : Host) (s : t) :
  let r := initialize h s in
  config r.1 = config s /\ running r.1 = running s
  /\ shutdown_event r.1 = shutdown_event s /\ main_thread r.1 = main_thread s
  /\ (r.2 = true ->
      is_Some (video_player r.1) /\ is_Some (playlist_manager r.1)
      /\ is_Some (video_scanner r.1))
  /\ ((forall pm, playlist_manager s = Some pm -> P pm) ->
      P (PlaylistManager.init (config s)) ->
      forall pm, playlist_manager r.1 = Some pm -> P pm).
Proof.
  unfold initialize.
  repeat match goal with |- context [if ?b then _ else _] => destruct b end;
    cbn; repeat split; try done; try (by eexists).
  all: intros HP Hinit pm [= <-]; by apply P_load.
Qed.
End SystemFrames.

Section WellFormed.
Import SignageSystem.
Variable c : SystemConfig.

Lemma well_formed_init : Orchestration.well_formed c (init c).
Proof. unfold Orchestration.well_formed. cbn. by repeat split. Qed.

Lemma well_formed_same_run_state (s s' : t) :
  Orchestration.well_formed c s ->
  Orchestration.same_run_state s s' ->
  (forall pm, playlist_manager s' = Some pm -> Orchestration.manager_plain c pm) ->
  Orchestration.well_formed c s'.
Proof.
  intros (Hc & Hrun & _) (Hc' & Hr' & Hsh' & Hmt' & Hsc' & Hpl' & Hpm') HP.
  unfold Orchestration.well_formed.
  split; [congruence|]. split; [|exact HP].
  rewrite Hr', Hsh', Hmt', Hsc'. intros Hr.
  destruct (Hrun Hr) as (? & ? & ? & ? & ?). repeat split; auto.
Qed.

Lemma well_formed_step (s : t) (a : Action) :
  Orchestration.well_formed c s -> Orchestration.well_formed c (step s a).
Proof.
  intros Hs. pose proof Hs as (Hc & Hrun & HP).
  destruct a as [h| |h r|h|h]; cbn [step].
  - unfold start. destruct (running s) eqn:Hr; [exact Hs|].
    destruct (initialize_frame (Orchestration.manager_plain c)
                (manager_plain_load c) h s)
      as (Hc1 & Hr1 & Hsh1 & Hmt1 & Hok & HP1).
    destruct (initialize h s) as [s1 ok]. cbn [fst snd] in *.
    assert (HP1' : forall pm, playlist_manager s1 = Some pm ->
                     Orchestration.manager_plain c pm).
    { apply HP1; [exact HP|]. rewrite Hc. apply manager_plain_init. }
    unfold Orchestration.well_formed.
    destruct ok; cbn [negb]; [destruct (thread_ok h)|]; cbn.
    + split; [congruence|]. split; [|exact HP1'].
      intros _. destruct (Hok eq_refl) as (? & ? & ?). by repeat split.
    + split; [congruence|]. split; [done|exact HP1'].
    + split; [congruence|]. split; [|exact HP1']. rewrite Hr1, Hr. done.
  - unfold stop. destruct (running s) eqn:Hr; cbn [negb]; [|exact Hs].
    unfold Orchestration.well_formed. cbn. split; [done|]. split; [done|exact HP].
  - destruct (running s && negb (shutdown_event s)); [|exact Hs].
    destruct (main_loop_body_frame (Orchestration.manager_plain c)
                (manager_plain_load c) (manager_plain_next c) h r s) as [Hf HP'].
    apply (well_formed_same_run_state s); auto.
  - destruct (handle_playback_error_frame (Orchestration.manager_plain c)
                (manager_plain_load c) h s) as (Hf & _ & HP').
    apply (well_formed_same_run_state s); auto.
  - destruct (refresh_playlist_frame (Orchestration.manager_plain c)
                (manager_plain_load c) h s) as (Hf & _ & HP').
    apply (well_formed_same_run_state s); auto.
Qed.

Lemma reachable_well_formed (s : t) :
  reachable c s -> Orchestration.well_formed c s.
Proof.
  intros [actions ->].
  pose proof well_formed_init as Hinit. revert Hinit. generalize (init c).
  induction actions as [|a actions IH]; intros s Hs; [exact Hs|].
  cbn. apply IH, well_formed_step, Hs.
Qed.
End WellFormed.

(** X17. In every reachable state of the orchestrator in which it is
    running, the player, the playlist manager and the scanner are all
    there, the main-loop thread has been started and the shutdown signal
    is clear; so the loop's guard holds and the loop body never meets a
    missing component. *)
Theorem running_system_is_complete (c : SystemConfig) (s : SignageSystem.t) :
  SignageSystem.reachable c s -> SignageSystem.running s = true ->
  is_Some (SignageSystem.video_player s)
  /\ is_Some (SignageSystem.playlist_manager s)
  /\ is_Some (SignageSystem.video_scanner s)
  /\ SignageSystem.main_thread s = true
  /\ SignageSystem.shutdown_event s = false
  /\ SignageSystem.running s && negb (SignageSystem.shutdown_event s) = true.
Proof.
  intros Hreach Hrun.
  destruct (reachable_well_formed c s Hreach) as (_ & Hcomp & _).
  destruct (Hcomp Hrun) as (Hpl & Hpm & Hsc & Hsh & Hmt).
  repeat split; try done. by rewrite Hrun, Hsh.
Qed.

Lemma running_system_is_complete_witness :
  let h := sample_host [sample_file "1.mp4" ".mp4" 10] in
  let s := foldl SignageSystem.step (SignageSystem.init sample_config)
             [SignageSystem.DoStart h; SignageSystem.DoLoop h 0;
              SignageSystem.DoDirectoryChange h] in
  SignageSystem.running s = true /\ is_Some (SignageSystem.playlist_manager s).
Proof.
  intros h s.
  assert (Hrun : SignageSystem.running s = true) by reflexivity.
  split; [exact Hrun|].
  apply (running_system_is_complete sample_config s); [by eexists|exact Hrun].
Defined.

(** X18. The playlist manager of an orchestrator, in every reachable
    state, works for the orchestrator's configuration, uses the
    sequential strategy with looping enabled and shuffle disabled, has
    never touched the shuffle strategy, holds its videos in
    case-insensitive filename order and has its cursor in range; so it
    has a current video exactly when it is not empty. The orchestrator
    itself never switches modes. *)
Theorem orchestrator_playlist_is_sequential_and_loops (c : SystemConfig)
    (s : SignageSystem.t) (pm : PlaylistManager.t) :
  SignageSystem.reachable c s ->
  SignageSystem.playlist_manager s = Some pm ->
  PlaylistManager.config pm = c
  /\ PlaylistManager.current_strategy pm = PlaylistManager.Sequential
  /\ PlaylistManager.shuffle_strategy pm = ShuffleStrategy.init
  /\ loop_enabled (PlaylistManager.playlist pm) = true
  /\ shuffle_enabled (PlaylistManager.playlist pm) = false
  /\ PlaylistManager.sorted pm
  /\ PlaylistNav.cursor_in_range (PlaylistManager.playlist pm)
  /\ (PlaylistManager.get_current_video pm = None
      <-> PlaylistManager.is_empty pm = true).
Proof.
  intros Hreach Hpm.
  destruct (reachable_well_formed c s Hreach) as (_ & _ & HP).
  destruct (HP pm Hpm) as (H1 & H2 & H3 & H4 & H5 & H6 & H7).
  repeat split; try done; by apply current_video_iff_nonempty.
Qed.

Lemma orchestrator_playlist_is_sequential_and_loops_witness :
  let h := sample_host [sample_file "b.mp4" ".mp4" 10; sample_file "a.mp4" ".mp4" 10] in
  let s := foldl SignageSystem.step (SignageSystem.init sample_config)
             [SignageSystem.DoStart h; SignageSystem.DoLoop h 0] in
  exists pm, SignageSystem.playlist_manager s = Some pm
    /\ current_index (PlaylistManager.playlist pm) = 1
    /\ PlaylistManager.sorted pm.
Proof.
  intros h s.
  destruct (SignageSystem.playlist_manager s) as [pm|] eqn:Hpm;
    [|vm_compute in Hpm; discriminate Hpm].
  exists pm. split; [done|]. split.
  - vm_compute in Hpm. injection Hpm as <-. reflexivity.
  - apply (orchestrator_playlist_is_sequential_and_loops sample_config s pm);
      [by eexists|exact Hpm].
Defined.

(** ** The loop at work *)

Section LoopRuns.
Import SignageSystem.
Variable c : SystemConfig.

Lemma current_video_lookup (pm : PlaylistManager.t) :
  PlaylistNav.cursor_in_range (PlaylistManager.playlist pm) ->
  videos (PlaylistManager.playlist pm) <> [] ->
  current_index (PlaylistManager.playlist pm)
    < length (videos (PlaylistManager.playlist pm))
  /\ PlaylistManager.get_current_video pm
     = videos (PlaylistManager.playlist pm)
         !! current_index (PlaylistManager.playlist pm)
  /\ PlaylistManager.is_empty pm = false.
Proof.
  intros [Hlt|[Hnil _]] Hne; [|done].
  unfold PlaylistManager.get_current_video, PlaylistOps.get_current_video,
    PlaylistManager.is_empty, PlaylistOps.is_empty.
  destruct (videos (PlaylistManager.playlist pm)) as [|v vs] eqn:E; [done|].
  rewrite <- E in *. rewrite (proj2 (Nat.ltb_lt _ _) Hlt).
  repeat split; try done. rewrite E. done.
Qed.

(** One pass through the loop body when the engine accepts the file. *)
Lemma loop_body_plays (h : Host) (r : nat) (s : t) (pm : PlaylistManager.t)
    (pl : VideoPlayer) (v : VideoInfo) :
  playlist_manager s = Some pm -> video_player s = Some pl ->
  Orchestration.manager_plain c pm ->
  videos (PlaylistManager.playlist pm)
    !! current_index (PlaylistManager.playlist pm) = Some v ->
  play_ok h (file_path v) = true ->
  main_loop_body h r s =
    (with_components (with_counters s (error_count s) 0)
       (Some {| current_video_path := Some (file_path v); is_playing := false |})
       (Some (PlaylistManager.get_next_video r pm).1)
       (video_scanner s),
     [Play (file_path v)])
  /\ videos (PlaylistManager.playlist (PlaylistManager.get_next_video r pm).1)
     = videos (PlaylistManager.playlist pm)
  /\ current_index (PlaylistManager.playlist (PlaylistManager.get_next_video r pm).1)
     = (current_index (PlaylistManager.playlist pm) + 1)
         mod length (videos (PlaylistManager.playlist pm)).
Proof.
  intros Hpm Hpl (Hc & Hs & Hst & Hl & Hsh & Hsorted & Hcur) Hv Hok.
  assert (Hne : videos (PlaylistManager.playlist pm) <> []).
  { intros Hnil. rewrite Hnil in Hv. discriminate Hv. }
  destruct (current_video_lookup pm Hcur Hne) as (Hlt & Hcv & Hem).
  assert (Hnext : PlaylistManager.get_next_video r pm =
    (PlaylistManager.with_playlist pm
       (PlaylistOps.set_current_index (PlaylistManager.playlist pm)
          ((current_index (PlaylistManager.playlist pm) + 1)
             mod length (videos (PlaylistManager.playlist pm)))),
     videos (PlaylistManager.playlist pm)
       !! ((current_index (PlaylistManager.playlist pm) + 1)
             mod length (videos (PlaylistManager.playlist pm))))).
  { unfold PlaylistManager.get_next_video. rewrite Hs.
    by rewrite (seq_next_loop _ Hne Hl). }
  split; [|by rewrite Hnext].
  unfold main_loop_body. rewrite Hpm, Hpl. cbv beta iota.
  rewrite Hem, Hcv, Hv. cbv beta iota. rewrite Hok, Hnext. cbn [fst].
  destruct (lookup_lt_is_Some_2 (videos (PlaylistManager.playlist pm))
              ((current_index (PlaylistManager.playlist pm) + 1)
                 mod length (videos (PlaylistManager.playlist pm)))) as [v' ->];
    [|done].
  apply Nat.mod_upper_bound. lia.
Qed.

Lemma loops_play_in_order (steps : list (Host * nat)) : forall s pm,
  playlist_manager s = Some pm -> is_Some (video_player s) ->
  Orchestration.manager_plain c pm ->
  videos (PlaylistManager.playlist pm) <> [] ->
  (forall h r path, (h, r) ∈ steps -> play_ok h path = true) ->
  let n := length (videos (PlaylistManager.playlist pm)) in
  let c0 := current_index (PlaylistManager.playlist pm) in
  exists played pm',
    (Orchestration.loops steps s).2 = (fun v => Play (file_path v)) <$> played
    /\ length played = length steps
    /\ (forall j, j < length steps ->
          played !! j = videos (PlaylistManager.playlist pm) !! ((c0 + j) mod n))
    /\ playlist_manager (Orchestration.loops steps s).1 = Some pm'
    /\ videos (PlaylistManager.playlist pm') = videos (PlaylistManager.playlist pm)
    /\ current_index (PlaylistManager.playlist pm') = (c0 + length steps) mod n
    /\ error_count (Orchestration.loops steps s).1 = error_count s.
Proof.
  induction steps as [|[h r] steps IH]; intros s pm Hpm Hpl Hplain Hne Hok n c0.
  - exists [], pm. cbn. repeat split; try done; [lia|].
    destruct Hplain as (_ & _ & _ & _ & _ & _ & Hcur).
    destruct (current_video_lookup pm Hcur Hne) as (Hlt & _).
    subst n c0. rewrite Nat.add_0_r. by rewrite Nat.mod_small.
  - pose proof Hplain as (_ & _ & _ & _ & _ & _ & Hcur).
    destruct (current_video_lookup pm Hcur Hne) as (Hlt & _ & _).
    destruct (lookup_lt_is_Some_2 _ _ Hlt) as [v Hv].
    destruct Hpl as [pl Hpl].
    destruct (loop_body_plays h r s pm pl v Hpm Hpl Hplain Hv) as (Hbody & Hvs & Hc1).
    { apply (Hok h r). by left. }
    cbn [Orchestration.loops]. rewrite Hbody.
    set (s1 := with_components _ _ _ _).
    set (pm1 := (PlaylistManager.get_next_video r pm).1) in *.
    destruct (IH s1 pm1) as (played & pm' & Htr & Hlen & Hj & Hpm' & Hvs' & Hc' & He).
    { done. }
    { by eexists. }
    { by apply manager_plain_next. }
    { by rewrite Hvs. }
    { intros h' r' path Hin. apply (Hok h' r'). by right. }
    destruct (Orchestration.loops steps s1) as [s2 tr2]. cbn [fst snd] in *.
    exists (v :: played), pm'. rewrite Hvs in *. rewrite Hc1 in *. fold n c0 in Hj, Hc'.
    split; [cbn; by rewrite Htr|]. split; [cbn; by rewrite Hlen|].
    split; [|split; [done|split; [done|split; [|done]]]].
    + intros [|j] Hlt'.
      * cbn. rewrite Nat.add_0_r, Nat.mod_small by done. unfold c0. by rewrite Hv.
      * cbn in Hlt'. cbn [lookup list_lookup]. rewrite Hj by lia.
        f_equal. rewrite Nat.Div0.add_mod_idemp_l. f_equal. lia.
    + rewrite Hc'. rewrite Nat.Div0.add_mod_idemp_l. f_equal. cbn. lia.
Qed.
End LoopRuns.

(** X19. From any reachable state with a player and a non-empty
    playlist, passes through the loop body in which the engine accepts
    every file play the videos of the list one after the other starting
    with the current one, in list order with wraparound: the j-th file
    played is the entry at [(cursor + j) mod len]. Nothing else is done
    (no wait, no reload), the list is unchanged, the cursor has advanced
    by the number of passes, and the total error count is untouched. *)
Theorem orchestrator_plays_in_list_order (c : SystemConfig)
    (s : SignageSystem.t) (pm : PlaylistManager.t) (steps : list (Host * nat)) :
  SignageSystem.reachable c s ->
  SignageSystem.playlist_manager s = Some pm ->
  is_Some (SignageSystem.video_player s) ->
  videos (PlaylistManager.playlist pm) <> [] ->
  (forall h r path, (h, r) ∈ steps -> play_ok h path = true) ->
  let n := length (videos (PlaylistManager.playlist pm)) in
  let c0 := current_index (PlaylistManager.playlist pm) in
  exists played pm',
    (Orchestration.loops steps s).2 = (fun v => Play (file_path v)) <$> played
    /\ length played = length steps
    /\ (forall j, j < length steps ->
          played !! j = videos (PlaylistManager.playlist pm) !! ((c0 + j) mod n))
    /\ SignageSystem.playlist_manager (Orchestration.loops steps s).1 = Some pm'
    /\ videos (PlaylistManager.playlist pm') = videos (PlaylistManager.playlist pm)
    /\ current_index (PlaylistManager.playlist pm') = (c0 + length steps) mod n
    /\ SignageSystem.error_count (Orchestration.loops steps s).1
       = SignageSystem.error_count s.
Proof.
  intros Hreach Hpm Hpl Hne Hok.
  destruct (reachable_well_formed c s Hreach) as (_ & _ & HP).
  by apply (loops_play_in_order c steps s pm Hpm Hpl (HP pm Hpm) Hne Hok).
Qed.

Lemma orchestrator_plays_in_list_order_witness :
  let h := sample_host [sample_file "2.mp4" ".mp4" 10; sample_file "1.mp4" ".mp4" 10;
                        sample_file "3.mp4" ".mp4" 10] in
  let s := foldl SignageSystem.step (SignageSystem.init sample_config)
             [SignageSystem.DoStart h] in
  (Orchestration.loops [(h, 0); (h, 0); (h, 0); (h, 0)] s).2
  = [Play "/videos/1.mp4"; Play "/videos/2.mp4"; Play "/videos/3.mp4";
     Play "/videos/1.mp4"].
Proof.
  intros h s.
  destruct (SignageSystem.playlist_manager s) as [pm|] eqn:Hpm;
    [|vm_compute in Hpm; discriminate Hpm].
  destruct (orchestrator_plays_in_list_order sample_config s pm
              [(h, 0); (h, 0); (h, 0); (h, 0)]) as (played & pm' & Htr & _);
    [by eexists|exact Hpm|by eexists|
     vm_compute in Hpm; injection Hpm as <-; discriminate|
     intros h' r' path Hin;
       repeat (apply elem_of_cons in Hin as [[= -> ->]|Hin]; [reflexivity|]);
       by apply elem_of_nil in Hin|].
  vm_compute. reflexivity.
Defined.

Lemma load_cursor (w : World) (pm : PlaylistManager.t) :
  let pm' := (PlaylistManager.load_videos_from_directory w pm None).1 in
  pm' = pm \/ current_index (PlaylistManager.playlist pm') = 0.
Proof.
  destruct (fs_dir w (default (video_dir (PlaylistManager.config pm)) None))
    as [| | |files] eqn:Hdir.
  1-3: left; rewrite load_without_listing; [done|intros files; by rewrite Hdir].
  right. cbn zeta. rewrite (load_listing w pm None files Hdir).
  match goal with |- context [PlaylistManager.reset_current_strategy ?x] =>
    destruct (reset_current_strategy_spec x) as (-> & _) end.
  reflexivity.
Qed.

(** X20. When the engine rejects the current file, the pass through the
    loop body counts one more error, tries no other file, and never moves
    the cursor forward: the playlist manager is the one before, or the
    one before reloaded (when the consecutive count reached the maximum),
    so the cursor is where it was or on 0. The pass ends with the retry
    wait. *)
Theorem failed_playback_never_advances (h : Host) (r : nat)
    (s : SignageSystem.t) (pm : PlaylistManager.t) (v : VideoInfo) :
  SignageSystem.playlist_manager s = Some pm ->
  is_Some (SignageSystem.video_player s) ->
  PlaylistManager.is_empty pm = false ->
  PlaylistManager.get_current_video pm = Some v ->
  play_ok h (file_path v) = false ->
  let res := SignageSystem.main_loop_body h r s in
  exists pm' tr,
    SignageSystem.playlist_manager res.1 = Some pm'
    /\ (pm' = pm
        \/ pm' = (PlaylistManager.load_videos_from_directory (world h) pm None).1)
    /\ (current_index (PlaylistManager.playlist pm')
          = current_index (PlaylistManager.playlist pm)
        \/ current_index (PlaylistManager.playlist pm') = 0)
    /\ SignageSystem.error_count res.1 = (SignageSystem.error_count s + 1)%Z
    /\ res.2 = Play (file_path v) :: tr
          ++ [Wait (retry_delay (SignageSystem.config s))]
    /\ (tr = [] \/ tr = [RefreshPlaylist]).
Proof.
  intros Hpm [pl Hpl] Hem Hcv Hfail res. subst res.
  unfold SignageSystem.main_loop_body. rewrite Hpm, Hpl. cbv beta iota.
  rewrite Hem, Hcv. cbv beta iota. rewrite Hfail.
  destruct (handle_playback_error_spec h s) as (_ & Herr & Hmax & Hlt).
  destruct (SignageSystem._handle_playback_error h s) as [s1 tr1].
  cbn [fst snd] in *.
  destruct (Z.leb_spec (max_retries (SignageSystem.config s))
              (SignageSystem.consecutive_errors s + 1)) as [H|H].
  - destruct (Hmax H) as (_ & -> & Hpm1).
    exists (PlaylistManager.load_videos_from_directory (world h) pm None).1,
      [RefreshPlaylist].
    unfold SignageSystem._refresh_playlist in Hpm1. cbn in Hpm1.
    rewrite Hpm in Hpm1. cbn in Hpm1.
    split; [exact Hpm1|]. split; [by right|].
    split; [|split; [exact Herr|split; [done|by right]]].
    destruct (load_cursor (world h) pm) as [-> | H0]; [by left|by right].
  - destruct (Hlt H) as (_ & -> & Hpm1).
    exists pm, []. rewrite Hpm1, Hpm.
    split; [done|]. split; [by left|]. split; [by left|].
    split; [exact Herr|]. split; [done|by left].
Qed.

Lemma failed_playback_never_advances_witness :
  let files := [sample_file "1.mp4" ".mp4" 10; sample_file "2.mp4" ".mp4" 10] in
  let s := foldl SignageSystem.step (SignageSystem.init sample_config)
             [SignageSystem.DoStart (sample_host files);
              SignageSystem.DoLoop (sample_host files) 0] in
  (SignageSystem.main_loop_body (failing_host files) 0 s).2
  = [Play "/videos/2.mp4"; Wait 1].
Proof.
  intros files s.
  destruct (SignageSystem.playlist_manager s) as [pm|] eqn:Hpm;
    [|vm_compute in Hpm; discriminate Hpm].
  assert (Hpm' := Hpm). vm_compute in Hpm'. injection Hpm' as Hpm'.
  destruct (failed_playback_never_advances (failing_host files) 0 s pm
              (video_info_of (sample_file "2.mp4" ".mp4" 10)))
    as (pm' & tr & _ & _ & _ & _ & Htr & _);
    [exact Hpm|by eexists|by rewrite <- Hpm'|by rewrite <- Hpm'|reflexivity|].
  vm_compute. reflexivity.
Defined.

(** ** Starting and stopping *)

(** X21. [stop] on a system that is not running does nothing; on a
    running one it clears [running], raises the shutdown signal and
    cleans the scanner up: the cache is emptied, and the scanner is left
    not monitoring when its observer stops. When the observer's stop
    raises, the scanner is left monitoring, and no later [stop] tries
    again. In every case the configuration, the playlist manager and
    both error counters are kept, and stopping again changes nothing
    more. *)
Theorem stop_is_idempotent (h h' : Host) (s : SignageSystem.t) :
  let s' := SignageSystem.stop h s in
  SignageSystem.stop h' s' = s'
  /\ (SignageSystem.running s = false -> s' = s)
  /\ SignageSystem.running s' = false
  /\ (SignageSystem.running s = true ->
      SignageSystem.shutdown_event s' = true
      /\ SignageSystem.video_scanner s'
         = VideoScanner.cleanup (observer_stop_ok h)
             <$> SignageSystem.video_scanner s
      /\ (forall sc, SignageSystem.video_scanner s' = Some sc ->
            VideoScanner.cached_videos sc = ∅
            /\ (observer_stop_ok h = true ->
                VideoScanner.is_monitoring sc = false))
      /\ (forall sc, SignageSystem.video_scanner s = Some sc ->
            VideoScanner.is_monitoring sc = true ->
            VideoScanner.observer sc = true ->
            observer_stop_ok h = false ->
            exists sc',
              SignageSystem.video_scanner (SignageSystem.stop h' s') = Some sc'
              /\ VideoScanner.is_monitoring sc' = true))
  /\ SignageSystem.config s' = SignageSystem.config s
  /\ SignageSystem.playlist_manager s' = SignageSystem.playlist_manager s
  /\ SignageSystem.error_count s' = SignageSystem.error_count s
  /\ SignageSystem.consecutive_errors s' = SignageSystem.consecutive_errors s.
Proof.
  intros s'. subst s'. unfold SignageSystem.stop.
  destruct (SignageSystem.running s) eqn:Hr; cbn [negb].
  - split; [reflexivity|]. split; [discriminate|]. split; [reflexivity|].
    split; [|done]. intros _. split; [reflexivity|]. split; [reflexivity|].
    split.
    + intros sc1 Hsc. cbn in Hsc.
      destruct (SignageSystem.video_scanner s) as [sc0|]; [|discriminate Hsc].
      injection Hsc as <-.
      destruct (cleanup_stops_and_clears (observer_stop_ok h) sc0)
        as (Hc & Hm & _). by split.
    + intros sc Hsc Hm Ho Hstop.
      exists (VideoScanner.cleanup (observer_stop_ok h) sc).
      split; [cbn; by rewrite Hsc|].
      by apply cleanup_stops_and_clears.
  - rewrite Hr. cbn [negb]. split; [reflexivity|]. split; [reflexivity|].
    split; [reflexivity|]. split; [discriminate|done].
Qed.

Lemma stop_is_idempotent_witness :
  let h := sample_host [sample_file "1.mp4" ".mp4" 10] in
  let s := foldl SignageSystem.step (SignageSystem.init sample_config)
             [SignageSystem.DoStart h] in
  SignageSystem.running s = true
  /\ SignageSystem.shutdown_event (SignageSystem.stop h s) = true.
Proof.
  intros h s.
  assert (Hr : SignageSystem.running s = true) by (vm_compute; reflexivity).
  split; [exact Hr|].
  destruct (stop_is_idempotent h h s) as (_ & _ & _ & Hrun & _).
  exact (proj1 (Hrun Hr)).
Defined.

(** X22. [start] on a system that is not running succeeds exactly when
    the video directory can be listed (or is missing and can be created),
    the player can be built and the loop thread can be started; neither
    the directory observer nor the number of videos found matters. On
    success the system is running and the only effect is the start of the
    thread; on failure it is not running and there is no effect. The
    error counters are kept either way. *)
Theorem start_succeeds_iff_surroundings_allow (h : Host) (s : SignageSystem.t) :
  SignageSystem.running s = false ->
  let res := SignageSystem.start h s in
  res.1.2 = Orchestration.dir_usable h (SignageSystem.config s)
            && player_ok h && thread_ok h
  /\ SignageSystem.running res.1.1 = res.1.2
  /\ res.2 = (if res.1.2 then [StartThread] else [])
  /\ SignageSystem.error_count res.1.1 = SignageSystem.error_count s
  /\ SignageSystem.consecutive_errors res.1.1 = SignageSystem.consecutive_errors s.
Proof.
  intros Hr res. subst res.
  unfold SignageSystem.start, SignageSystem.initialize, Orchestration.dir_usable,
    VideoScanner.validate_directory.
  rewrite Hr. cbn [VideoScanner.init VideoScanner.config].
  destruct (fs_dir (world h) (video_dir (SignageSystem.config s))) eqn:Hdir;
    cbn [andb negb mkdir fs_dir]; rewrite ?String.eqb_refl, ?Hdir;
    destruct (mkdir_ok h), (player_ok h), (thread_ok h);
    cbv beta iota zeta
      delta [negb andb fst snd SignageSystem.with_run_state
             SignageSystem.with_components SignageSystem.with_counters
             SignageSystem.running SignageSystem.error_count
             SignageSystem.consecutive_errors];
    rewrite ?Hr; done.
Qed.

Lemma start_succeeds_iff_surroundings_allow_witness :
  let h := sample_host [] in
  (SignageSystem.start h (SignageSystem.init sample_config)).1.2 = true
  /\ (SignageSystem.start h (SignageSystem.init sample_config)).2 = [StartThread].
Proof.
  intros h.
  destruct (start_succeeds_iff_surroundings_allow h
              (SignageSystem.init sample_config) eq_refl)
    as (Hok & _ & Htr & _).
  split; [rewrite Hok; reflexivity|].
  rewrite Htr, Hok. reflexivity.
Defined.

(** ** The player's command line *)

(** X23. The VLC argument list determines the configuration: two
    configurations that differ in any field give different argument
    lists, whatever strings the interface, the video output and the codec
    are. The list has between six and twelve entries. *)
Theorem vlc_args_determine_config (c c' : VLCConfig) :
  (to_vlc_args c = to_vlc_args c' -> c = c')
  /\ 6 <= length (to_vlc_args c) <= 12.
Proof.
  split.
  - destruct c as [i f t o s a q v k], c' as [i' f' t' o' s' a' q' v' k'].
    unfold to_vlc_args.
    cbn [interface fullscreen show_video_title show_osd enable_subtitles
         enable_audio quiet_mode video_output codec].
    intros H. injection H as Hi H. subst i'.
    destruct t, t', f, f', o, o', s, s', a, a', q, q';
      cbn [app] in H; first [discriminate H | by injection H as -> ->].
  - unfold to_vlc_args.
    destruct (show_video_title c), (fullscreen c), (show_osd c),
      (enable_subtitles c), (enable_audio c), (quiet_mode c);
      cbn [app length]; lia.
Qed.

Lemma vlc_args_determine_config_witness :
  let windowed := {|
    interface := "dummy"; fullscreen := false; show_video_title := false;
    show_osd := false; enable_subtitles := false; enable_audio := false;
    quiet_mode := true; video_output := "mmal_vout"; codec := "mmal" |} in
  to_vlc_args DEFAULT_VLC_CONFIG <> to_vlc_args windowed.
Proof.
  intros windowed H.
  apply (proj1 (vlc_args_determine_config DEFAULT_VLC_CONFIG windowed)) in H.
  discriminate H.
Defined.
